(** * AMOCA parametric climate insurance: the Move settlement core in Rocq

    A shallow embedding of the Move modules of [amoca-p2p-climate-insurance]
    (liquidity pool, oracle aggregation, risk model, policy manager and claim
    processor) together with the properties the specification states about
    them.

    Conventions of the embedding:
    - [u8], [u64] and [u128] values are [N]; Move arithmetic does not wrap,
      it aborts the transaction, so every operator is a checked operation in
      the [result] monad;
    - [assert!(c, code)] aborts with [EAssert code];
    - [sui::table::Table] is a [gmap]; [table::add] on a present key and
      [table::borrow] on an absent key abort;
    - [vector<T>] is a [list]; [vector::borrow] out of range aborts;
    - a [Balance<SUI>] is its [u64] value, a [String] is a [string];
    - the bytes that an entry function hands to [string::utf8] are a
      [string] too, byte for byte.  Where the outcome of a function is
      stated for any bytes ([risk_model::update_location_factor],
      [policy_manager_enhanced::create_policy],
      [switchboard_oracle::register_feed] and
      [oracle_aggregator::aggregate_data]) the conversion runs where the
      source runs it and aborts unless the bytes are well-formed UTF-8; the
      other functions are given the [String]s that the conversion returns;
    - an entry function returns the objects it transfers or shares and the
      events it emits next to the updated [&mut] arguments.  An abort
      returns none of them: the Move runtime discards every effect of an
      aborted transaction. *)

From Stdlib Require Import NArith Lia.
From stdpp Require Import gmap strings list sorting.

Local Open Scope N_scope.

(** ** Move runtime *)

Module Move.

Inductive abort : Type :=
| EAssert (code : N)        (* assert!(cond, code) with cond false *)
| EOverflow                 (* + or * above the maximum of the type *)
| EUnderflow                (* - below zero *)
| EDivByZero                (* / or % with a zero divisor *)
| ECast                     (* (e as T) with e above the maximum of T *)
| EVectorIndex              (* vector::borrow out of bounds *)
| ETableMissing             (* table::borrow of an absent key *)
| ETableDuplicate           (* table::add of a present key *)
| EBalance                  (* balance::split of more than the value *)
| EInsufficientLiquidity    (* raised by the modelled pool payout only *)
| EInvalidUtf8.             (* string::utf8 of bytes that are not UTF-8 *)

Inductive result (A : Type) : Type :=
| Ok (a : A)
| Err (e : abort).
Arguments Ok {A} a.
Arguments Err {A} e.

#[export] Instance result_ret : MRet result := λ A a, Ok a.
#[export] Instance result_bind : MBind result := λ A B f m,
  match m with
  | Ok a => f a
  | Err e => Err e
  end.

Definition MAX_U64 : N := 18446744073709551615.

Definition assert (c : bool) (code : N) : result unit :=
  if c then Ok tt else Err (EAssert code).

(** Checked arithmetic at a type whose largest value is [max]. *)
Definition checked_add (max a b : N) : result N :=
  if a + b <=? max then Ok (a + b) else Err EOverflow.
Definition checked_mul (max a b : N) : result N :=
  if a * b <=? max then Ok (a * b) else Err EOverflow.
Definition sub (a b : N) : result N :=
  if b <=? a then Ok (a - b) else Err EUnderflow.
Definition div (a b : N) : result N :=
  if b =? 0 then Err EDivByZero else Ok (a / b).
Definition rem (a b : N) : result N :=
  if b =? 0 then Err EDivByZero else Ok (a mod b).
Definition cast (max a : N) : result N :=
  if a <=? max then Ok a else Err ECast.

Definition add64 : N → N → result N := checked_add MAX_U64.
Definition mul64 : N → N → result N := checked_mul MAX_U64.
Definition as_u64 : N → result N := cast MAX_U64.

(** [while (i < n) { body; i = i + 1 }] with a bound [n] that the body
    does not change: the body runs once for each of [i], [i+1], ...,
    [n-1].  The counter stays below [n], so its increment cannot
    overflow. *)
Fixpoint count_up {S : Type} (steps : nat) (i : N)
    (body : N → S → result S) (s : S) : result S :=
  match steps with
  | O => Ok s
  | Datatypes.S k => s' ← body i s; count_up k (i + 1) body s'
  end.
Definition while_lt {S : Type} (i n : N)
    (body : N → S → result S) (s : S) : result S :=
  count_up (N.to_nat (n - i)) i body s.

(** std::vector *)
Definition vector_length {A : Type} (v : list A) : N := N.of_nat (length v).
Definition borrow {A : Type} (v : list A) (i : N) : result A :=
  match v !! N.to_nat i with
  | Some x => Ok x
  | None => Err EVectorIndex
  end.
(** [*vector::borrow_mut(&mut v, i) = x] *)
Definition borrow_mut_set {A : Type} (v : list A) (i : N) (x : A)
    : result (list A) :=
  if i <? vector_length v then Ok (<[N.to_nat i := x]> v)
  else Err EVectorIndex.

(** sui::table *)
Definition table_contains `{Countable K} {V : Type}
    (t : gmap K V) (k : K) : bool :=
  bool_decide (is_Some (t !! k)).
Definition table_borrow `{Countable K} {V : Type}
    (t : gmap K V) (k : K) : result V :=
  match t !! k with
  | Some v => Ok v
  | None => Err ETableMissing
  end.
Definition table_add `{Countable K} {V : Type}
    (t : gmap K V) (k : K) (v : V) : result (gmap K V) :=
  match t !! k with
  | Some _ => Err ETableDuplicate
  | None => Ok (<[k := v]> t)
  end.
(** [*table::borrow_mut(&mut t, k) = v] *)
Definition table_set `{Countable K} {V : Type}
    (t : gmap K V) (k : K) (v : V) : result (gmap K V) :=
  match t !! k with
  | Some _ => Ok (<[k := v]> t)
  | None => Err ETableMissing
  end.

(** std::string.  [string::utf8] takes the bytes as they are and aborts
    unless they are well-formed UTF-8: a leading byte decides how many
    bytes follow and the range of each of them, which excludes overlong
    forms, surrogates and code points above U+10FFFF. *)
Fixpoint bytes_of (s : string) : list N :=
  match s with
  | EmptyString => []
  | String c s => Ascii.N_of_ascii c :: bytes_of s
  end.
Definition in_range (low high b : N) : bool := (low <=? b) && (b <=? high).
Definition utf8_tail (lead : N) : option (list (N * N)) :=
  if lead <=? 127 then Some []
  else if in_range 194 223 lead then Some [(128, 191)]
  else if lead =? 224 then Some [(160, 191); (128, 191)]
  else if in_range 225 236 lead then Some [(128, 191); (128, 191)]
  else if lead =? 237 then Some [(128, 159); (128, 191)]
  else if in_range 238 239 lead then Some [(128, 191); (128, 191)]
  else if lead =? 240 then Some [(144, 191); (128, 191); (128, 191)]
  else if in_range 241 243 lead
  then Some [(128, 191); (128, 191); (128, 191)]
  else if lead =? 244 then Some [(128, 143); (128, 191); (128, 191)]
  else None.
Fixpoint check_utf8_bytes (expected : list (N * N)) (bytes : list N)
    : bool :=
  match bytes with
  | [] => match expected with [] => true | _ :: _ => false end
  | b :: bytes =>
      match expected with
      | (low, high) :: expected =>
          in_range low high b && check_utf8_bytes expected bytes
      | [] =>
          match utf8_tail b with
          | Some expected => check_utf8_bytes expected bytes
          | None => false
          end
      end
  end.
Definition check_utf8 (bytes : string) : bool :=
  check_utf8_bytes [] (bytes_of bytes).
Definition utf8 (bytes : string) : result string :=
  if check_utf8 bytes then Ok bytes else Err EInvalidUtf8.

(** sui::object and sui::tx_context.  [object::new] draws a fresh
    identifier from the transaction context. *)
Abbreviation address := N (only parsing).
Abbreviation ID := N (only parsing).
Record TxContext : Type := mkTxContext {
  sender : address;
  epoch : N;
  ids_created : N;
}.
Definition object_new (ctx : TxContext) : ID * TxContext :=
  (ids_created ctx,
   {| sender := sender ctx; epoch := epoch ctx;
      ids_created := ids_created ctx + 1 |}).

(** sui::balance and sui::coin *)
Record Coin : Type := mkCoin { coin_value : N }.
Definition balance_join (self value : N) : result N := add64 self value.
Definition balance_split (self value : N) : result (N * N) :=
  if value <=? self then Ok (self - value, value) else Err EBalance.
(** [coin::take(&mut balance, amount, ctx)]: the remaining balance and
    the coin taken. *)
Definition coin_take (balance amount : N) : result (N * Coin) :=
  '(rest, taken) ← balance_split balance amount;
  Ok (rest, mkCoin taken).

End Move.
Import Move.

(** ** amoca::liquidity_pool *)

Module liquidity_pool.

(** The pool is a shared singleton; its [UID], which nothing reads, is
    left out. *)
Record LiquidityPool : Type := mkPool {
  total_liquidity : N;             (* Balance<SUI> *)
  lp_shares : gmap address N;
  total_shares : N;
}.

Record LPToken : Type := mkLPToken {
  lp_id : ID;
  lp_owner : address;
  shares : N;
}.

Record LiquidityAdded : Type := mkLiquidityAdded {
  la_provider : address;
  la_amount : N;
  la_shares : N;
}.

Record LiquidityRemoved : Type := mkLiquidityRemoved {
  lr_provider : address;
  lr_amount : N;
  lr_shares : N;
}.

Definition create_pool (ctx : TxContext) : LiquidityPool * TxContext :=
  let '(_, ctx) := object_new ctx in
  (mkPool 0 ∅ 0, ctx).

(** The updated pool, the LP token transferred to the sender and the
    event emitted. *)
Definition add_liquidity (pool : LiquidityPool) (coin : Coin)
    (ctx : TxContext)
    : result (LiquidityPool * LPToken * LiquidityAdded * TxContext) :=
  let amount := coin_value coin in
  let sender := sender ctx in
  shares ←
    (if total_shares pool =? 0 then Ok amount
     else
       product ← mul64 amount (total_shares pool);
       div product (total_liquidity pool));
  liquidity ← balance_join (total_liquidity pool) (coin_value coin);
  lp_shares ←
    (if table_contains (lp_shares pool) sender then
       current_shares ← table_borrow (lp_shares pool) sender;
       updated ← add64 current_shares shares;
       table_set (lp_shares pool) sender updated
     else table_add (lp_shares pool) sender shares);
  total ← add64 (total_shares pool) shares;
  let '(id, ctx) := object_new ctx in
  Ok (mkPool liquidity lp_shares total,
      mkLPToken id sender shares,
      mkLiquidityAdded sender amount shares,
      ctx).

(** The updated pool, the coin transferred to the owner and the event. *)
Definition remove_liquidity (pool : LiquidityPool) (lp_token : LPToken)
    (ctx : TxContext)
    : result (LiquidityPool * Coin * LiquidityRemoved) :=
  let owner := lp_owner lp_token in
  let shares := shares lp_token in
  _ ← assert (bool_decide (owner = sender ctx)) 0;
  product ← mul64 shares (total_liquidity pool);
  amount ← div product (total_shares pool);
  current_shares ← table_borrow (lp_shares pool) owner;
  updated ← sub current_shares shares;
  lp_shares ← table_set (lp_shares pool) owner updated;
  total ← sub (total_shares pool) shares;
  '(liquidity, coin_to_return) ← coin_take (total_liquidity pool) amount;
  Ok (mkPool liquidity lp_shares total,
      coin_to_return,
      mkLiquidityRemoved owner amount shares).

(** Modelled from the spec: [process_claim_payout] is called by both claim
    processors but its body is not part of the module source (the module
    only lists it among the functions still to be written).  The
    specification's [payout(recipient, amount)] decreases the total
    liquidity by [amount] without touching any share balance and fails with
    InsufficientLiquidity if [amount] exceeds the total liquidity.  The
    coin paid to the recipient is returned next to the pool. *)
Definition process_claim_payout (pool : LiquidityPool) (recipient : address)
    (amount : N) (ctx : TxContext)
    : result (LiquidityPool * (Coin * address)) :=
  if total_liquidity pool <? amount then Err EInsufficientLiquidity
  else Ok (mkPool (total_liquidity pool - amount) (lp_shares pool)
                  (total_shares pool),
           (mkCoin amount, recipient)).

End liquidity_pool.

(** ** amoca::risk_model *)

Module risk_model.

Record RiskModel : Type := mkRiskModel {
  model_id : ID;
  model_name : string;
  model_version : string;
  base_premium_rate : N;                 (* basis points *)
  location_factors : gmap string N;
  peril_factors : gmap string N;
  seasonal_factors : gmap N N;           (* month -> factor *)
  coverage_factors : gmap N N;           (* coverage tier -> factor *)
  last_updated : N;
  created_by : address;
}.

Record PremiumCalculation : Type := mkPremiumCalculation {
  pc_policy_id : option ID;
  pc_location : string;
  pc_peril_type : string;
  pc_coverage_amount : N;
  base_premium : N;
  location_adjustment : N;
  peril_adjustment : N;
  seasonal_adjustment : N;
  coverage_adjustment : N;
  final_premium : N;
  funding_rate : N;                      (* daily, basis points *)
}.

Record RiskModelCreated : Type := mkRiskModelCreated {
  rmc_model_id : ID;
  rmc_model_name : string;
  rmc_model_version : string;
  rmc_created_by : address;
}.

Record RiskModelUpdated : Type := mkRiskModelUpdated {
  rmu_model_id : ID;
  rmu_field_updated : string;
  rmu_updated_by : address;
}.

(** The shared model and the event. *)
Definition create_risk_model (model_name model_version : string)
    (base_premium_rate : N) (ctx : TxContext)
    : result (RiskModel * RiskModelCreated * TxContext) :=
  let '(id, ctx) := object_new ctx in
  (* Location factors (higher = riskier) *)
  lf ← table_add ∅ "east-africa"%string 120;
  lf ← table_add lf "southeast-asia"%string 150;
  lf ← table_add lf "central-america"%string 130;
  lf ← table_add lf "south-pacific"%string 140;
  (* Peril factors (higher = riskier) *)
  pf ← table_add ∅ "drought"%string 130;
  pf ← table_add pf "flood"%string 160;
  pf ← table_add pf "heat"%string 120;
  pf ← table_add pf "wind"%string 140;
  (* Seasonal factors (by month, 1-12) *)
  sf ← table_add ∅ 1 100;
  sf ← table_add sf 2 100;
  sf ← table_add sf 3 110;
  sf ← table_add sf 4 120;
  sf ← table_add sf 5 130;
  sf ← table_add sf 6 140;
  sf ← table_add sf 7 150;
  sf ← table_add sf 8 160;
  sf ← table_add sf 9 150;
  sf ← table_add sf 10 130;
  sf ← table_add sf 11 110;
  sf ← table_add sf 12 100;
  (* Coverage factors (by coverage tier) *)
  cf ← table_add ∅ 1000 120;      (* higher relative premium *)
  cf ← table_add cf 5000 110;
  cf ← table_add cf 10000 100;    (* baseline *)
  cf ← table_add cf 50000 90;     (* volume discount *)
  cf ← table_add cf 100000 85;    (* larger volume discount *)
  Ok (mkRiskModel id model_name model_version base_premium_rate
        lf pf sf cf (epoch ctx) (sender ctx),
      mkRiskModelCreated id model_name model_version (sender ctx),
      ctx).

Definition update_location_factor (model : RiskModel) (location : string)
    (factor : N) (ctx : TxContext)
    : result (RiskModel * RiskModelUpdated) :=
  _ ← assert (bool_decide (created_by model = sender ctx)) 0;
  location_str ← utf8 location;
  lf ←
    (if table_contains (location_factors model) location_str
     then table_set (location_factors model) location_str factor
     else table_add (location_factors model) location_str factor);
  Ok (mkRiskModel (model_id model) (model_name model) (model_version model)
        (base_premium_rate model) lf (peril_factors model)
        (seasonal_factors model) (coverage_factors model)
        (epoch ctx) (created_by model),
      mkRiskModelUpdated (model_id model) "location_factor" (sender ctx)).

Definition coverage_tiers : list N := [1000; 5000; 10000; 50000; 100000].

(** One round of the nearest-tier scan; the state is
    [(min_diff, closest_tier)]. *)
Definition closest_tier_step (coverage_amount : N) (i : N) (st : N * N)
    : result (N * N) :=
  let '(min_diff, closest_tier) := st in
  tier ← borrow coverage_tiers i;
  diff ←
    (if coverage_amount <? tier then sub tier coverage_amount
     else sub coverage_amount tier);
  Ok (if diff <? min_diff then (diff, tier) else (min_diff, closest_tier)).

Definition calculate_premium (model : RiskModel)
    (location peril_type : string) (coverage_amount current_month : N)
    (policy_id : option ID) : result PremiumCalculation :=
  let base_premium_rate := base_premium_rate model in
  location_factor ←
    (if table_contains (location_factors model) location
     then table_borrow (location_factors model) location
     else Ok 100);
  peril_factor ←
    (if table_contains (peril_factors model) peril_type
     then table_borrow (peril_factors model) peril_type
     else Ok 100);
  let month :=
    if (1 <=? current_month) && (current_month <=? 12)
    then current_month else 1 in
  seasonal_factor ←
    (if table_contains (seasonal_factors model) month
     then table_borrow (seasonal_factors model) month
     else Ok 100);
  '(_, closest_tier) ←
    while_lt 0 (vector_length coverage_tiers)
      (closest_tier_step coverage_amount) (1000000000, 10000);
  coverage_factor ←
    (if table_contains (coverage_factors model) closest_tier
     then table_borrow (coverage_factors model) closest_tier
     else Ok 100);
  (* base premium (annual) *)
  x ← mul64 coverage_amount base_premium_rate;
  base_premium ← div x 10000;
  (* adjustments *)
  x ← mul64 base_premium location_factor; x ← div x 100;
  location_adjustment ← sub x base_premium;
  x ← mul64 base_premium peril_factor; x ← div x 100;
  peril_adjustment ← sub x base_premium;
  x ← mul64 base_premium seasonal_factor; x ← div x 100;
  seasonal_adjustment ← sub x base_premium;
  x ← mul64 base_premium coverage_factor; x ← div x 100;
  coverage_adjustment ← sub x base_premium;
  (* final premium *)
  x ← add64 base_premium location_adjustment;
  x ← add64 x peril_adjustment;
  x ← add64 x seasonal_adjustment;
  final_premium ← add64 x coverage_adjustment;
  (* daily funding rate *)
  x ← mul64 final_premium 10000;
  y ← mul64 coverage_amount 365;
  funding_rate ← div x y;
  Ok (mkPremiumCalculation policy_id location peril_type coverage_amount
        base_premium location_adjustment peril_adjustment
        seasonal_adjustment coverage_adjustment final_premium funding_rate).

End risk_model.

(** ** amoca::policy_manager *)

Module policy_manager.

Record Policy : Type := mkPolicy {
  id : ID;
  owner : address;
  location : string;
  peril_type : string;
  coverage_amount : N;
  trigger_threshold : N;
  collateral_amount : N;
  active : bool;
  created_at : N;
}.

Record PolicyCreated : Type := mkPolicyCreated {
  pc_policy_id : ID;
  pc_owner : address;
  pc_location : string;
  pc_peril_type : string;
  pc_coverage_amount : N;
  pc_trigger_threshold : N;
  pc_collateral_amount : N;
}.

Record PolicyTerminated : Type := mkPolicyTerminated {
  pt_policy_id : ID;
  pt_owner : address;
}.

Definition create_policy (location peril_type : string)
    (coverage_amount trigger_threshold : N) (collateral : Coin)
    (ctx : TxContext) : result (Policy * PolicyCreated * TxContext) :=
  let collateral_amount := coin_value collateral in
  let sender := sender ctx in
  let '(id, ctx) := object_new ctx in
  Ok (mkPolicy id sender location peril_type coverage_amount
        trigger_threshold collateral_amount true (epoch ctx),
      mkPolicyCreated id sender location peril_type coverage_amount
        trigger_threshold collateral_amount,
      ctx).

Definition terminate_policy (policy : Policy) (ctx : TxContext)
    : result (Policy * PolicyTerminated) :=
  _ ← assert (bool_decide (owner policy = sender ctx)) 0;
  _ ← assert (active policy) 1;
  Ok (mkPolicy (id policy) (owner policy) (location policy)
        (peril_type policy) (coverage_amount policy)
        (trigger_threshold policy) (collateral_amount policy) false
        (created_at policy),
      mkPolicyTerminated (id policy) (owner policy)).

End policy_manager.

(** ** amoca::policy_manager_enhanced *)

Module policy_manager_enhanced.

Record Policy : Type := mkPolicy {
  id : ID;
  owner : address;
  location : string;
  location_coordinates : list N;
  peril_type : string;
  peril_details : string;
  coverage_amount : N;
  trigger_threshold : N;
  trigger_operator : N;       (* u8; 0: less than, 1: greater, 2: equal to *)
  collateral_balance : N;     (* Balance<SUI> *)
  margin_requirement : N;
  funding_rate_paid : N;
  funding_rate_received : N;
  active : bool;
  created_at : N;
  last_updated : N;
}.

Record PolicyRegistry : Type := mkPolicyRegistry {
  policies : gmap ID address;
  policies_by_owner : gmap address (list ID);
  policies_by_location : gmap string (list ID);
  policies_by_peril : gmap string (list ID);
  total_policies : N;
  total_coverage : N;
}.

Record RiskParameters : Type := mkRiskParameters {
  location_risk : gmap string N;
  peril_risk : gmap string N;
  base_margin_requirement : N;     (* basis points of the coverage *)
}.

Record PolicyCreated : Type := mkPolicyCreated {
  pc_policy_id : ID;
  pc_owner : address;
  pc_location : string;
  pc_peril_type : string;
  pc_coverage_amount : N;
  pc_trigger_threshold : N;
  pc_collateral_amount : N;
}.

Record PolicyTerminated : Type := mkPolicyTerminated {
  pt_policy_id : ID;
  pt_owner : address;
  pt_reason : string;
}.

Record CollateralAdded : Type := mkCollateralAdded {
  ca_policy_id : ID;
  ca_owner : address;
  ca_amount : N;
  ca_new_balance : N;
}.

Record CollateralRemoved : Type := mkCollateralRemoved {
  cr_policy_id : ID;
  cr_owner : address;
  cr_amount : N;
  cr_new_balance : N;
}.

(** Field updates of a [&mut Policy]. *)
Definition set_collateral (policy : Policy) (balance now : N) : Policy :=
  mkPolicy (id policy) (owner policy) (location policy)
    (location_coordinates policy) (peril_type policy) (peril_details policy)
    (coverage_amount policy) (trigger_threshold policy)
    (trigger_operator policy) balance (margin_requirement policy)
    (funding_rate_paid policy) (funding_rate_received policy)
    (active policy) (created_at policy) now.

Definition set_terminated (policy : Policy) (now : N) : Policy :=
  mkPolicy (id policy) (owner policy) (location policy)
    (location_coordinates policy) (peril_type policy) (peril_details policy)
    (coverage_amount policy) (trigger_threshold policy)
    (trigger_operator policy) (collateral_balance policy)
    (margin_requirement policy) (funding_rate_paid policy)
    (funding_rate_received policy) false (created_at policy) now.

Definition set_funding (policy : Policy) (paid received : N) : Policy :=
  mkPolicy (id policy) (owner policy) (location policy)
    (location_coordinates policy) (peril_type policy) (peril_details policy)
    (coverage_amount policy) (trigger_threshold policy)
    (trigger_operator policy) (collateral_balance policy)
    (margin_requirement policy) paid received
    (active policy) (created_at policy) (last_updated policy).

(** One round of the loops of [init] that fill a risk table from two
    parallel vectors. *)
Definition init_step (keys : list string) (risks : list N) (i : N)
    (table : gmap string N) : result (gmap string N) :=
  key ← borrow keys i;
  risk ← borrow risks i;
  table_add table key risk.

(** The shared registry and risk parameters. *)
Definition init (ctx : TxContext)
    : result (PolicyRegistry * RiskParameters * TxContext) :=
  let '(_, ctx) := object_new ctx in
  let registry := mkPolicyRegistry ∅ ∅ ∅ ∅ 0 0 in
  let '(_, ctx) := object_new ctx in
  let locations :=
    ["east-africa"; "southeast-asia"; "central-america";
     "south-pacific"]%string in
  let location_risks := [1200; 1500; 1300; 1400] in
  let perils := ["drought"; "flood"; "heat"; "wind"]%string in
  let peril_risks := [1300; 1600; 1200; 1400] in
  location_risk ←
    while_lt 0 (vector_length locations)
      (init_step locations location_risks) ∅;
  peril_risk ←
    while_lt 0 (vector_length perils) (init_step perils peril_risks) ∅;
  Ok (registry, mkRiskParameters location_risk peril_risk 1000, ctx).

Definition calculate_margin_requirement (risk_params : RiskParameters)
    (location peril_type : string) (coverage_amount : N) : result N :=
  let base_margin := base_margin_requirement risk_params in
  location_risk ←
    (if table_contains (location_risk risk_params) location
     then table_borrow (location_risk risk_params) location
     else Ok 1000);
  peril_risk ←
    (if table_contains (peril_risk risk_params) peril_type
     then table_borrow (peril_risk risk_params) peril_type
     else Ok 1000);
  x ← add64 base_margin location_risk;
  total_risk_factor ← add64 x peril_risk;
  x ← mul64 coverage_amount total_risk_factor;
  div x 10000.

(** [vector::push_back] on the entry of an index table, or a new singleton
    entry. *)
Definition index_policy `{Countable K} (index : gmap K (list ID)) (key : K)
    (policy_id : ID) : result (gmap K (list ID)) :=
  if table_contains index key then
    entries ← table_borrow index key;
    table_set index key (entries ++ [policy_id])
  else table_add index key [policy_id].

(** The updated registry, the policy transferred to the sender and the
    event. *)
Definition create_policy (registry : PolicyRegistry)
    (risk_params : RiskParameters) (location : string)
    (location_coordinates : list N) (peril_type peril_details : string)
    (coverage_amount trigger_threshold trigger_operator : N)
    (collateral : Coin) (ctx : TxContext)
    : result (PolicyRegistry * Policy * PolicyCreated * TxContext) :=
  location_str ← utf8 location;
  peril_type_str ← utf8 peril_type;
  margin_requirement ←
    calculate_margin_requirement risk_params location_str peril_type_str
      coverage_amount;
  let collateral_amount := coin_value collateral in
  _ ← assert (margin_requirement <=? collateral_amount) 0;
  let owner := sender ctx in
  let '(policy_id, ctx) := object_new ctx in
  peril_details_str ← utf8 peril_details;
  let policy :=
    mkPolicy policy_id owner location_str location_coordinates peril_type_str
      peril_details_str coverage_amount trigger_threshold trigger_operator
      collateral_amount margin_requirement 0 0 true (epoch ctx) (epoch ctx) in
  policies ← table_add (policies registry) policy_id owner;
  by_owner ← index_policy (policies_by_owner registry) owner policy_id;
  by_location ←
    index_policy (policies_by_location registry) location_str policy_id;
  by_peril ←
    index_policy (policies_by_peril registry) peril_type_str policy_id;
  total_policies ← add64 (total_policies registry) 1;
  total_coverage ← add64 (total_coverage registry) coverage_amount;
  Ok (mkPolicyRegistry policies by_owner by_location by_peril
        total_policies total_coverage,
      policy,
      mkPolicyCreated policy_id owner location_str peril_type_str
        coverage_amount trigger_threshold collateral_amount,
      ctx).

Definition add_collateral (policy : Policy) (additional_collateral : Coin)
    (ctx : TxContext) : result (Policy * CollateralAdded) :=
  _ ← assert (bool_decide (owner policy = sender ctx)) 0;
  let amount := coin_value additional_collateral in
  new_balance ← balance_join (collateral_balance policy) amount;
  Ok (set_collateral policy new_balance (epoch ctx),
      mkCollateralAdded (id policy) (owner policy) amount new_balance).

(** The updated policy, the coin returned to the owner and the event. *)
Definition remove_collateral (policy : Policy) (amount : N)
    (ctx : TxContext) : result (Policy * Coin * CollateralRemoved) :=
  _ ← assert (bool_decide (owner policy = sender ctx)) 0;
  let current_balance := collateral_balance policy in
  excess ← sub current_balance (margin_requirement policy);
  _ ← assert (amount <=? excess) 0;
  '(new_balance, coin_to_return) ←
    coin_take (collateral_balance policy) amount;
  Ok (set_collateral policy new_balance (epoch ctx),
      coin_to_return,
      mkCollateralRemoved (id policy) (owner policy) amount new_balance).

Definition terminate_policy (registry : PolicyRegistry) (policy : Policy)
    (ctx : TxContext)
    : result (PolicyRegistry * Policy * Coin * PolicyTerminated) :=
  _ ← assert (bool_decide (owner policy = sender ctx)) 0;
  _ ← assert (active policy) 1;
  let balance_amount := collateral_balance policy in
  '(new_balance, coin_to_return) ←
    coin_take (collateral_balance policy) balance_amount;
  let policy :=
    set_terminated (set_collateral policy new_balance (last_updated policy))
      (epoch ctx) in
  total_coverage ← sub (total_coverage registry) (coverage_amount policy);
  Ok (mkPolicyRegistry (policies registry) (policies_by_owner registry)
        (policies_by_location registry) (policies_by_peril registry)
        (total_policies registry) total_coverage,
      policy,
      coin_to_return,
      mkPolicyTerminated (id policy) (owner policy) "User terminated").

(** The updated policy and the payment amount; the payment itself is left
    to the caller. *)
Definition process_funding_payment (policy : Policy) (rate : N)
    (direction : bool) (ctx : TxContext) : result (Policy * N) :=
  _ ← assert (active policy) 0;
  x ← mul64 (coverage_amount policy) rate;
  payment_amount ← div x 10000;
  if direction then
    _ ← assert (payment_amount <=? collateral_balance policy) 1;
    paid ← add64 (funding_rate_paid policy) payment_amount;
    Ok (set_funding policy paid (funding_rate_received policy),
        payment_amount)
  else
    received ← add64 (funding_rate_received policy) payment_amount;
    Ok (set_funding policy (funding_rate_paid policy) received,
        payment_amount).

Definition is_undercollateralized (policy : Policy) : bool :=
  collateral_balance policy <? margin_requirement policy.

Definition get_total_insured_value (registry : PolicyRegistry) : N :=
  total_coverage registry.

Definition get_policy_details (policy : Policy)
    : address * string * string * N * N * N * bool :=
  (owner policy, location policy, peril_type policy, coverage_amount policy,
   trigger_threshold policy, collateral_balance policy, active policy).

(** Modelled from the spec: [get_trigger_operator] is called by the claim
    processor but is missing from the module source.  The policy's trigger
    operator is the field the policy was created with (0: less than,
    1: greater than, 2: equal to). *)
Definition get_trigger_operator (policy : Policy) : N :=
  trigger_operator policy.

End policy_manager_enhanced.

(** ** amoca::oracle_aggregator *)

Module oracle_aggregator.

Record AggregatedData : Type := mkAggregatedData {
  id : ID;
  location : string;
  data_type : string;
  value : N;                 (* aggregated value *)
  timestamp : N;
  sources_count : N;
}.

Record DataReceived : Type := mkDataReceived {
  dr_location : string;
  dr_data_type : string;
  dr_value : N;
  dr_source : address;
}.

Record DataAggregated : Type := mkDataAggregated {
  da_location : string;
  da_data_type : string;
  da_value : N;
  da_sources_count : N;
}.

Record OracleRegistry : Type := mkOracleRegistry {
  authorized_oracles : list address;
}.

Definition submit_data (registry : OracleRegistry)
    (location data_type : string) (value : N) (ctx : TxContext)
    : result (DataReceived * TxContext) :=
  let sender := sender ctx in
  _ ← assert (bool_decide (sender ∈ authorized_oracles registry)) 0;
  let '(_, ctx) := object_new ctx in
  Ok (mkDataReceived location data_type value sender, ctx).

Definition sum_step (values : list N) (i : N) (sum : N) : result N :=
  x ← borrow values i;
  add64 sum x.

(** The shared aggregate and the event. *)
Definition aggregate_data (location data_type : string) (values : list N)
    (sources : list address) (ctx : TxContext)
    : result (AggregatedData * DataAggregated * TxContext) :=
  let values_len := vector_length values in
  _ ← assert (0 <? values_len) 0;
  _ ← assert (values_len =? vector_length sources) 1;
  (* Simple aggregation: take the average *)
  sum ← while_lt 0 values_len (sum_step values) 0;
  avg_value ← div sum values_len;
  let '(id, ctx) := object_new ctx in
  location_str ← utf8 location;
  data_type_str ← utf8 data_type;
  let aggregated_data :=
    mkAggregatedData id location_str data_type_str avg_value (epoch ctx)
      values_len in
  (* the event converts the two names once more *)
  event_location ← utf8 location;
  event_data_type ← utf8 data_type;
  Ok (aggregated_data,
      mkDataAggregated event_location event_data_type avg_value values_len,
      ctx).

End oracle_aggregator.

(** ** amoca::switchboard_oracle *)

Module switchboard_oracle.

Record SwitchboardFeed : Type := mkSwitchboardFeed {
  feed_id : ID;
  authority : address;
  data : list N;               (* vector<u8> *)
  latest_value : N;
  latest_timestamp : N;
  update_interval : N;
}.

Record OracleFeedRegistry : Type := mkOracleFeedRegistry {
  feeds : gmap string ID;               (* feed name -> feed *)
  feed_authorities : gmap ID address;
  feed_types : gmap ID string;
  feed_locations : gmap ID string;
}.

Record AggregatedData : Type := mkAggregatedData {
  id : ID;
  location : string;
  data_type : string;
  value : N;
  timestamp : N;
  confidence : N;              (* 10000 = most confident *)
  num_sources : N;
  sources : list ID;
}.

Record FeedRegistered : Type := mkFeedRegistered {
  fr_feed_id : ID;
  fr_feed_name : string;
  fr_authority : address;
  fr_data_type : string;
  fr_location : string;
}.

Record FeedUpdated : Type := mkFeedUpdated {
  fu_feed_id : ID;
  fu_new_value : N;
  fu_timestamp : N;
}.

Record DataAggregated : Type := mkDataAggregated {
  da_aggregation_id : ID;
  da_location : string;
  da_data_type : string;
  da_value : N;
  da_timestamp : N;
  da_num_sources : N;
}.

Definition init (ctx : TxContext) : OracleFeedRegistry * TxContext :=
  let '(_, ctx) := object_new ctx in
  (mkOracleFeedRegistry ∅ ∅ ∅ ∅, ctx).

Definition register_feed (registry : OracleFeedRegistry)
    (feed_name data_type location : string) (update_interval : N)
    (ctx : TxContext)
    : result (OracleFeedRegistry * SwitchboardFeed * FeedRegistered
              * TxContext) :=
  feed_name_str ← utf8 feed_name;
  data_type_str ← utf8 data_type;
  location_str ← utf8 location;
  let sender := sender ctx in
  let '(feed_id, ctx) := object_new ctx in
  let feed := mkSwitchboardFeed feed_id sender [] 0 0 update_interval in
  feeds ← table_add (feeds registry) feed_name_str feed_id;
  authorities ← table_add (feed_authorities registry) feed_id sender;
  types ← table_add (feed_types registry) feed_id data_type_str;
  locations ← table_add (feed_locations registry) feed_id location_str;
  Ok (mkOracleFeedRegistry feeds authorities types locations,
      feed,
      mkFeedRegistered feed_id feed_name_str sender data_type_str
        location_str,
      ctx).

Definition update_feed (registry : OracleFeedRegistry)
    (feed : SwitchboardFeed) (new_value : N) (new_data : list N)
    (ctx : TxContext) : result (SwitchboardFeed * FeedUpdated) :=
  _ ← assert (bool_decide (authority feed = sender ctx)) 0;
  Ok (mkSwitchboardFeed (feed_id feed) (authority feed) new_data new_value
        (epoch ctx) (update_interval feed),
      mkFeedUpdated (feed_id feed) new_value (epoch ctx)).

(** One round of the loop that checks that a feed is registered for the
    requested data type and location. *)
Definition verify_step (registry : OracleFeedRegistry)
    (location_str data_type_str : string) (feed_ids : list ID) (i : N)
    (_ : unit) : result unit :=
  feed_id ← borrow feed_ids i;
  _ ← assert (table_contains (feed_authorities registry) feed_id) 3;
  ty ← table_borrow (feed_types registry) feed_id;
  _ ← assert (bool_decide (ty = data_type_str)) 4;
  loc ← table_borrow (feed_locations registry) feed_id;
  _ ← assert (bool_decide (loc = location_str)) 5;
  Ok tt.

(** Body of the inner loop of the bubble sort: swap [values[j]] and
    [values[j + 1]] when they are out of order. *)
Definition swap_step (j : N) (values : list N) : result (list N) :=
  a ← borrow values j;
  j1 ← add64 j 1;
  b ← borrow values j1;
  if b <? a then
    temp ← borrow values j;
    j1 ← add64 j 1;
    x ← borrow values j1;
    values ← borrow_mut_set values j x;
    j1 ← add64 j 1;
    borrow_mut_set values j1 temp
  else Ok values.

(** Body of the outer loop: one pass over [values[0 .. n - i - 1]]. *)
Definition pass_step (n : N) (i : N) (values : list N)
    : result (list N) :=
  x ← sub n i;
  bound ← sub x 1;
  while_lt 0 bound swap_step values.

Definition bubble_sort (values : list N) : result (list N) :=
  let n := vector_length values in
  while_lt 0 n (pass_step n) values.

(** The median of a sorted vector. *)
Definition median_value (values : list N) : result N :=
  let n := vector_length values in
  r ← rem n 2;
  if r =? 0 then
    h ← div n 2;
    i ← sub h 1;
    a ← borrow values i;
    h ← div n 2;
    b ← borrow values h;
    s ← add64 a b;
    div s 2
  else
    h ← div n 2;
    borrow values h.

Definition deviation_step (values : list N) (median : N) (i : N)
    (total_deviation : N) : result N :=
  value ← borrow values i;
  deviation ←
    (if median <? value then sub value median else sub median value);
  add64 total_deviation deviation.

Definition calculate_confidence (values : list N) (median : N) : result N :=
  let n := vector_length values in
  if n <=? 1 then Ok 10000     (* max confidence if only one source *)
  else
    total_deviation ← while_lt 0 n (deviation_step values median) 0;
    avg_deviation ← div total_deviation n;
    if avg_deviation =? 0 then Ok 10000            (* perfect agreement *)
    else if median =? 0 then Ok 5000               (* avoid division by zero *)
    else
      x ← mul64 avg_deviation 10000;
      deviation_percentage ← div x median;
      if 10000 <=? deviation_percentage then Ok 1000   (* minimum confidence *)
      else sub 10000 deviation_percentage.

(** The shared aggregate and the event. *)
Definition aggregate_data (registry : OracleFeedRegistry)
    (location data_type : string) (feed_ids : list ID)
    (feed_values feed_timestamps : list N) (ctx : TxContext)
    : result (AggregatedData * DataAggregated * TxContext) :=
  let num_feeds := vector_length feed_ids in
  _ ← assert (0 <? num_feeds) 0;
  _ ← assert (num_feeds =? vector_length feed_values) 1;
  _ ← assert (num_feeds =? vector_length feed_timestamps) 2;
  _ ← while_lt 0 num_feeds (verify_step registry location data_type feed_ids)
        tt;
  values ← bubble_sort feed_values;
  median_value ← median_value values;
  let '(id, ctx) := object_new ctx in
  confidence ← calculate_confidence values median_value;
  Ok (mkAggregatedData id location data_type median_value (epoch ctx)
        confidence num_feeds feed_ids,
      mkDataAggregated id location data_type median_value (epoch ctx)
        num_feeds,
      ctx).

Definition get_feed_value (feed : SwitchboardFeed) : N * N :=
  (latest_value feed, latest_timestamp feed).

Definition get_aggregated_data (data : AggregatedData)
    : string * string * N * N * N :=
  (location data, data_type data, value data, timestamp data,
   confidence data).

End switchboard_oracle.

(** ** amoca::switchboard_oracle_integration (the aggregate record) *)

Module switchboard_oracle_integration.

Record AggregatedData : Type := mkAggregatedData {
  id : ID;
  location : string;
  data_type : string;
  value : N;                   (* u128 *)
  decimal_places : N;          (* u8 *)
  timestamp : N;
  min_timestamp : N;
  max_timestamp : N;
  mean : N;                    (* u128 *)
  stdev : N;                   (* u128 *)
  min_value : N;               (* u128 *)
  max_value : N;               (* u128 *)
  sources_count : N;
}.

Definition get_aggregated_data_details (data : AggregatedData)
    : string * string * N * N * N :=
  (location data, data_type data, value data, timestamp data,
   sources_count data).

End switchboard_oracle_integration.

(** ** switchboard::aggregator and switchboard::decimal

    The external Switchboard package, reduced to the accessors that the
    claim processor reads. *)

Module switchboard.

Record Decimal : Type := mkDecimal {
  decimal_value : N;           (* u128 *)
  decimal_places : N;          (* u8 *)
  decimal_neg : bool;
}.

Record Aggregator : Type := mkAggregator {
  aggregator_id : ID;
  current_result : Decimal;
}.

End switchboard.

(** ** amoca::claim_processor *)

Module claim_processor.

Record Claim : Type := mkClaim {
  id : ID;
  policy_id : ID;
  owner : address;
  trigger_value : N;
  actual_value : N;
  payout_amount : N;
  processed_at : N;
  status : N;                  (* u8; 0: Pending, 1: Approved, 2: Rejected *)
}.

Record ClaimProcessed : Type := mkClaimProcessed {
  cp_claim_id : ID;
  cp_policy_id : ID;
  cp_owner : address;
  cp_payout_amount : N;
  cp_status : N;
}.

(** What a claim transaction leaves behind: the pool, the claim record
    transferred to the policy owner, the coin paid out (if any), the event
    and the transaction context. *)
Definition outcome : Type :=
  liquidity_pool.LiquidityPool * Claim * option (Coin * address)
  * ClaimProcessed * TxContext.

Definition process_claim (policy : policy_manager.Policy)
    (oracle_data : oracle_aggregator.AggregatedData)
    (pool : liquidity_pool.LiquidityPool) (ctx : TxContext)
    : result outcome :=
  _ ← assert (bool_decide (policy_manager.location policy
                           = oracle_aggregator.location oracle_data)) 0;
  _ ← assert (bool_decide (policy_manager.peril_type policy
                           = oracle_aggregator.data_type oracle_data)) 1;
  (* lower values are assumed to be worse (e.g. rainfall) *)
  let trigger_met :=
    oracle_aggregator.value oracle_data
      <=? policy_manager.trigger_threshold policy in
  let status := if trigger_met then 1 else 2 in
  let payout_amount :=
    if trigger_met then policy_manager.coverage_amount policy else 0 in
  let '(claim_id, ctx) := object_new ctx in
  let claim :=
    mkClaim claim_id (policy_manager.id policy) (policy_manager.owner policy)
      (policy_manager.trigger_threshold policy)
      (oracle_aggregator.value oracle_data) payout_amount (epoch ctx)
      status in
  '(pool, paid) ←
    (if status =? 1 then
       '(pool, coin) ←
         liquidity_pool.process_claim_payout pool
           (policy_manager.owner policy) payout_amount ctx;
       Ok (pool, Some coin)
     else Ok (pool, None));
  Ok (pool, claim, paid,
      mkClaimProcessed claim_id (policy_manager.id policy)
        (policy_manager.owner policy) payout_amount status,
      ctx).

End claim_processor.

(** ** amoca::claim_processor_updated *)

Module claim_processor_updated.

Record Claim : Type := mkClaim {
  id : ID;
  policy_id : ID;
  owner : address;
  trigger_value : N;
  actual_value : N;            (* u128 *)
  decimal_places : N;          (* u8 *)
  payout_amount : N;
  processed_at : N;
  status : N;                  (* u8; 0: Pending, 1: Approved, 2: Rejected *)
  oracle_sources : N;
}.

Record ClaimProcessed : Type := mkClaimProcessed {
  cp_claim_id : ID;
  cp_policy_id : ID;
  cp_owner : address;
  cp_payout_amount : N;
  cp_status : N;
}.

Definition outcome : Type :=
  liquidity_pool.LiquidityPool * Claim * option (Coin * address)
  * ClaimProcessed * TxContext.

Definition process_claim_with_aggregated_data
    (policy : policy_manager_enhanced.Policy)
    (oracle_data : switchboard_oracle_integration.AggregatedData)
    (pool : liquidity_pool.LiquidityPool) (ctx : TxContext)
    : result outcome :=
  let '(owner, location, peril_type, coverage_amount, trigger_threshold, _,
        active) := policy_manager_enhanced.get_policy_details policy in
  _ ← assert active 0;
  let '(oracle_location, oracle_data_type, oracle_value, _, sources_count) :=
    switchboard_oracle_integration.get_aggregated_data_details oracle_data in
  _ ← assert (bool_decide (location = oracle_location)) 1;
  _ ← assert (bool_decide (peril_type = oracle_data_type)) 2;
  oracle_value_u64 ← as_u64 oracle_value;
  let trigger_operator :=
    policy_manager_enhanced.get_trigger_operator policy in
  trigger_met ←
    (if trigger_operator =? 0 then
       Ok (oracle_value_u64 <=? trigger_threshold)
     else if trigger_operator =? 1 then
       Ok (trigger_threshold <=? oracle_value_u64)
     else if trigger_operator =? 2 then
       diff ←
         (if trigger_threshold <? oracle_value_u64
          then sub oracle_value_u64 trigger_threshold
          else sub trigger_threshold oracle_value_u64);
       tolerance ← div trigger_threshold 100;
       Ok (diff <=? tolerance)
     else Ok false);
  let status := if trigger_met : bool then 1 else 2 in
  let payout_amount := if trigger_met then coverage_amount else 0 in
  let '(claim_id, ctx) := object_new ctx in
  let claim :=
    mkClaim claim_id (policy_manager_enhanced.id policy) owner
      trigger_threshold oracle_value 8 payout_amount (epoch ctx) status
      sources_count in
  '(pool, paid) ←
    (if status =? 1 then
       '(pool, coin) ←
         liquidity_pool.process_claim_payout pool owner payout_amount ctx;
       Ok (pool, Some coin)
     else Ok (pool, None));
  Ok (pool, claim, paid,
      mkClaimProcessed claim_id (policy_manager_enhanced.id policy) owner
        payout_amount status,
      ctx).

Definition process_claim_with_aggregator
    (policy : policy_manager_enhanced.Policy)
    (aggregator : switchboard.Aggregator)
    (pool : liquidity_pool.LiquidityPool) (ctx : TxContext)
    : result outcome :=
  let '(owner, location, peril_type, coverage_amount, trigger_threshold, _,
        active) := policy_manager_enhanced.get_policy_details policy in
  _ ← assert active 0;
  let result := switchboard.current_result aggregator in
  let oracle_value := switchboard.decimal_value result in
  let decimal_places := switchboard.decimal_places result in
  oracle_value_u64 ← as_u64 oracle_value;
  let trigger_operator :=
    policy_manager_enhanced.get_trigger_operator policy in
  trigger_met ←
    (if trigger_operator =? 0 then
       Ok (oracle_value_u64 <=? trigger_threshold)
     else if trigger_operator =? 1 then
       Ok (trigger_threshold <=? oracle_value_u64)
     else if trigger_operator =? 2 then
       diff ←
         (if trigger_threshold <? oracle_value_u64
          then sub oracle_value_u64 trigger_threshold
          else sub trigger_threshold oracle_value_u64);
       tolerance ← div trigger_threshold 100;
       Ok (diff <=? tolerance)
     else Ok false);
  let status := if trigger_met : bool then 1 else 2 in
  let payout_amount := if trigger_met then coverage_amount else 0 in
  let '(claim_id, ctx) := object_new ctx in
  let claim :=
    mkClaim claim_id (policy_manager_enhanced.id policy) owner
      trigger_threshold oracle_value decimal_places payout_amount
      (epoch ctx) status 1 in
  '(pool, paid) ←
    (if status =? 1 then
       '(pool, coin) ←
         liquidity_pool.process_claim_payout pool owner payout_amount ctx;
       Ok (pool, Some coin)
     else Ok (pool, None));
  Ok (pool, claim, paid,
      mkClaimProcessed claim_id (policy_manager_enhanced.id policy) owner
        payout_amount status,
      ctx).

Definition get_claim_details (claim : Claim)
    : ID * address * N * N * N * N * N :=
  (policy_id claim, owner claim, trigger_value claim, actual_value claim,
   payout_amount claim, status claim, oracle_sources claim).

End claim_processor_updated.

(** ** Specification-level notions *)

(** The trigger operators and the conditions the specification attaches to
    them. *)
Inductive TriggerOperator : Type :=
| LESS_THAN
| GREATER_THAN
| EQUAL_WITHIN_TOLERANCE.

Definition operator_of_code (code : N) : option TriggerOperator :=
  match code with
  | 0 => Some LESS_THAN
  | 1 => Some GREATER_THAN
  | 2 => Some EQUAL_WITHIN_TOLERANCE
  | _ => None
  end.

Definition trigger_holds (operator : TriggerOperator)
    (observed threshold : N) : Prop :=
  match operator with
  | LESS_THAN => observed ≤ threshold
  | GREATER_THAN => threshold ≤ observed
  | EQUAL_WITHIN_TOLERANCE =>
      (Z.abs (Z.of_N observed - Z.of_N threshold)
       ≤ Z.of_N (threshold / 100))%Z
  end.

(** The condition of a policy on an observed value; a policy whose operator
    code is none of the three has no condition that could hold. *)
Definition trigger_condition (code observed threshold : N) : Prop :=
  ∃ operator,
    operator_of_code code = Some operator ∧
    trigger_holds operator observed threshold.

Definition APPROVED : N := 1.
Definition REJECTED : N := 2.

(** The effects of [process_claim_with_aggregated_data] on the objects it
    touches: the shared pool, the claim records and coins owned by
    addresses, and the event log.  The Move runtime commits the effects of
    an entry function that returns and discards those of one that aborts. *)
Record Ledger : Type := mkLedger {
  ledger_pool : liquidity_pool.LiquidityPool;
  ledger_claims : list (claim_processor_updated.Claim * address);
  ledger_coins : list (Coin * address);
  ledger_events : list claim_processor_updated.ClaimProcessed;
}.

Definition settle_claim (ledger : Ledger)
    (policy : policy_manager_enhanced.Policy)
    (oracle_data : switchboard_oracle_integration.AggregatedData)
    (ctx : TxContext) : Ledger * option abort :=
  match
    claim_processor_updated.process_claim_with_aggregated_data policy
      oracle_data (ledger_pool ledger) ctx
  with
  | Ok (pool, claim, paid, event, _) =>
      (mkLedger pool
         ((claim, claim_processor_updated.owner claim)
            :: ledger_claims ledger)
         (option_list paid ++ ledger_coins ledger)
         (event :: ledger_events ledger),
       None)
  | Err e => (ledger, Some e)
  end.

(** The shares the specification issues for a deposit of [amount]. *)
Definition shares_for_deposit (pool : liquidity_pool.LiquidityPool)
    (amount : N) : N :=
  if liquidity_pool.total_shares pool =? 0 then amount
  else amount * liquidity_pool.total_shares pool
       / liquidity_pool.total_liquidity pool.

(** The risk model that [create_risk_model] installs for a 5% base rate. *)
Definition default_risk_model : risk_model.RiskModel :=
  risk_model.mkRiskModel 0 "amoca" "1" 500
    {[ "east-africa"%string := 120; "southeast-asia"%string := 150;
       "central-america"%string := 130; "south-pacific"%string := 140 ]}
    {[ "drought"%string := 130; "flood"%string := 160;
       "heat"%string := 120; "wind"%string := 140 ]}
    {[ 1 := 100; 2 := 100; 3 := 110; 4 := 120; 5 := 130; 6 := 140;
       7 := 150; 8 := 160; 9 := 150; 10 := 130; 11 := 110; 12 := 100 ]}
    {[ 1000 := 120; 5000 := 110; 10000 := 100; 50000 := 90;
       100000 := 85 ]}
    3 7.

(** The coverage tier that the scan of [calculate_premium] selects. *)
Definition nearest_tier (coverage_amount : N) : N :=
  match
    while_lt 0 (vector_length risk_model.coverage_tiers)
      (risk_model.closest_tier_step coverage_amount) (1000000000, 10000)
  with
  | Ok (_, tier) => tier
  | Err _ => 10000
  end.

(** The operations that change a policy after its creation, and the
    life of a policy as a sequence of transactions.  A transaction that
    aborts leaves the policy as it was. *)
Inductive policy_call : Type :=
| AddCollateral (additional_collateral : Coin)
| RemoveCollateral (amount : N)
| FundingPayment (rate : N) (direction : bool).

Definition call_policy (policy : policy_manager_enhanced.Policy)
    (call : policy_call) (ctx : TxContext)
    : result policy_manager_enhanced.Policy :=
  match call with
  | AddCollateral coin =>
      '(policy, _) ← policy_manager_enhanced.add_collateral policy coin ctx;
      Ok policy
  | RemoveCollateral amount =>
      '(policy, _, _) ←
        policy_manager_enhanced.remove_collateral policy amount ctx;
      Ok policy
  | FundingPayment rate direction =>
      '(policy, _) ←
        policy_manager_enhanced.process_funding_payment policy rate
          direction ctx;
      Ok policy
  end.

Definition commit_call (policy : policy_manager_enhanced.Policy)
    (tx : policy_call * TxContext) : policy_manager_enhanced.Policy :=
  match call_policy policy tx.1 tx.2 with
  | Ok policy' => policy'
  | Err _ => policy
  end.

Definition run_calls (policy : policy_manager_enhanced.Policy)
    (txs : list (policy_call * TxContext))
    : policy_manager_enhanced.Policy :=
  foldl commit_call policy txs.

Definition collateralized (policy : policy_manager_enhanced.Policy) : Prop :=
  policy_manager_enhanced.margin_requirement policy
  ≤ policy_manager_enhanced.collateral_balance policy.

(** The risk parameters that [init] shares. *)
Definition default_risk_parameters : policy_manager_enhanced.RiskParameters :=
  policy_manager_enhanced.mkRiskParameters
    {[ "east-africa"%string := 1200; "southeast-asia"%string := 1500;
       "central-america"%string := 1300; "south-pacific"%string := 1400 ]}
    {[ "drought"%string := 1300; "flood"%string := 1600;
       "heat"%string := 1200; "wind"%string := 1400 ]}
    1000.

(** The sum of a vector and the distance between two readings, over the
    natural numbers. *)
Definition sum_N (values : list N) : N := foldr N.add 0 values.

Definition abs_diff (a b : N) : N := if b <? a then a - b else b - a.

(** The median as the specification words it: with the values sorted, the
    middle value when the count is odd and the average of the two middle
    values, rounded down, when it is even. *)
Definition median_of_sorted (sorted : list N) : N :=
  let n := length sorted in
  if Nat.even n
  then (nth (n / 2 - 1)%nat sorted 0 + nth (n / 2)%nat sorted 0) / 2
  else nth (n / 2)%nat sorted 0.

Definition is_median (values : list N) (m : N) : Prop :=
  ∃ sorted,
    sorted ≡ₚ values ∧ Sorted N.le sorted ∧ m = median_of_sorted sorted.

(** A loop over the elements of a vector, as a fold that stops at the first
    abort. *)
Fixpoint fold_result {A S : Type} (g : A → S → result S) (l : list A)
    (s : S) : result S :=
  match l with
  | [] => Ok s
  | x :: l => s' ← g x s; fold_result g l s'
  end.

(** One pass of the bubble sort over [a :: t]: the elements left behind, in
    order, and the element carried to the end. *)
Fixpoint bubble (a : N) (t : list N) : list N * N :=
  match t with
  | [] => ([], a)
  | b :: t' =>
      if b <? a then let '(l, m) := bubble a t' in (b :: l, m)
      else let '(l, m) := bubble b t' in (a :: l, m)
  end.

(** [k] passes, each over the part that the passes before it left
    unsettled. *)
Fixpoint bubble_passes (k : nat) (w : list N) : list N :=
  match k, w with
  | S k', a :: t => let '(l, m) := bubble a t in bubble_passes k' l ++ [m]
  | _, _ => w
  end.

(** A feed that the registry knows for a location and data type. *)
Definition feed_registered (registry : switchboard_oracle.OracleFeedRegistry)
    (location data_type : string) (feed_id : ID) : Prop :=
  is_Some (switchboard_oracle.feed_authorities registry !! feed_id) ∧
  switchboard_oracle.feed_types registry !! feed_id = Some data_type ∧
  switchboard_oracle.feed_locations registry !! feed_id = Some location.

(** A registry with three rainfall feeds for one location. *)
Definition rainfall_registry : switchboard_oracle.OracleFeedRegistry :=
  switchboard_oracle.mkOracleFeedRegistry
    {[ "station-a"%string := 1; "station-b"%string := 2;
       "station-c"%string := 3 ]}
    {[ 1 := 41; 2 := 42; 3 := 43 ]}
    {[ 1 := "rainfall"%string; 2 := "rainfall"%string;
       3 := "rainfall"%string ]}
    {[ 1 := "east-africa"%string; 2 := "east-africa"%string;
       3 := "east-africa"%string ]}.

(** The policy of scenarios B, C and D of the specification (threshold 25,
    LESS_THAN, coverage 10000) and an aggregate for it. *)
Definition scenario_policy : policy_manager_enhanced.Policy :=
  policy_manager_enhanced.mkPolicy 11 7 "east-africa" [] "rainfall" ""
    10000 25 0 3200 3200 0 0 true 0 0.

Definition scenario_aggregate (observed : N)
    : switchboard_oracle_integration.AggregatedData :=
  switchboard_oracle_integration.mkAggregatedData 12 "east-africa"
    "rainfall" observed 8 1 1 1 observed 0 observed observed 3.

(** Short names for the modules of the updated claim path. *)
Module pme := policy_manager_enhanced.
Module soi := switchboard_oracle_integration.
Module cpu := claim_processor_updated.

(** ** Notions for the pool ledger *)

(** The shares that the ledger of a pool records, summed over the
    providers. *)
Definition ledger_total (ledger : gmap address N) : N :=
  map_fold (λ _ held total, held + total) 0 ledger.

Definition shares_accounted (pool : liquidity_pool.LiquidityPool) : Prop :=
  ledger_total (liquidity_pool.lp_shares pool)
  = liquidity_pool.total_shares pool.

(** Deposits and withdrawals as transactions on the shared pool. *)
Inductive pool_call : Type :=
| Deposit (coin : Coin)
| Withdraw (lp_token : liquidity_pool.LPToken).

Definition commit_pool_call (pool : liquidity_pool.LiquidityPool)
    (tx : pool_call * TxContext) : liquidity_pool.LiquidityPool :=
  match tx.1 with
  | Deposit coin =>
      match liquidity_pool.add_liquidity pool coin tx.2 with
      | Ok (pool', _, _, _) => pool'
      | Err _ => pool
      end
  | Withdraw lp_token =>
      match liquidity_pool.remove_liquidity pool lp_token tx.2 with
      | Ok (pool', _, _) => pool'
      | Err _ => pool
      end
  end.

Definition run_pool_calls (pool : liquidity_pool.LiquidityPool)
    (txs : list (pool_call * TxContext)) : liquidity_pool.LiquidityPool :=
  foldl commit_pool_call pool txs.

(** ** Notions for the policy registry *)

(** The policies that exist as objects, by identifier, next to the shared
    registry.  A transaction on a policy takes the object with that
    identifier and, unless it aborts, puts the updated object back. *)
Record PolicyBook : Type := mkPolicyBook {
  book_registry : policy_manager_enhanced.PolicyRegistry;
  book_policies : gmap ID policy_manager_enhanced.Policy;
}.

Inductive registry_call : Type :=
| CreatePolicy (risk_params : policy_manager_enhanced.RiskParameters)
    (location : string) (location_coordinates : list N)
    (peril_type peril_details : string)
    (coverage_amount trigger_threshold trigger_operator : N)
    (collateral : Coin)
| TerminatePolicy (policy_id : ID)
| UpdatePolicy (policy_id : ID) (call : policy_call).

Definition commit_registry_call (book : PolicyBook)
    (tx : registry_call * TxContext) : PolicyBook :=
  match tx.1 with
  | CreatePolicy risk_params location coordinates peril details coverage
      threshold operator collateral =>
      match
        policy_manager_enhanced.create_policy (book_registry book)
          risk_params location coordinates peril details coverage threshold
          operator collateral tx.2
      with
      | Ok (registry, policy, _, _) =>
          mkPolicyBook registry
            (<[policy_manager_enhanced.id policy := policy]>
               (book_policies book))
      | Err _ => book
      end
  | TerminatePolicy policy_id =>
      match book_policies book !! policy_id with
      | Some policy =>
          match
            policy_manager_enhanced.terminate_policy (book_registry book)
              policy tx.2
          with
          | Ok (registry, policy, _, _) =>
              mkPolicyBook registry
                (<[policy_id := policy]> (book_policies book))
          | Err _ => book
          end
      | None => book
      end
  | UpdatePolicy policy_id call =>
      match book_policies book !! policy_id with
      | Some policy =>
          mkPolicyBook (book_registry book)
            (<[policy_id := commit_call policy (call, tx.2)]>
               (book_policies book))
      | None => book
      end
  end.

Definition run_registry_calls (book : PolicyBook)
    (txs : list (registry_call * TxContext)) : PolicyBook :=
  foldl commit_registry_call book txs.

(** The coverage that a policy insures: nothing once it is terminated. *)
Definition insured (policy : policy_manager_enhanced.Policy) : N :=
  if policy_manager_enhanced.active policy
  then policy_manager_enhanced.coverage_amount policy else 0.

Definition insured_total (policies : gmap ID policy_manager_enhanced.Policy)
    : N :=
  map_fold (λ _ policy total, insured policy + total) 0 policies.

(** An identifier listed under a key of one of the registry's indexes. *)
Definition listed `{Countable K} (index : gmap K (list ID)) (key : K)
    (policy_id : ID) : Prop :=
  ∃ entries, index !! key = Some entries ∧ policy_id ∈ entries.

(** The registry agrees with the policies that exist. *)
Record registry_accounted (book : PolicyBook) : Prop := {
  accounted_owner : ∀ policy_id policy,
    book_policies book !! policy_id = Some policy →
    policy_manager_enhanced.id policy = policy_id ∧
    policy_manager_enhanced.policies (book_registry book) !! policy_id
      = Some (policy_manager_enhanced.owner policy);
  accounted_known : ∀ policy_id,
    is_Some (policy_manager_enhanced.policies (book_registry book)
               !! policy_id) →
    is_Some (book_policies book !! policy_id);
  accounted_listed : ∀ policy_id policy,
    book_policies book !! policy_id = Some policy →
    listed (policy_manager_enhanced.policies_by_owner (book_registry book))
      (policy_manager_enhanced.owner policy) policy_id ∧
    listed (policy_manager_enhanced.policies_by_location (book_registry book))
      (policy_manager_enhanced.location policy) policy_id ∧
    listed (policy_manager_enhanced.policies_by_peril (book_registry book))
      (policy_manager_enhanced.peril_type policy) policy_id;
  accounted_coverage :
    policy_manager_enhanced.total_coverage (book_registry book)
    = insured_total (book_policies book);
  accounted_count :
    policy_manager_enhanced.total_policies (book_registry book)
    = N.of_nat (size (book_policies book));
}.


(** The terms of a policy are fixed at its creation; the funding counters
    only grow. *)
Definition same_terms (policy policy' : pme.Policy) : Prop :=
  pme.id policy' = pme.id policy ∧
  pme.owner policy' = pme.owner policy ∧
  pme.location policy' = pme.location policy ∧
  pme.location_coordinates policy' = pme.location_coordinates policy ∧
  pme.peril_type policy' = pme.peril_type policy ∧
  pme.peril_details policy' = pme.peril_details policy ∧
  pme.coverage_amount policy' = pme.coverage_amount policy ∧
  pme.trigger_threshold policy' = pme.trigger_threshold policy ∧
  pme.trigger_operator policy' = pme.trigger_operator policy ∧
  pme.margin_requirement policy' = pme.margin_requirement policy ∧
  pme.active policy' = pme.active policy ∧
  pme.created_at policy' = pme.created_at policy.

(** ** amoca::funding_rate *)

Module funding_rate.

Record FundingRate : Type := mkFundingRate {
  id : ID;
  rate : N;                    (* basis points *)
  direction : bool;            (* true: policyholders pay the providers *)
  calculated_at : N;
  valid_until : N;
}.

Record FundingRateUpdated : Type := mkFundingRateUpdated {
  fru_rate : N;
  fru_direction : bool;
  fru_calculated_at : N;
}.

(** Modelled from the spec: [liquidity_pool::get_total_liquidity] is called
    here but is missing from the pool module.  The specification computes
    the utilization from the pool's total liquidity, so the getter is the
    value of the pool's balance. *)
Definition get_total_liquidity (pool : liquidity_pool.LiquidityPool) : N :=
  liquidity_pool.total_liquidity pool.

(** The shared funding rate and the event. *)
Definition update_funding_rate (pool : liquidity_pool.LiquidityPool)
    (total_insured_value : N) (ctx : TxContext)
    : result (FundingRate * FundingRateUpdated * TxContext) :=
  let total_liquidity := get_total_liquidity pool in
  utilization ←
    (if total_liquidity =? 0 then Ok 10000   (* 100% if no liquidity *)
     else
       x ← mul64 total_insured_value 10000;
       div x total_liquidity);
  let target_utilization := 8000 in
  let base_rate := 50 in
  '(rate, direction) ←
    (if target_utilization <? utilization then
       (* high utilization: policyholders pay the providers *)
       x ← sub utilization target_utilization;
       x ← div x 100;
       rate ← add64 base_rate x;
       Ok (rate, true)
     else
       (* low utilization: the providers pay, or nobody does *)
       rate ←
         (if utilization <? 5000 then
            x ← sub target_utilization utilization;
            div x 1000
          else Ok 0);
       Ok (rate, false));
  let '(id, ctx) := object_new ctx in
  valid_until ← add64 (epoch ctx) 24;
  Ok (mkFundingRate id rate direction (epoch ctx) valid_until,
      mkFundingRateUpdated rate direction (epoch ctx),
      ctx).

End funding_rate.

(** The utilization of the pool that the funding rate is computed from, in
    basis points. *)
Definition utilization (pool : liquidity_pool.LiquidityPool)
    (total_insured_value : N) : N :=
  if liquidity_pool.total_liquidity pool =? 0 then 10000
  else total_insured_value * 10000 / liquidity_pool.total_liquidity pool.

(** ** switchboard::aggregator, as the oracle integration reads it

    The current result of an aggregator of the external Switchboard
    package, with the accessors that [switchboard_oracle_integration]
    uses. *)

Module aggregator.

Record CurrentResult : Type := mkCurrentResult {
  result : switchboard.Decimal;
  min_timestamp_ms : N;
  max_timestamp_ms : N;
  min_result : switchboard.Decimal;
  max_result : switchboard.Decimal;
  stdev : switchboard.Decimal;
  mean : switchboard.Decimal;
}.

Record Aggregator : Type := mkAggregator {
  id : ID;
  current_result : CurrentResult;
}.

End aggregator.

(** ** amoca::switchboard_oracle_integration (feeds and aggregation) *)

Module switchboard_feeds.

Record OracleFeedRegistry : Type := mkOracleFeedRegistry {
  feeds : gmap string ID;            (* feed name -> aggregator *)
  feed_types : gmap ID string;
  feed_locations : gmap ID string;
  feed_details : gmap ID string;
}.

Record FeedRegistered : Type := mkFeedRegistered {
  fr_feed_id : ID;
  fr_feed_name : string;
  fr_data_type : string;
  fr_location : string;
}.

Record DataAggregated : Type := mkDataAggregated {
  da_aggregation_id : ID;
  da_location : string;
  da_data_type : string;
  da_value : N;                      (* u128 *)
  da_timestamp : N;
  da_sources_count : N;
}.

(** Checked arithmetic at [u128]. *)
Definition MAX_U128 : N := 340282366920938463463374607431768211455.
Definition add128 : N → N → result N := checked_add MAX_U128.
Definition mul128 : N → N → result N := checked_mul MAX_U128.

Definition init (ctx : TxContext) : OracleFeedRegistry * TxContext :=
  let '(_, ctx) := object_new ctx in
  (mkOracleFeedRegistry ∅ ∅ ∅ ∅, ctx).

Definition register_feed (registry : OracleFeedRegistry)
    (feed_name data_type location details : string)
    (aggregator : aggregator.Aggregator) (ctx : TxContext)
    : result (OracleFeedRegistry * FeedRegistered) :=
  let aggregator_id := aggregator.id aggregator in
  feeds ← table_add (feeds registry) feed_name aggregator_id;
  types ← table_add (feed_types registry) aggregator_id data_type;
  locations ← table_add (feed_locations registry) aggregator_id location;
  details ← table_add (feed_details registry) aggregator_id details;
  Ok (mkOracleFeedRegistry feeds types locations details,
      mkFeedRegistered aggregator_id feed_name data_type location).

(** The shared aggregate of a single aggregator and the event. *)
Definition read_aggregator_data (registry : OracleFeedRegistry)
    (aggregator : aggregator.Aggregator) (ctx : TxContext)
    : result (switchboard_oracle_integration.AggregatedData * DataAggregated
              * TxContext) :=
  let aggregator_id := aggregator.id aggregator in
  _ ← assert (table_contains (feed_types registry) aggregator_id) 0;
  let current_result := aggregator.current_result aggregator in
  let result := aggregator.result current_result in
  data_type ← table_borrow (feed_types registry) aggregator_id;
  location ← table_borrow (feed_locations registry) aggregator_id;
  let '(id, ctx) := object_new ctx in
  Ok (switchboard_oracle_integration.mkAggregatedData id location data_type
        (switchboard.decimal_value result)
        (switchboard.decimal_places result)
        (epoch ctx)
        (aggregator.min_timestamp_ms current_result)
        (aggregator.max_timestamp_ms current_result)
        (switchboard.decimal_value (aggregator.mean current_result))
        (switchboard.decimal_value (aggregator.stdev current_result))
        (switchboard.decimal_value (aggregator.min_result current_result))
        (switchboard.decimal_value (aggregator.max_result current_result))
        1,
      mkDataAggregated id location data_type
        (switchboard.decimal_value result) (epoch ctx) 1,
      ctx).

(** One round of the loop that checks an aggregator and collects its
    value and timestamps; the state is
    [(values, min_timestamps, max_timestamps)]. *)
Definition collect_step (registry : OracleFeedRegistry)
    (location_str data_type_str : string)
    (aggregators : list aggregator.Aggregator) (i : N)
    (st : list N * list N * list N) : result (list N * list N * list N) :=
  let '(values, min_timestamps, max_timestamps) := st in
  aggregator ← borrow aggregators i;
  let aggregator_id := aggregator.id aggregator in
  _ ← assert (table_contains (feed_types registry) aggregator_id) 1;
  ty ← table_borrow (feed_types registry) aggregator_id;
  _ ← assert (bool_decide (ty = data_type_str)) 2;
  loc ← table_borrow (feed_locations registry) aggregator_id;
  _ ← assert (bool_decide (loc = location_str)) 3;
  let current_result := aggregator.current_result aggregator in
  let result := aggregator.result current_result in
  Ok (values ++ [switchboard.decimal_value result],
      min_timestamps ++ [aggregator.min_timestamp_ms current_result],
      max_timestamps ++ [aggregator.max_timestamp_ms current_result]).

(** The bubble sort of the collected values: the loops are those of
    [switchboard_oracle::aggregate_data], on [u128] values. *)
Definition swap_step (j : N) (values : list N) : result (list N) :=
  a ← borrow values j;
  j1 ← add64 j 1;
  b ← borrow values j1;
  if b <? a then
    temp ← borrow values j;
    j1 ← add64 j 1;
    x ← borrow values j1;
    values ← borrow_mut_set values j x;
    j1 ← add64 j 1;
    borrow_mut_set values j1 temp
  else Ok values.

Definition pass_step (n : N) (i : N) (values : list N)
    : result (list N) :=
  x ← sub n i;
  bound ← sub x 1;
  while_lt 0 bound swap_step values.

Definition bubble_sort (values : list N) : result (list N) :=
  let n := vector_length values in
  while_lt 0 n (pass_step n) values.

Definition median_value (values : list N) : result N :=
  let n := vector_length values in
  r ← rem n 2;
  if r =? 0 then
    h ← div n 2;
    i ← sub h 1;
    a ← borrow values i;
    h ← div n 2;
    b ← borrow values h;
    s ← add128 a b;
    div s 2
  else
    h ← div n 2;
    borrow values h.

Definition sum_step (values : list N) (i : N) (sum : N) : result N :=
  x ← borrow values i;
  add128 sum x.

(** One round of the scan for the earliest and the latest timestamp; the
    state is [(min_timestamp, max_timestamp)]. *)
Definition timestamp_step (min_timestamps max_timestamps : list N) (i : N)
    (st : N * N) : result (N * N) :=
  let '(min_timestamp, max_timestamp) := st in
  current_min ← borrow min_timestamps i;
  current_max ← borrow max_timestamps i;
  let min_timestamp :=
    if current_min <? min_timestamp then current_min else min_timestamp in
  let max_timestamp :=
    if max_timestamp <? current_max then current_max else max_timestamp in
  Ok (min_timestamp, max_timestamp).

Definition variance_step (values : list N) (mean : N) (i : N)
    (variance_sum : N) : result N :=
  x ← borrow values i;
  diff ←
    (if mean <? x then x ← borrow values i; sub x mean
     else x ← borrow values i; sub mean x);
  square ← mul128 diff diff;
  add128 variance_sum square.

(** The shared aggregate and the event.  In
    [(variance_sum / n) ^ (1/2)] the operator [^] is Move's bitwise
    exclusive or and [1/2] is an integer division. *)
Definition aggregate_multiple_feeds (registry : OracleFeedRegistry)
    (aggregators : list aggregator.Aggregator)
    (location data_type : string) (ctx : TxContext)
    : result (switchboard_oracle_integration.AggregatedData * DataAggregated
              * TxContext) :=
  let num_feeds := vector_length aggregators in
  _ ← assert (0 <? num_feeds) 0;
  '(values, min_timestamps, max_timestamps) ←
    while_lt 0 num_feeds
      (collect_step registry location data_type aggregators) ([], [], []);
  let n := vector_length values in
  values ← bubble_sort values;
  median_value ← median_value values;
  sum ← while_lt 0 n (sum_step values) 0;
  mean ← div sum n;
  min_timestamp ← borrow min_timestamps 0;
  max_timestamp ← borrow max_timestamps 0;
  '(min_timestamp, max_timestamp) ←
    while_lt 1 (vector_length min_timestamps)
      (timestamp_step min_timestamps max_timestamps)
      (min_timestamp, max_timestamp);
  variance_sum ← while_lt 0 n (variance_step values mean) 0;
  x ← div variance_sum n;
  y ← div 1 2;
  let stdev := N.lxor x y in
  let '(id, ctx) := object_new ctx in
  min_value ← borrow values 0;
  last ← sub n 1;
  max_value ← borrow values last;
  Ok (switchboard_oracle_integration.mkAggregatedData id location data_type
        median_value 8 (epoch ctx) min_timestamp max_timestamp mean stdev
        min_value max_value n,
      mkDataAggregated id location data_type median_value (epoch ctx) n,
      ctx).

Definition get_latest_value (aggregator : aggregator.Aggregator)
    : N * N * bool :=
  let current_result := aggregator.current_result aggregator in
  let result := aggregator.result current_result in
  (switchboard.decimal_value result, switchboard.decimal_places result,
   switchboard.decimal_neg result).

End switchboard_feeds.

(** The readings and timestamps of a vector of aggregators. *)
Definition reading (aggregator : aggregator.Aggregator) : N :=
  switchboard.decimal_value
    (aggregator.result (aggregator.current_result aggregator)).

Definition earliest (aggregator : aggregator.Aggregator) : N :=
  aggregator.min_timestamp_ms (aggregator.current_result aggregator).

Definition latest (aggregator : aggregator.Aggregator) : N :=
  aggregator.max_timestamp_ms (aggregator.current_result aggregator).

(** An aggregator that the registry knows for a location and data type. *)
Definition aggregator_registered
    (registry : switchboard_feeds.OracleFeedRegistry)
    (location data_type : string) (aggregator : aggregator.Aggregator)
    : Prop :=
  switchboard_feeds.feed_types registry !! aggregator.id aggregator
    = Some data_type ∧
  switchboard_feeds.feed_locations registry !! aggregator.id aggregator
    = Some location.

(** A registry with two temperature feeds, and aggregators for them. *)
Definition temperature_registry : switchboard_feeds.OracleFeedRegistry :=
  switchboard_feeds.mkOracleFeedRegistry
    {[ "sensor-a"%string := 1; "sensor-b"%string := 2 ]}
    {[ 1 := "temperature"%string; 2 := "temperature"%string ]}
    {[ 1 := "south-pacific"%string; 2 := "south-pacific"%string ]}
    {[ 1 := ""%string; 2 := ""%string ]}.

Definition temperature_aggregator (feed_id value first_ms last_ms : N)
    : aggregator.Aggregator :=
  let decimal := switchboard.mkDecimal value 8 false in
  aggregator.mkAggregator feed_id
    (aggregator.mkCurrentResult decimal first_ms last_ms decimal decimal
       (switchboard.mkDecimal 0 8 false) decimal).

(** * Properties *)

(** ** Reasoning about the runtime *)

Section runtime_facts.
Context {A B : Type}.
Implicit Types (m : result A) (f : A → result B).

Lemma bind_Ok m f b :
  (m ≫= f) = Ok b ↔ ∃ a, m = Ok a ∧ f a = Ok b.
Proof.
  destruct m as [a|e]; unfold mbind, result_bind; split.
  - eauto.
  - by intros (a' & [= <-] & ?).
  - done.
  - by intros (? & ? & ?).
Qed.

Lemma bind_Err m f e :
  (m ≫= f) = Err e ↔ m = Err e ∨ ∃ a, m = Ok a ∧ f a = Err e.
Proof.
  destruct m as [a|e']; unfold mbind, result_bind; split.
  - intros Hf. right. by exists a.
  - by intros [?|(a' & [= <-] & ?)].
  - intros [= ->]. by left.
  - by intros [[= ->]|(? & ? & ?)].
Qed.
End runtime_facts.

Lemma assert_Ok c code u : assert c code = Ok u ↔ c = true.
Proof. destruct c, u; simpl; split; done. Qed.

Lemma checked_add_Ok max a b c :
  checked_add max a b = Ok c ↔ c = a + b ∧ a + b ≤ max.
Proof.
  unfold checked_add. destruct (N.leb_spec (a + b) max); split.
  - by intros [= <-].
  - by intros [-> _].
  - done.
  - intros [_ ?]; lia.
Qed.

Lemma checked_mul_Ok max a b c :
  checked_mul max a b = Ok c ↔ c = a * b ∧ a * b ≤ max.
Proof.
  unfold checked_mul. destruct (N.leb_spec (a * b) max); split.
  - by intros [= <-].
  - by intros [-> _].
  - done.
  - intros [_ ?]; lia.
Qed.

Lemma sub_Ok a b c : sub a b = Ok c ↔ c = a - b ∧ b ≤ a.
Proof.
  unfold sub. destruct (N.leb_spec b a); split.
  - by intros [= <-].
  - by intros [-> _].
  - done.
  - intros [_ ?]; lia.
Qed.

Lemma div_Ok a b c : div a b = Ok c ↔ c = a / b ∧ b ≠ 0.
Proof.
  unfold div. destruct (N.eqb_spec b 0); split.
  - done.
  - by intros [_ ?].
  - by intros [= <-].
  - by intros [-> _].
Qed.

Lemma div_nonzero a b : b ≠ 0 → div a b = Ok (a / b).
Proof. intros Hb. unfold div. by apply N.eqb_neq in Hb as ->. Qed.

Lemma sub_le a b : b ≤ a → sub a b = Ok (a - b).
Proof. intros Hb. unfold sub. by apply N.leb_le in Hb as ->. Qed.

Lemma add64_fits a b : a + b ≤ MAX_U64 → add64 a b = Ok (a + b).
Proof.
  intros Hb. unfold add64, checked_add. by apply N.leb_le in Hb as ->.
Qed.

Lemma mul64_fits a b : a * b ≤ MAX_U64 → mul64 a b = Ok (a * b).
Proof.
  intros Hb. unfold mul64, checked_mul. by apply N.leb_le in Hb as ->.
Qed.

Lemma cast_Ok max a c : cast max a = Ok c ↔ c = a ∧ a ≤ max.
Proof.
  unfold cast. destruct (N.leb_spec a max); split.
  - by intros [= <-].
  - by intros [-> _].
  - done.
  - intros [_ ?]; lia.
Qed.

Lemma utf8_Ok bytes s :
  utf8 bytes = Ok s ↔ s = bytes ∧ check_utf8 bytes = true.
Proof.
  unfold utf8. destruct (check_utf8 bytes); split.
  - by intros [= <-].
  - by intros [-> _].
  - done.
  - by intros [_ ?].
Qed.

Lemma utf8_valid bytes : check_utf8 bytes = true → utf8 bytes = Ok bytes.
Proof. intros Hvalid. unfold utf8. by rewrite Hvalid. Qed.

Lemma utf8_invalid bytes :
  check_utf8 bytes = false → utf8 bytes = Err EInvalidUtf8.
Proof. intros Hinvalid. unfold utf8. by rewrite Hinvalid. Qed.

Lemma table_contains_true `{Countable K} {V : Type} (t : gmap K V) k :
  table_contains t k = true ↔ is_Some (t !! k).
Proof. unfold table_contains. by rewrite bool_decide_eq_true. Qed.

Lemma table_contains_false `{Countable K} {V : Type} (t : gmap K V) k :
  table_contains t k = false ↔ t !! k = None.
Proof.
  unfold table_contains.
  by rewrite bool_decide_eq_false, eq_None_not_Some.
Qed.

(** Inversion of a successful run: splits every bind and every checked
    primitive found in a hypothesis [_ = Ok _]. *)
Ltac inv_ok :=
  repeat match goal with
  | H : (_ ≫= _) = Ok _ |- _ =>
      apply bind_Ok in H; destruct H as (? & ? & H)
  | H : mbind _ _ = Ok _ |- _ =>
      apply bind_Ok in H; destruct H as (? & ? & H)
  | H : assert _ _ = Ok _ |- _ => apply assert_Ok in H
  | H : add64 _ _ = Ok _ |- _ => apply checked_add_Ok in H; destruct H
  | H : mul64 _ _ = Ok _ |- _ => apply checked_mul_Ok in H; destruct H
  | H : balance_join _ _ = Ok _ |- _ =>
      apply checked_add_Ok in H; destruct H
  | H : sub _ _ = Ok _ |- _ => apply sub_Ok in H; destruct H
  | H : div _ _ = Ok _ |- _ => apply div_Ok in H; destruct H
  | H : as_u64 _ = Ok _ |- _ => apply cast_Ok in H; destruct H
  | H : utf8 _ = Ok _ |- _ => apply utf8_Ok in H; destruct H
  | H : Ok _ = Ok _ |- _ => injection H as H
  | H : Err _ = Ok _ |- _ => discriminate H
  | H : (_, _) = ?x |- _ => is_var x; subst x
  | H : (let '(_, _) := ?x in _) = Ok _ |- _ =>
      first [is_var x; destruct x | progress cbn beta iota in H]
  | H : match ?m with Ok _ => _ | Err _ => _ end = Ok _ |- _ =>
      let Hm := fresh "Hm" in
      destruct m eqn:Hm; [|discriminate H]
  end.

(** ** Liquidity pool: deposits *)

Section pool_deposits.
Import liquidity_pool.

Lemma add_liquidity_inv pool coin ctx pool' token ev ctx' :
  add_liquidity pool coin ctx = Ok (pool', token, ev, ctx') →
  let issued := shares_for_deposit pool (coin_value coin) in
  shares token = issued ∧
  lp_owner token = sender ctx ∧
  total_liquidity pool' = total_liquidity pool + coin_value coin ∧
  lp_shares pool' =
    <[sender ctx := default 0 (lp_shares pool !! sender ctx) + issued]>
      (lp_shares pool) ∧
  total_shares pool' = total_shares pool + issued.
Proof.
  unfold add_liquidity, shares_for_deposit. intros Hrun. inv_ok.
  assert (x = if total_shares pool =? 0 then coin_value coin
              else coin_value coin * total_shares pool / total_liquidity pool)
    as Hx.
  { destruct (total_shares pool =? 0); inv_ok; congruence. }
  clear H. simplify_eq/=. repeat split; try done.
  destruct (table_contains _ _) eqn:Hc.
  - apply table_contains_true in Hc as [cur Hcur].
    unfold table_borrow, table_set in *. rewrite Hcur in *.
    inv_ok. simplify_eq/=. done.
  - apply table_contains_false in Hc.
    unfold table_add in *. rewrite Hc in *. inv_ok. simplify_eq/=.
    by rewrite N.add_0_l.
Qed.




(** A pool whose liquidity was paid out in full while shares remain
    outstanding: reached by one deposit followed by a payout of the same
    amount. *)
Lemma drained_pool_reachable :
  ∃ pool token ev ctx pool' paid,
    add_liquidity (mkPool 0 ∅ 0) (mkCoin 100) (mkTxContext 1 0 0)
      = Ok (pool, token, ev, ctx) ∧
    process_claim_payout pool 9 100 ctx = Ok (pool', paid) ∧
    total_shares pool' = 100 ∧ total_liquidity pool' = 0.
Proof. by eexists _, _, _, _, _, _; vm_compute. Qed.

(** C10. On a pool with outstanding shares and no liquidity every deposit
    aborts in the share calculation, whatever the amount and the sender:
    the quotient [amount * total_shares / total_liquidity] has a zero
    divisor.  (When the product itself exceeds [u64] the abort comes from the
    multiplication, one step earlier.)  No deposit succeeds on such a
    pool. *)
Theorem add_liquidity_drained_pool_aborts pool coin ctx :
  0 < total_shares pool →
  total_liquidity pool = 0 →
  add_liquidity pool coin ctx =
    Err (if coin_value coin * total_shares pool <=? MAX_U64
         then EDivByZero else EOverflow) ∧
  ∀ out, add_liquidity pool coin ctx ≠ Ok out.
Proof.
  intros Hshares Hliq.
  assert (add_liquidity pool coin ctx =
    Err (if coin_value coin * total_shares pool <=? MAX_U64
         then EDivByZero else EOverflow)) as Hrun.
  { unfold add_liquidity.
    destruct (N.eqb_spec (total_shares pool) 0) as [|_]; [lia|].
    unfold mul64, checked_mul, div. rewrite Hliq.
    by destruct (_ <=? MAX_U64). }
  split; [done|]. intros out. by rewrite Hrun.
Qed.

Lemma add_liquidity_drained_pool_aborts_witness :
  add_liquidity (mkPool 0 {[ 1 := 100 ]} 100) (mkCoin 50) (mkTxContext 2 0 0)
    = Err EDivByZero.
Proof.
  apply (add_liquidity_drained_pool_aborts
           (mkPool 0 {[ 1 := 100 ]} 100) (mkCoin 50) (mkTxContext 2 0 0)).
  - simpl. lia.
  - reflexivity.
Defined.

End pool_deposits.

(** ** Risk model: premium quotes *)

Section premium_quotes.
Import risk_model.

Lemma factor_lookup `{Countable K} (t : gmap K N) (k : K) (d : N) :
  (if table_contains t k then table_borrow t k else Ok d)
  = Ok (default d (t !! k)).
Proof.
  destruct (table_contains t k) eqn:Hc.
  - apply table_contains_true in Hc as [v Hv].
    unfold table_borrow. by rewrite Hv.
  - apply table_contains_false in Hc. by rewrite Hc.
Qed.

Lemma closest_tier_of_zero :
  while_lt 0 (vector_length coverage_tiers) (closest_tier_step 0)
    (1000000000, 10000) = Ok (1000, 1000).
Proof. by vm_compute. Qed.

(** C8, as the code has it.  [calculate_premium] has no check of the
    coverage amount: with [coverage_amount = 0] the base premium, the four
    adjustments and the final premium are all 0 and the quote aborts at the
    daily funding rate, whose divisor [coverage_amount * 365] is 0.  This
    holds for every risk model, location, peril and month. *)
Theorem calculate_premium_zero_coverage model location peril_type month pid :
  calculate_premium model location peril_type 0 month pid = Err EDivByZero.
Proof.
  unfold calculate_premium.
  rewrite !factor_lookup, closest_tier_of_zero. cbn.
  rewrite factor_lookup. cbn.
  unfold mul64, checked_mul. rewrite !N.mul_0_l. by cbn.
Qed.

(** C8 as stated fails: on the model that [create_risk_model] installs, the
    quote for a zero coverage amount is refused by the division itself, not
    by a validation error raised before it. *)
Lemma zero_coverage_quote_divides_by_zero :
  create_risk_model "amoca" "1" 500 (mkTxContext 7 3 0)
    = Ok (default_risk_model, mkRiskModelCreated 0 "amoca" "1" 7,
          mkTxContext 7 3 1) ∧
  calculate_premium default_risk_model "east-africa" "drought" 0 1 None
    = Err EDivByZero ∧
  ¬ ∃ code,
      calculate_premium default_risk_model "east-africa" "drought" 0 1 None
      = Err (EAssert code).
Proof.
  split; [by vm_compute|]. split; [by vm_compute|].
  intros [code Hrun]. by vm_compute in Hrun.
Qed.

(** C9, at the failing input.  On the model that [create_risk_model]
    installs with a base rate of 500, a quote for a coverage of 50000
    selects the tier factor 90; the base premium is 2500 and
    [2500 * 90 / 100 - 2500] is below zero, so the unsigned subtraction
    aborts and no quote is produced. *)
Theorem calculate_premium_volume_discount_aborts :
  create_risk_model "amoca" "1" 500 (mkTxContext 7 3 0)
    = Ok (default_risk_model, mkRiskModelCreated 0 "amoca" "1" 7,
          mkTxContext 7 3 1) ∧
  calculate_premium default_risk_model "east-africa" "drought" 50000 1 None
    = Err EUnderflow.
Proof. split; by vm_compute. Qed.

(** What a quote that is produced looks like: every adjustment is
    [base * factor / 100 - base] with a non-negative difference, and the
    final premium is the base premium plus the four adjustments. *)
Lemma calculate_premium_inv model location peril_type coverage month pid q :
  calculate_premium model location peril_type coverage month pid = Ok q →
  let base := coverage * base_premium_rate model / 10000 in
  let adj factor := base * factor / 100 - base in
  let lf := default 100 (location_factors model !! location) in
  let pf := default 100 (peril_factors model !! peril_type) in
  let sf := default 100 (seasonal_factors model !!
              if (1 <=? month) && (month <=? 12) then month else 1) in
  let cf := default 100 (coverage_factors model !! nearest_tier coverage) in
  base_premium q = base ∧
  location_adjustment q = adj lf ∧ base ≤ base * lf / 100 ∧
  peril_adjustment q = adj pf ∧ base ≤ base * pf / 100 ∧
  seasonal_adjustment q = adj sf ∧ base ≤ base * sf / 100 ∧
  coverage_adjustment q = adj cf ∧ base ≤ base * cf / 100 ∧
  final_premium q = base + adj lf + adj pf + adj sf + adj cf ∧
  funding_rate q = final_premium q * 10000 / (coverage * 365) ∧
  coverage ≠ 0.
Proof.
  unfold calculate_premium, nearest_tier. rewrite !factor_lookup.
  intros Hrun. cbn in Hrun. inv_ok.
  match goal with H : while_lt _ _ _ _ = Ok _ |- _ => rewrite H end.
  match goal with H : (if table_contains _ _ then _ else _) = Ok _ |- _ =>
    rewrite factor_lookup in H end.
  inv_ok. subst. cbn. repeat split; try done. lia.
Qed.

(** A discount can therefore never be quoted: a quote on a positive base
    premium is only produced when none of the four factors is below 100. *)
Lemma calculate_premium_no_discount model location peril_type coverage
    month pid q :
  calculate_premium model location peril_type coverage month pid = Ok q →
  0 < base_premium q →
  100 ≤ default 100 (location_factors model !! location) ∧
  100 ≤ default 100 (peril_factors model !! peril_type) ∧
  100 ≤ default 100 (seasonal_factors model !!
          if (1 <=? month) && (month <=? 12) then month else 1) ∧
  100 ≤ default 100 (coverage_factors model !! nearest_tier coverage).
Proof.
  intros Hrun Hpos.
  apply calculate_premium_inv in Hrun
    as (Hb & _ & Hlf & _ & Hpf & _ & Hsf & _ & Hcf & _).
  rewrite Hb in Hpos.
  set (base := coverage * base_premium_rate model / 10000) in *.
  assert (∀ f, base ≤ base * f / 100 → 100 ≤ f) as Hge.
  { intros f Hf. destruct (N.le_gt_cases 100 f) as [|Hlt]; [done|].
    exfalso. assert (base * f / 100 < base); [|lia].
    apply N.Div0.div_lt_upper_bound. nia. }
  repeat split; by apply Hge.
Qed.

End premium_quotes.

(** ** Claim processing *)

Section claim_processing.

(** The trigger evaluation of the updated claim processor decides the
    specification's condition. *)
Lemma trigger_evaluation code observed threshold :
  ∃ met : bool,
    (if code =? 0 then Ok (observed <=? threshold)
     else if code =? 1 then Ok (threshold <=? observed)
     else if code =? 2 then
       (if threshold <? observed then sub observed threshold
        else sub threshold observed) ≫= λ diff,
       div threshold 100 ≫= λ tolerance,
       Ok (diff <=? tolerance)
     else Ok false) = Ok met ∧
    (met = true ↔ trigger_condition code observed threshold).
Proof.
  unfold trigger_condition.
  destruct (N.eqb_spec code 0) as [->|H0].
  { eexists; split; [done|]. rewrite N.leb_le. split.
    - intros Hle. by exists LESS_THAN.
    - by intros (op & [= <-] & Hle). }
  destruct (N.eqb_spec code 1) as [->|H1].
  { eexists; split; [done|]. rewrite N.leb_le. split.
    - intros Hle. by exists GREATER_THAN.
    - by intros (op & [= <-] & Hle). }
  destruct (N.eqb_spec code 2) as [->|H2].
  { exists (if threshold <? observed
            then observed - threshold <=? threshold / 100
            else threshold - observed <=? threshold / 100).
    split.
    - unfold sub, div. destruct (N.ltb_spec threshold observed).
      + destruct (N.leb_spec threshold observed); [done|lia].
      + destruct (N.leb_spec observed threshold); [done|lia].
    - split.
      + intros Hmet. exists EQUAL_WITHIN_TOLERANCE. split; [done|].
        simpl. destruct (N.ltb_spec threshold observed);
          apply N.leb_le in Hmet; lia.
      + intros (op & [= <-] & Hle). simpl in Hle.
        destruct (N.ltb_spec threshold observed); apply N.leb_le; lia. }
  exists false. split; [done|]. split; [done|].
  intros (op & Hop & _).
  destruct code as [|[[]|[]|]]; simplify_eq/=.
Qed.

(** What a run of the updated claim processor that returns has done. *)
Lemma process_claim_with_aggregated_data_inv policy oracle_data pool ctx
    pool' claim paid event ctx' :
  cpu.process_claim_with_aggregated_data policy oracle_data pool ctx
    = Ok (pool', claim, paid, event, ctx') →
  ∃ met : bool,
    (met = true ↔
       trigger_condition (pme.trigger_operator policy)
         (soi.value oracle_data) (pme.trigger_threshold policy)) ∧
    pme.active policy = true ∧
    pme.location policy = soi.location oracle_data ∧
    pme.peril_type policy = soi.data_type oracle_data ∧
    soi.value oracle_data ≤ MAX_U64 ∧
    claim = cpu.mkClaim (ids_created ctx) (pme.id policy) (pme.owner policy)
              (pme.trigger_threshold policy) (soi.value oracle_data) 8
              (if met then pme.coverage_amount policy else 0) (epoch ctx)
              (if met then 1 else 2) (soi.sources_count oracle_data) ∧
    (if met
     then ∃ coin,
       paid = Some coin ∧
       liquidity_pool.process_claim_payout pool (pme.owner policy)
         (pme.coverage_amount policy) (object_new ctx).2
       = Ok (pool', coin)
     else pool' = pool ∧ paid = None).
Proof.
  unfold cpu.process_claim_with_aggregated_data, pme.get_policy_details,
    soi.get_aggregated_data_details, pme.get_trigger_operator.
  intros Hrun. inv_ok. subst.
  destruct (trigger_evaluation (pme.trigger_operator policy)
              (soi.value oracle_data) (pme.trigger_threshold policy))
    as (met & Heval & Hspec).
  match goal with H : _ = Ok ?b |- _ =>
    rewrite Heval in H; injection H as <- end.
  exists met. rewrite !bool_decide_eq_true in *.
  repeat (split; [done|]).
  destruct met; cbn in Hrun; inv_ok.
  - repeat match goal with x : (_ * _)%type |- _ => destruct x end.
    inv_ok. simplify_eq/=. split; [done|]. by eexists.
  - by simplify_eq/=.
Qed.

(** A run on an active policy with a matching aggregate whose value fits
    [u64]: it evaluates the trigger and either records a rejected claim or
    asks the pool for the payout and records an approved one. *)
Lemma process_claim_with_aggregated_data_run policy oracle_data pool ctx :
  pme.active policy = true →
  pme.location policy = soi.location oracle_data →
  pme.peril_type policy = soi.data_type oracle_data →
  soi.value oracle_data ≤ MAX_U64 →
  ∃ met : bool,
    (met = true ↔
       trigger_condition (pme.trigger_operator policy)
         (soi.value oracle_data) (pme.trigger_threshold policy)) ∧
    let status := if met then 1 else 2 in
    let payout_amount := if met then pme.coverage_amount policy else 0 in
    let ctx' := (object_new ctx).2 in
    let claim :=
      cpu.mkClaim (ids_created ctx) (pme.id policy) (pme.owner policy)
        (pme.trigger_threshold policy) (soi.value oracle_data) 8
        payout_amount (epoch ctx) status (soi.sources_count oracle_data) in
    let event :=
      cpu.mkClaimProcessed (ids_created ctx) (pme.id policy)
        (pme.owner policy) payout_amount status in
    cpu.process_claim_with_aggregated_data policy oracle_data pool ctx =
      if met then
        liquidity_pool.process_claim_payout pool (pme.owner policy)
          payout_amount ctx' ≫= λ '(pool', coin),
        Ok (pool', claim, Some coin, event, ctx')
      else Ok (pool, claim, None, event, ctx').
Proof.
  intros Hactive Hloc Hperil Hfits.
  destruct (trigger_evaluation (pme.trigger_operator policy)
              (soi.value oracle_data) (pme.trigger_threshold policy))
    as (met & Heval & Hspec).
  exists met. split; [done|].
  unfold cpu.process_claim_with_aggregated_data, pme.get_policy_details,
    soi.get_aggregated_data_details, pme.get_trigger_operator.
  rewrite Hactive, !bool_decide_eq_true_2 by done.
  unfold as_u64, cast. apply N.leb_le in Hfits as ->.
  cbn [mbind result_bind assert] in *. rewrite Heval.
  destruct met; cbn; [|done].
  by destruct (liquidity_pool.process_claim_payout _ _ _ _) as [[]|].
Qed.

(** C1. An active policy, a matching aggregate that meets the trigger, and
    a pool holding less than the coverage amount: the payout is refused
    with InsufficientLiquidity and so is the whole claim.  The transaction
    leaves the ledger as it was: the pool (its liquidity included) is the
    same, no claim record was transferred, no coin was paid and no event was
    emitted.  The policy is only read by the claim processor. *)
Theorem claim_with_insufficient_liquidity_is_atomic policy oracle_data pool
    ctx :
  pme.active policy = true →
  pme.location policy = soi.location oracle_data →
  pme.peril_type policy = soi.data_type oracle_data →
  soi.value oracle_data ≤ MAX_U64 →
  trigger_condition (pme.trigger_operator policy) (soi.value oracle_data)
    (pme.trigger_threshold policy) →
  liquidity_pool.total_liquidity pool < pme.coverage_amount policy →
  cpu.process_claim_with_aggregated_data policy oracle_data pool ctx
    = Err EInsufficientLiquidity ∧
  ∀ claims coins events,
    settle_claim (mkLedger pool claims coins events) policy oracle_data ctx
    = (mkLedger pool claims coins events, Some EInsufficientLiquidity).
Proof.
  intros Hactive Hloc Hperil Hfits Hcond Hliq.
  destruct (process_claim_with_aggregated_data_run policy oracle_data pool
              ctx Hactive Hloc Hperil Hfits) as (met & Hspec & Hrun).
  apply Hspec in Hcond as ->. cbn zeta in Hrun.
  assert (cpu.process_claim_with_aggregated_data policy oracle_data pool ctx
          = Err EInsufficientLiquidity) as Habort.
  { rewrite Hrun. unfold liquidity_pool.process_claim_payout.
    apply N.ltb_lt in Hliq. by rewrite Hliq. }
  split; [done|]. intros claims coins events.
  unfold settle_claim. cbn [ledger_pool]. by rewrite Habort.
Qed.

(** Scenario D of the specification: a pool of 5000 and a claim of 10000. *)
Lemma claim_with_insufficient_liquidity_is_atomic_witness :
  cpu.process_claim_with_aggregated_data scenario_policy
    (scenario_aggregate 20) (liquidity_pool.mkPool 5000 {[ 1 := 5000 ]} 5000)
    (mkTxContext 7 1 0)
  = Err EInsufficientLiquidity.
Proof.
  apply (claim_with_insufficient_liquidity_is_atomic scenario_policy
           (scenario_aggregate 20)
           (liquidity_pool.mkPool 5000 {[ 1 := 5000 ]} 5000)
           (mkTxContext 7 1 0)).
  - reflexivity.
  - reflexivity.
  - reflexivity.
  - by vm_compute.
  - exists LESS_THAN. split; [reflexivity|]. by vm_compute.
  - by vm_compute.
Defined.

(** What a run of the first claim processor that returns has done.  Its
    policies carry no operator: the comparison is the one of LESS_THAN. *)
Lemma process_claim_inv policy oracle_data pool ctx pool' claim paid event
    ctx' :
  claim_processor.process_claim policy oracle_data pool ctx
    = Ok (pool', claim, paid, event, ctx') →
  let met :=
    oracle_aggregator.value oracle_data
      <=? policy_manager.trigger_threshold policy in
  policy_manager.location policy = oracle_aggregator.location oracle_data ∧
  policy_manager.peril_type policy = oracle_aggregator.data_type oracle_data ∧
  claim = claim_processor.mkClaim (ids_created ctx) (policy_manager.id policy)
            (policy_manager.owner policy)
            (policy_manager.trigger_threshold policy)
            (oracle_aggregator.value oracle_data)
            (if met then policy_manager.coverage_amount policy else 0)
            (epoch ctx) (if met then 1 else 2).
Proof.
  unfold claim_processor.process_claim. intros Hrun. inv_ok.
  rewrite !bool_decide_eq_true in *. repeat (split; [done|]).
  destruct (_ <=? _); cbn in Hrun; inv_ok;
    repeat match goal with x : (_ * _)%type |- _ => destruct x end;
    inv_ok; by simplify_eq/=.
Qed.

(** A claim on an active policy with a matching aggregate is always
    decided when the observed value fits [u64] and, if the trigger is met,
    the pool holds the coverage amount. *)
Lemma process_claim_with_aggregated_data_total policy oracle_data pool ctx :
  pme.active policy = true →
  pme.location policy = soi.location oracle_data →
  pme.peril_type policy = soi.data_type oracle_data →
  soi.value oracle_data ≤ MAX_U64 →
  (trigger_condition (pme.trigger_operator policy) (soi.value oracle_data)
     (pme.trigger_threshold policy) →
   pme.coverage_amount policy ≤ liquidity_pool.total_liquidity pool) →
  ∃ out,
    cpu.process_claim_with_aggregated_data policy oracle_data pool ctx
    = Ok out.
Proof.
  intros Hactive Hloc Hperil Hfits Hliq.
  destruct (process_claim_with_aggregated_data_run policy oracle_data pool
              ctx Hactive Hloc Hperil Hfits) as (met & Hspec & ->).
  destruct met; [|by eexists].
  unfold liquidity_pool.process_claim_payout.
  destruct (N.ltb_spec (liquidity_pool.total_liquidity pool)
              (pme.coverage_amount policy)) as [Hlt|_]; [|by eexists].
  assert (pme.coverage_amount policy ≤ liquidity_pool.total_liquidity pool)
    by (by apply Hliq, Hspec).
  lia.
Qed.

(** An inactive policy is refused by both entry points of the updated claim
    processor with abort code 0, before anything else is looked at. *)
Lemma inactive_policy_is_refused policy pool ctx :
  pme.active policy = false →
  (∀ oracle_data,
     cpu.process_claim_with_aggregated_data policy oracle_data pool ctx
     = Err (EAssert 0)) ∧
  (∀ aggregator,
     cpu.process_claim_with_aggregator policy aggregator pool ctx
     = Err (EAssert 0)).
Proof.
  intros Hinactive. split; intros.
  - unfold cpu.process_claim_with_aggregated_data, pme.get_policy_details.
    by rewrite Hinactive.
  - unfold cpu.process_claim_with_aggregator, pme.get_policy_details.
    by rewrite Hinactive.
Qed.

(** A claim of the first claim processor on a policy with a matching
    aggregate is always decided when, if the observed value is at most the
    threshold, the pool holds the coverage amount. *)
Lemma process_claim_run policy oracle_data pool ctx :
  policy_manager.location policy = oracle_aggregator.location oracle_data →
  policy_manager.peril_type policy
    = oracle_aggregator.data_type oracle_data →
  (oracle_aggregator.value oracle_data
     ≤ policy_manager.trigger_threshold policy →
   policy_manager.coverage_amount policy
     ≤ liquidity_pool.total_liquidity pool) →
  ∃ pool' claim paid event ctx',
    claim_processor.process_claim policy oracle_data pool ctx
    = Ok (pool', claim, paid, event, ctx').
Proof.
  intros Hloc Hperil Hliq. unfold claim_processor.process_claim.
  rewrite !bool_decide_eq_true_2 by done. cbn [mbind result_bind assert].
  destruct (N.leb_spec (oracle_aggregator.value oracle_data)
              (policy_manager.trigger_threshold policy)) as [Hmet|_]; cbn.
  - unfold liquidity_pool.process_claim_payout.
    destruct (N.ltb_spec (liquidity_pool.total_liquidity pool)
                (policy_manager.coverage_amount policy)) as [Hlt|_];
      [|by repeat eexists].
    specialize (Hliq Hmet). lia.
  - by repeat eexists.
Qed.

(** C2.  For an active policy and an aggregate of the same location and
    peril type whose observed value fits [u64], and a pool that holds the
    coverage amount if the trigger condition holds, claim processing returns
    and records a claim that is Approved exactly when the condition of the
    policy's trigger operator holds on the observed value (LESS_THAN:
    observed <= threshold; GREATER_THAN: observed >= threshold;
    EQUAL_WITHIN_TOLERANCE: |observed - threshold| <= threshold / 100) and
    Rejected otherwise; the recorded payout is the coverage amount of an
    Approved claim and 0 for a Rejected one.  The first claim processor,
    whose policies have no operator and whose values are [u64] already, does
    the same with the LESS_THAN condition; it does not read the [active]
    flag, and nothing is said here about what it does with a terminated
    policy. *)
Theorem claim_status_follows_trigger :
  (∀ policy oracle_data pool ctx,
     let condition :=
       trigger_condition (pme.trigger_operator policy)
         (soi.value oracle_data) (pme.trigger_threshold policy) in
     pme.active policy = true →
     pme.location policy = soi.location oracle_data →
     pme.peril_type policy = soi.data_type oracle_data →
     soi.value oracle_data ≤ MAX_U64 →
     (condition →
      pme.coverage_amount policy ≤ liquidity_pool.total_liquidity pool) →
     ∃ pool' claim paid event ctx',
       cpu.process_claim_with_aggregated_data policy oracle_data pool ctx
         = Ok (pool', claim, paid, event, ctx') ∧
       (cpu.status claim = APPROVED ↔ condition) ∧
       (cpu.status claim = REJECTED ↔ ¬ condition) ∧
       (cpu.status claim = APPROVED →
          cpu.payout_amount claim = pme.coverage_amount policy) ∧
       (cpu.status claim = REJECTED → cpu.payout_amount claim = 0)) ∧
  (∀ policy oracle_data pool ctx,
     let condition :=
       trigger_holds LESS_THAN (oracle_aggregator.value oracle_data)
         (policy_manager.trigger_threshold policy) in
     policy_manager.active policy = true →
     policy_manager.location policy = oracle_aggregator.location oracle_data →
     policy_manager.peril_type policy
       = oracle_aggregator.data_type oracle_data →
     (condition →
      policy_manager.coverage_amount policy
        ≤ liquidity_pool.total_liquidity pool) →
     ∃ pool' claim paid event ctx',
       claim_processor.process_claim policy oracle_data pool ctx
         = Ok (pool', claim, paid, event, ctx') ∧
       (claim_processor.status claim = APPROVED ↔ condition) ∧
       (claim_processor.status claim = REJECTED ↔ ¬ condition) ∧
       (claim_processor.status claim = APPROVED →
          claim_processor.payout_amount claim
          = policy_manager.coverage_amount policy) ∧
       (claim_processor.status claim = REJECTED →
          claim_processor.payout_amount claim = 0)).
Proof.
  split.
  - intros policy oracle_data pool ctx condition Hactive Hloc Hperil Hfits
      Hliq.
    destruct (process_claim_with_aggregated_data_total policy oracle_data
                pool ctx Hactive Hloc Hperil Hfits Hliq)
      as ([[[[pool' claim] paid] event] ctx'] & Hrun).
    exists pool', claim, paid, event, ctx'. split; [done|].
    apply process_claim_with_aggregated_data_inv in Hrun
      as (met & Hspec & _ & _ & _ & _ & -> & _).
    subst condition. unfold APPROVED, REJECTED. cbn. rewrite <- Hspec. by destruct met.
  - intros policy oracle_data pool ctx condition _ Hloc Hperil Hliq.
    destruct (process_claim_run policy oracle_data pool ctx Hloc Hperil Hliq)
      as (pool' & claim & paid & event & ctx' & Hrun).
    exists pool', claim, paid, event, ctx'. split; [done|].
    apply process_claim_inv in Hrun as (_ & _ & ->).
    subst condition. unfold APPROVED, REJECTED. cbn. rewrite <- N.leb_le. by destruct (_ <=? _).
Qed.

(** Scenarios B and C of the specification on both claim processors:
    threshold 25, LESS_THAN, coverage 10000; an observed 20 is approved and
    paid, an observed 30 is rejected. *)
Lemma claim_status_follows_trigger_witness :
  let pool := liquidity_pool.mkPool 20000 {[ 1 := 20000 ]} 20000 in
  let ctx := mkTxContext 7 1 0 in
  let policy := policy_manager.mkPolicy 11 7 "east-africa" "rainfall" 10000
                  25 1200 true 0 in
  let aggregate observed :=
    oracle_aggregator.mkAggregatedData 12 "east-africa" "rainfall" observed 1
      3 in
  (∃ pool' claim paid event ctx',
     cpu.process_claim_with_aggregated_data scenario_policy
       (scenario_aggregate 20) pool ctx
       = Ok (pool', claim, paid, event, ctx') ∧
     cpu.status claim = APPROVED ∧ cpu.payout_amount claim = 10000) ∧
  (∃ pool' claim paid event ctx',
     cpu.process_claim_with_aggregated_data scenario_policy
       (scenario_aggregate 30) pool ctx
       = Ok (pool', claim, paid, event, ctx') ∧
     cpu.status claim = REJECTED ∧ cpu.payout_amount claim = 0) ∧
  (∃ pool' claim paid event ctx',
     claim_processor.process_claim policy (aggregate 20) pool ctx
       = Ok (pool', claim, paid, event, ctx') ∧
     claim_processor.status claim = APPROVED ∧
     claim_processor.payout_amount claim = 10000) ∧
  (∃ pool' claim paid event ctx',
     claim_processor.process_claim policy (aggregate 30) pool ctx
       = Ok (pool', claim, paid, event, ctx') ∧
     claim_processor.status claim = REJECTED ∧
     claim_processor.payout_amount claim = 0).
Proof.
  intros pool ctx policy aggregate.
  assert (trigger_condition 0 20 25) as Hmet.
  { exists LESS_THAN. split; [reflexivity|]. by vm_compute. }
  assert (¬ trigger_condition 0 30 25) as Hmissed.
  { intros (op & [= <-] & Hle). by vm_compute in Hle. }
  assert (¬ trigger_holds LESS_THAN 30 25) as Hmissed'.
  { intros Hle. by vm_compute in Hle. }
  assert (10000 ≤ 20000) as Hfunded by (by vm_compute).
  assert (25 ≤ MAX_U64 ∧ 20 ≤ MAX_U64 ∧ 30 ≤ MAX_U64) as (_ & H20 & H30)
    by (by vm_compute).
  repeat split.
  - destruct (proj1 claim_status_follows_trigger scenario_policy
                (scenario_aggregate 20) pool ctx eq_refl eq_refl eq_refl H20
                (λ _, Hfunded))
      as (pool' & claim & paid & event & ctx' & Hrun & Happroved & _ & Hpay
          & _).
    exists pool', claim, paid, event, ctx'.
    split; [exact Hrun|]. split; [exact (proj2 Happroved Hmet)|].
    exact (Hpay (proj2 Happroved Hmet)).
  - destruct (proj1 claim_status_follows_trigger scenario_policy
                (scenario_aggregate 30) pool ctx eq_refl eq_refl eq_refl H30
                (λ _, Hfunded))
      as (pool' & claim & paid & event & ctx' & Hrun & _ & Hrejected & _
          & Hpay).
    exists pool', claim, paid, event, ctx'.
    split; [exact Hrun|]. split; [exact (proj2 Hrejected Hmissed)|].
    exact (Hpay (proj2 Hrejected Hmissed)).
  - destruct (proj2 claim_status_follows_trigger policy (aggregate 20) pool
                ctx eq_refl eq_refl eq_refl (λ _, Hfunded))
      as (pool' & claim & paid & event & ctx' & Hrun & Happroved & _ & Hpay
          & _).
    assert (trigger_holds LESS_THAN 20 25) as Hmet' by (by vm_compute).
    exists pool', claim, paid, event, ctx'.
    split; [exact Hrun|]. split; [exact (proj2 Happroved Hmet')|].
    exact (Hpay (proj2 Happroved Hmet')).
  - destruct (proj2 claim_status_follows_trigger policy (aggregate 30) pool
                ctx eq_refl eq_refl eq_refl (λ _, Hfunded))
      as (pool' & claim & paid & event & ctx' & Hrun & _ & Hrejected & _
          & Hpay).
    exists pool', claim, paid, event, ctx'.
    split; [exact Hrun|]. split; [exact (proj2 Hrejected Hmissed')|].
    exact (Hpay (proj2 Hrejected Hmissed')).
Defined.

(** C2, as the claim was worded.  A trigger condition that holds does not
    make an approved claim for every policy and matching aggregate: claim
    processing aborts, and records nothing, for a terminated policy, for an
    observed value above [u64] and for a pool that holds less than the
    coverage amount. *)
Lemma trigger_met_without_approval :
  let pool := liquidity_pool.mkPool 20000 {[ 1 := 20000 ]} 20000 in
  let small_pool := liquidity_pool.mkPool 5000 {[ 1 := 5000 ]} 5000 in
  let ctx := mkTxContext 7 1 0 in
  let terminated :=
    pme.mkPolicy 11 7 "east-africa" [] "rainfall" "" 10000 25 0 0 3200 0 0
      false 0 1 in
  let at_least_25 :=
    pme.mkPolicy 11 7 "east-africa" [] "rainfall" "" 10000 25 1 3200 3200 0
      0 true 0 0 in
  let policy :=
    policy_manager.mkPolicy 11 7 "east-africa" "rainfall" 10000 25 1200 true
      0 in
  let aggregate :=
    oracle_aggregator.mkAggregatedData 12 "east-africa" "rainfall" 20 1 3 in
  (pme.location terminated = soi.location (scenario_aggregate 20) ∧
   pme.peril_type terminated = soi.data_type (scenario_aggregate 20) ∧
   trigger_condition (pme.trigger_operator terminated)
     (soi.value (scenario_aggregate 20)) (pme.trigger_threshold terminated) ∧
   cpu.process_claim_with_aggregated_data terminated (scenario_aggregate 20)
     pool ctx = Err (EAssert 0)) ∧
  (pme.location at_least_25 = soi.location (scenario_aggregate (2 ^ 64)) ∧
   pme.peril_type at_least_25 = soi.data_type (scenario_aggregate (2 ^ 64)) ∧
   trigger_condition (pme.trigger_operator at_least_25)
     (soi.value (scenario_aggregate (2 ^ 64)))
     (pme.trigger_threshold at_least_25) ∧
   cpu.process_claim_with_aggregated_data at_least_25
     (scenario_aggregate (2 ^ 64)) pool ctx = Err ECast) ∧
  (pme.location scenario_policy = soi.location (scenario_aggregate 20) ∧
   pme.peril_type scenario_policy = soi.data_type (scenario_aggregate 20) ∧
   trigger_condition (pme.trigger_operator scenario_policy)
     (soi.value (scenario_aggregate 20))
     (pme.trigger_threshold scenario_policy) ∧
   cpu.process_claim_with_aggregated_data scenario_policy
     (scenario_aggregate 20) small_pool ctx = Err EInsufficientLiquidity) ∧
  (policy_manager.location policy = oracle_aggregator.location aggregate ∧
   policy_manager.peril_type policy = oracle_aggregator.data_type aggregate ∧
   trigger_holds LESS_THAN (oracle_aggregator.value aggregate)
     (policy_manager.trigger_threshold policy) ∧
   claim_processor.process_claim policy aggregate small_pool ctx
   = Err EInsufficientLiquidity).
Proof.
  intros pool small_pool ctx terminated at_least_25 policy aggregate.
  repeat split; try (by vm_compute).
  - exists LESS_THAN. split; [reflexivity|]. by vm_compute.
  - exists GREATER_THAN. split; [reflexivity|]. by vm_compute.
  - exists LESS_THAN. split; [reflexivity|]. by vm_compute.
Qed.

(** C3, at the failing input.  The first claim processor never reads the
    [active] flag: a policy that its owner has terminated still gets a claim
    approved and the coverage amount paid out of the pool. *)
Theorem process_claim_pays_terminated_policy :
  ∃ policy0 created ctx0 policy terminated,
    policy_manager.create_policy "east-africa" "rainfall" 10000 25
      (mkCoin 1200) (mkTxContext 7 1 0) = Ok (policy0, created, ctx0) ∧
    policy_manager.terminate_policy policy0 ctx0 = Ok (policy, terminated) ∧
    policy_manager.active policy = false ∧
    claim_processor.process_claim policy
      (oracle_aggregator.mkAggregatedData 5 "east-africa" "rainfall" 20 1 3)
      (liquidity_pool.mkPool 20000 {[ 1 := 20000 ]} 20000) ctx0
    = Ok (liquidity_pool.mkPool 10000 {[ 1 := 20000 ]} 20000,
          claim_processor.mkClaim 1 0 7 25 20 10000 1 1,
          Some (mkCoin 10000, 7),
          claim_processor.mkClaimProcessed 1 0 7 10000 1,
          mkTxContext 7 1 2).
Proof. by eexists _, _, _, _, _; vm_compute. Qed.

End claim_processing.

(** ** Policy collateral *)

Section policy_collateral.
Import policy_manager_enhanced.

Lemma create_policy_collateralized registry risk_params location coordinates
    peril details coverage threshold operator collateral ctx registry'
    policy event ctx' :
  create_policy registry risk_params location coordinates peril details
    coverage threshold operator collateral ctx
    = Ok (registry', policy, event, ctx') →
  collateralized policy ∧
  collateral_balance policy = coin_value collateral ∧
  calculate_margin_requirement risk_params location peril coverage
    = Ok (margin_requirement policy) ∧
  active policy = true.
Proof.
  unfold create_policy. intros Hrun. inv_ok. cbn in Hrun. inv_ok.
  simplify_eq/=. unfold collateralized. cbn. by rewrite <- N.leb_le.
Qed.

Lemma add_collateral_inv policy coin ctx policy' event :
  add_collateral policy coin ctx = Ok (policy', event) →
  collateral_balance policy' = collateral_balance policy + coin_value coin ∧
  margin_requirement policy' = margin_requirement policy.
Proof. unfold add_collateral. intros Hrun. inv_ok. by simplify_eq/=. Qed.

Lemma remove_collateral_inv policy amount ctx policy' coin event :
  remove_collateral policy amount ctx = Ok (policy', coin, event) →
  collateral_balance policy' = collateral_balance policy - amount ∧
  margin_requirement policy' = margin_requirement policy ∧
  margin_requirement policy + amount ≤ collateral_balance policy ∧
  coin_value coin = amount.
Proof.
  unfold remove_collateral, coin_take, balance_split. intros Hrun. inv_ok.
  destruct (amount <=? collateral_balance policy); [|done].
  cbn in *. inv_ok. simplify_eq/=.
  match goal with H : (_ <=? _) = true |- _ => apply N.leb_le in H end.
  repeat split; try done. lia.
Qed.

Lemma process_funding_payment_inv policy rate direction ctx policy' payment :
  process_funding_payment policy rate direction ctx = Ok (policy', payment) →
  collateral_balance policy' = collateral_balance policy ∧
  margin_requirement policy' = margin_requirement policy ∧
  payment = coverage_amount policy * rate / 10000.
Proof.
  unfold process_funding_payment. intros Hrun. inv_ok.
  destruct direction; inv_ok; by simplify_eq/=.
Qed.

Lemma call_policy_collateralized policy call ctx policy' :
  collateralized policy →
  call_policy policy call ctx = Ok policy' →
  collateralized policy'.
Proof.
  unfold collateralized. intros Hinv Hrun.
  destruct call as [coin|amount|rate direction]; cbn in Hrun; inv_ok;
    repeat match goal with x : (_ * _)%type |- _ => destruct x end;
    inv_ok; subst.
  - match goal with H : add_collateral _ _ _ = _ |- _ =>
      apply add_collateral_inv in H as (-> & ->) end. lia.
  - match goal with H : remove_collateral _ _ _ = _ |- _ =>
      apply remove_collateral_inv in H as (-> & -> & ? & _) end. lia.
  - match goal with H : process_funding_payment _ _ _ _ = _ |- _ =>
      apply process_funding_payment_inv in H as (-> & -> & _) end. done.
Qed.

Lemma run_calls_collateralized policy txs :
  collateralized policy → collateralized (run_calls policy txs).
Proof.
  unfold run_calls. revert policy.
  induction txs as [|[call ctx] txs IH]; intros policy Hinv; [done|].
  cbn [foldl]. apply IH. unfold commit_call. cbn [fst snd].
  destruct (call_policy policy call ctx) as [policy'|] eqn:Hcall; [|done].
  by eapply call_policy_collateralized.
Qed.

Lemma init_default ctx :
  ∃ ctx', init ctx = Ok (mkPolicyRegistry ∅ ∅ ∅ ∅ 0 0,
                         default_risk_parameters, ctx').
Proof. eexists. by vm_compute. Qed.

(** Termination returns the whole collateral to the owner and closes the
    policy. *)
Lemma terminate_policy_inv registry policy ctx registry' policy' coin event :
  terminate_policy registry policy ctx
    = Ok (registry', policy', coin, event) →
  collateral_balance policy' = 0 ∧
  coin_value coin = collateral_balance policy ∧
  margin_requirement policy' = margin_requirement policy ∧
  active policy = true ∧ active policy' = false.
Proof.
  unfold terminate_policy, coin_take, balance_split. intros Hrun. inv_ok.
  rewrite N.leb_refl in *. cbn in *. inv_ok. simplify_eq/=.
  repeat split; try done. lia.
Qed.








End policy_collateral.

(** ** Oracle aggregation *)

Section vector_loops.
Context {A S : Type}.

(** A counting loop whose body reads [values[i]] visits the elements of the
    vector in order. *)
Lemma count_up_vector (values l1 l2 : list A) (body : N → S → result S)
    (g : A → S → result S) (s : S) :
  (∀ i s, body i s = borrow values i ≫= λ x, g x s) →
  values = l1 ++ l2 →
  count_up (length l2) (N.of_nat (length l1)) body s = fold_result g l2 s.
Proof.
  intros Hbody. revert l1 s.
  induction l2 as [|x l2 IH]; intros l1 s ->; [done|].
  cbn [count_up fold_result length]. rewrite Hbody. unfold borrow.
  rewrite Nat2N.id, list_lookup_middle by done. cbn.
  destruct (g x s) as [s'|e]; [|done]. cbn.
  replace (N.of_nat (length l1) + 1) with (N.of_nat (length (l1 ++ [x])))
    by (rewrite length_app; simpl; lia).
  apply IH. by rewrite <- app_assoc.
Qed.

Lemma while_lt_vector (values : list A) (body : N → S → result S)
    (g : A → S → result S) (s : S) :
  (∀ i s, body i s = borrow values i ≫= λ x, g x s) →
  while_lt 0 (vector_length values) body s = fold_result g values s.
Proof.
  intros Hbody. unfold while_lt, vector_length.
  rewrite N.sub_0_r, Nat2N.id.
  by apply (count_up_vector values [] values body g).
Qed.
End vector_loops.

Lemma fold_result_add {A : Type} (f : A → N) (l : list A) (s : N) :
  s ≤ MAX_U64 →
  fold_result (λ x s, add64 s (f x)) l s
  = if s + sum_N (f <$> l) <=? MAX_U64 then Ok (s + sum_N (f <$> l))
    else Err EOverflow.
Proof.
  revert s. induction l as [|x l IH]; intros s Hs.
  - cbn. rewrite N.add_0_r. by apply N.leb_le in Hs as ->.
  - change (sum_N (f <$> x :: l)) with (f x + sum_N (f <$> l)).
    cbn [fold_result]. unfold add64, checked_add.
    destruct (N.leb_spec (s + f x) MAX_U64) as [Hfit|Hover];
      cbn [mbind result_bind].
    + rewrite IH by done. by rewrite N.add_assoc.
    + destruct (N.leb_spec (s + (f x + sum_N (f <$> l))) MAX_U64);
        [lia|done].
Qed.

(** The loops of the two aggregators. *)
Lemma sum_loop values :
  while_lt 0 (vector_length values) (oracle_aggregator.sum_step values) 0
  = if sum_N values <=? MAX_U64 then Ok (sum_N values) else Err EOverflow.
Proof.
  rewrite (while_lt_vector values _ (λ x s, add64 s (id x))) by done.
  rewrite fold_result_add by done. by rewrite list_fmap_id, N.add_0_l.
Qed.

Lemma deviation_loop values median :
  let total := sum_N ((λ v, abs_diff v median) <$> values) in
  while_lt 0 (vector_length values)
    (switchboard_oracle.deviation_step values median) 0
  = if total <=? MAX_U64 then Ok total else Err EOverflow.
Proof.
  intros total.
  rewrite (while_lt_vector values _
             (λ x s, add64 s (abs_diff x median))).
  - rewrite fold_result_add by done. by rewrite N.add_0_l.
  - intros i s. unfold switchboard_oracle.deviation_step.
    destruct (borrow values i) as [v|]; [|done]. cbn.
    unfold abs_diff, sub. destruct (N.ltb_spec median v).
    + destruct (N.leb_spec median v); [done|lia].
    + destruct (N.leb_spec v median); [done|lia].
Qed.

Section confidence.
Import switchboard_oracle.

(** The confidence score, case by case. *)
Lemma calculate_confidence_eq values median :
  let n := vector_length values in
  let total := sum_N ((λ v, abs_diff v median) <$> values) in
  let avg := total / n in
  calculate_confidence values median =
    if n <=? 1 then Ok 10000
    else if negb (total <=? MAX_U64) then Err EOverflow
    else if avg =? 0 then Ok 10000
    else if median =? 0 then Ok 5000
    else if negb (avg * 10000 <=? MAX_U64) then Err EOverflow
    else if 10000 <=? avg * 10000 / median then Ok 1000
    else Ok (10000 - avg * 10000 / median).
Proof.
  cbn zeta. unfold calculate_confidence. rewrite deviation_loop. cbn zeta.
  set (n := vector_length values).
  set (total := sum_N ((λ v, abs_diff v median) <$> values)).
  destruct (N.leb_spec n 1) as [|Hn]; [done|].
  destruct (total <=? MAX_U64); [|reflexivity].
  cbn [negb mbind result_bind].
  rewrite (div_nonzero total n) by lia.
  cbn [mbind result_bind]. set (avg := total / n).
  destruct (avg =? 0); [done|].
  destruct (N.eqb_spec median 0) as [|Hmedian]; [done|].
  unfold mul64, checked_mul.
  destruct (avg * 10000 <=? MAX_U64); [|reflexivity].
  cbn [negb mbind result_bind]. rewrite div_nonzero by done.
  cbn [mbind result_bind].
  destruct (N.leb_spec 10000 (avg * 10000 / median)); [done|].
  rewrite sub_le by lia. done.
Qed.

(** C7, as the code has it.  A batch of one source scores 10000.  A score
    is never above 10000.  With a median of 0 no division takes place: the
    score is 10000 when the truncated average deviation is 0 (the sources
    agree) and the medium confidence 5000 otherwise.  Whatever the batch,
    the only abort of the computation is an arithmetic overflow. *)
Theorem calculate_confidence_score :
  (∀ values median,
     vector_length values ≤ 1 →
     calculate_confidence values median = Ok 10000) ∧
  (∀ values median score,
     calculate_confidence values median = Ok score → score ≤ 10000) ∧
  (∀ values score,
     1 < vector_length values →
     calculate_confidence values 0 = Ok score →
     let avg := sum_N values / vector_length values in
     (avg = 0 ∧ score = 10000) ∨ (avg ≠ 0 ∧ score = 5000)) ∧
  (∀ values median e,
     calculate_confidence values median = Err e → e = EOverflow).
Proof.
  split; [|split; [|split]].
  - intros values median Hn. rewrite calculate_confidence_eq. cbn zeta.
    by apply N.leb_le in Hn as ->.
  - intros values median score. rewrite calculate_confidence_eq. cbn zeta.
    repeat case_match; intros [= <-]; try apply N.le_sub_l; by vm_compute.
  - intros values score Hn. rewrite calculate_confidence_eq. cbn zeta.
    assert ((λ v, abs_diff v 0) <$> values = values) as ->.
    { rewrite <- (list_fmap_id values) at 2. apply list_fmap_ext.
      intros i v _. unfold abs_diff. destruct (N.ltb_spec 0 v); simpl; lia. }
    destruct (N.leb_spec (vector_length values) 1); [lia|].
    destruct (_ <=? MAX_U64); cbn; [|done].
    destruct (N.eqb_spec (sum_N values / vector_length values) 0);
      intros [= <-]; auto.
  - intros values median e. rewrite calculate_confidence_eq. cbn zeta.
    repeat case_match; by intros [= <-].
Qed.

Lemma calculate_confidence_score_witness :
  calculate_confidence [42] 42 = Ok 10000 ∧
  (sum_N [0; 0; 6] / vector_length [0; 0; 6] ≠ 0 ∧ 5000 = 5000).
Proof.
  split.
  - apply (proj1 calculate_confidence_score [42] 42). by vm_compute.
  - destruct (proj1 (proj2 (proj2 calculate_confidence_score)) [0; 0; 6]
                5000) as [[Hagree _]|Hsplit].
    + by vm_compute.
    + by vm_compute.
    + by vm_compute in Hagree.
    + exact Hsplit.
Defined.

(** C7 as stated fails: two sources that both report 0 have median 0 and
    score 10000, not 5000. *)
Lemma calculate_confidence_zero_median_agreement :
  calculate_confidence [0; 0] 0 = Ok 10000 ∧
  median_of_sorted [0; 0] = 0 ∧
  calculate_confidence [0; 0] 0 ≠ Ok 5000.
Proof. by vm_compute. Qed.

(** The score can fall below the 1000 that the code calls its minimum:
    the minimum is only applied from a deviation of 100% on. *)
Lemma calculate_confidence_below_minimum :
  median_of_sorted [5; 100; 290] = 100 ∧
  calculate_confidence [5; 100; 290] 100 = Ok 500.
Proof. by vm_compute. Qed.

End confidence.

Section bubble_sort.
Import switchboard_oracle.

Lemma borrow_middle {A : Type} (l1 l2 : list A) x :
  borrow (l1 ++ x :: l2) (N.of_nat (length l1)) = Ok x.
Proof. unfold borrow. by rewrite Nat2N.id, list_lookup_middle. Qed.

Lemma borrow_mut_set_middle {A : Type} (l1 l2 : list A) x y :
  borrow_mut_set (l1 ++ x :: l2) (N.of_nat (length l1)) y
  = Ok (l1 ++ y :: l2).
Proof.
  unfold borrow_mut_set, vector_length.
  destruct (N.ltb_spec (N.of_nat (length l1))
              (N.of_nat (length (l1 ++ x :: l2)))) as [_|Hge].
  - rewrite Nat2N.id.
    replace (length l1) with (length l1 + 0)%nat at 1 by lia.
    by rewrite insert_app_r.
  - rewrite length_app in Hge. simpl in Hge. lia.
Qed.

Lemma succ_index {A : Type} (l : list A) (x : A) :
  N.of_nat (length l) + 1 = N.of_nat (length (l ++ [x])).
Proof. rewrite length_app. simpl. lia. Qed.

Lemma borrow_next {A : Type} (l1 l2 : list A) x y :
  borrow (l1 ++ x :: y :: l2) (N.of_nat (length l1) + 1) = Ok y.
Proof.
  rewrite (succ_index l1 x).
  replace (l1 ++ x :: y :: l2) with ((l1 ++ [x]) ++ y :: l2)
    by (by rewrite <- app_assoc).
  apply borrow_middle.
Qed.

Lemma borrow_mut_set_next {A : Type} (l1 l2 : list A) x y z :
  borrow_mut_set (l1 ++ x :: y :: l2) (N.of_nat (length l1) + 1) z
  = Ok (l1 ++ x :: z :: l2).
Proof.
  rewrite (succ_index l1 x).
  replace (l1 ++ x :: y :: l2) with ((l1 ++ [x]) ++ y :: l2)
    by (by rewrite <- app_assoc).
  rewrite borrow_mut_set_middle. by rewrite <- app_assoc.
Qed.

(** The body of the inner loop on two neighbours. *)
Lemma swap_step_middle pre a b rest :
  N.of_nat (length pre) + 1 ≤ MAX_U64 →
  swap_step (N.of_nat (length pre)) (pre ++ a :: b :: rest)
  = Ok (pre ++ (if b <? a then b :: a :: rest else a :: b :: rest)).
Proof.
  intros Hfit. unfold swap_step.
  rewrite borrow_middle, add64_fits by done. cbn [mbind result_bind].
  rewrite borrow_next. cbn [mbind result_bind]. destruct (b <? a); [|done].
  rewrite borrow_mut_set_middle. cbn [mbind result_bind].
  by rewrite borrow_mut_set_next.
Qed.

(** The inner loop is one [bubble] pass over the part it scans. *)
Lemma swap_loop t : ∀ pre a s,
  N.of_nat (length pre + length t) ≤ MAX_U64 →
  count_up (length t) (N.of_nat (length pre)) swap_step (pre ++ a :: t ++ s)
  = Ok (pre ++ (bubble a t).1 ++ (bubble a t).2 :: s).
Proof.
  induction t as [|b t IH]; intros pre a s Hfit; [done|].
  cbn [count_up length app bubble].
  rewrite swap_step_middle by (simpl in Hfit; lia).
  cbn [mbind result_bind]. rewrite (succ_index pre (if b <? a then b else a)).
  destruct (b <? a).
  - replace (pre ++ b :: a :: t ++ s) with ((pre ++ [b]) ++ a :: t ++ s)
      by (by rewrite <- app_assoc).
    rewrite IH by (rewrite length_app; simpl in *; lia).
    destruct (bubble a t) as [l m]. by rewrite <- app_assoc.
  - replace (pre ++ a :: b :: t ++ s) with ((pre ++ [a]) ++ b :: t ++ s)
      by (by rewrite <- app_assoc).
    rewrite IH by (rewrite length_app; simpl in *; lia).
    destruct (bubble b t) as [l m]. by rewrite <- app_assoc.
Qed.

Lemma bubble_length a t : length (bubble a t).1 = length t.
Proof.
  revert a. induction t as [|b t IH]; intros a; [done|]. cbn [bubble].
  destruct (b <? a).
  - specialize (IH a). destruct (bubble a t). simpl in *. by rewrite IH.
  - specialize (IH b). destruct (bubble b t). simpl in *. by rewrite IH.
Qed.

Lemma bubble_Permutation a t :
  (bubble a t).1 ++ [(bubble a t).2] ≡ₚ a :: t.
Proof.
  revert a. induction t as [|b t IH]; intros a; [done|]. cbn [bubble].
  destruct (b <? a).
  - specialize (IH a). destruct (bubble a t) as [l m]. simpl in *.
    rewrite IH. apply Permutation_swap.
  - specialize (IH b). destruct (bubble b t) as [l m]. simpl in *.
    by rewrite IH.
Qed.

Lemma bubble_max a t :
  a ≤ (bubble a t).2 ∧ Forall (λ x, x ≤ (bubble a t).2) (bubble a t).1.
Proof.
  revert a. induction t as [|b t IH]; intros a; [by split|].
  cbn [bubble]. destruct (N.ltb_spec b a).
  - destruct (IH a) as [Ha Hl]. destruct (bubble a t) as [l m].
    simpl in *. split; [done|]. constructor; [lia|done].
  - destruct (IH b) as [Hb Hl]. destruct (bubble b t) as [l m].
    simpl in *. split; [lia|]. constructor; [lia|done].
Qed.

(** One pass of the outer loop, on a vector whose last [length s] elements
    are settled. *)
Lemma pass_step_bubble a t s :
  let n := N.of_nat (length (a :: t ++ s)) in
  n ≤ MAX_U64 →
  pass_step n (N.of_nat (length s)) (a :: t ++ s)
  = Ok ((bubble a t).1 ++ (bubble a t).2 :: s).
Proof.
  intros n Hfit. unfold pass_step, while_lt. subst n.
  rewrite sub_le by (simpl; rewrite length_app; lia).
  cbn [mbind result_bind]. rewrite sub_le by (simpl; rewrite length_app; lia).
  cbn [mbind result_bind].
  replace (N.to_nat (_ - 0)) with (length t)
    by (simpl; rewrite length_app; lia).
  apply (swap_loop t [] a s). simpl in *. rewrite length_app in Hfit. lia.
Qed.

(** The outer loop. *)
Lemma pass_loop k : ∀ w s,
  length w = k →
  N.of_nat (length (w ++ s)) ≤ MAX_U64 →
  count_up k (N.of_nat (length s))
    (pass_step (N.of_nat (length (w ++ s)))) (w ++ s)
  = Ok (bubble_passes k w ++ s).
Proof.
  induction k as [|k IH]; intros w s Hk Hfit.
  - by destruct w.
  - destruct w as [|a t]; [done|]. injection Hk as Hk.
    cbn [count_up bubble_passes]. rewrite <- app_comm_cons.
    rewrite pass_step_bubble by done. cbn [mbind result_bind].
    pose proof (bubble_length a t) as Hlen.
    destruct (bubble a t) as [l m]. simpl in Hlen. cbn [fst snd].
    replace (N.of_nat (length (a :: t ++ s)))
      with (N.of_nat (length (l ++ m :: s)))
      by (simpl; rewrite !length_app; simpl; lia).
    replace (N.of_nat (length s) + 1) with (N.of_nat (length (m :: s)))
      by (simpl; lia).
    rewrite IH.
    + by rewrite <- app_assoc.
    + lia.
    + clear IH. rewrite ?length_app in *. simpl in *.
      rewrite ?length_app in *. lia.
Qed.

Lemma bubble_sort_passes values :
  vector_length values ≤ MAX_U64 →
  bubble_sort values = Ok (bubble_passes (length values) values).
Proof.
  intros Hfit. unfold bubble_sort, while_lt, vector_length in *.
  rewrite N.sub_0_r, Nat2N.id.
  pose proof (pass_loop (length values) values [] eq_refl) as Hloop.
  rewrite !app_nil_r in Hloop. by apply Hloop.
Qed.

Lemma bubble_passes_Permutation k : ∀ w, bubble_passes k w ≡ₚ w.
Proof.
  induction k as [|k IH]; intros [|a t]; try done. cbn [bubble_passes].
  pose proof (bubble_Permutation a t) as Hperm.
  destruct (bubble a t) as [l m]. simpl in Hperm. by rewrite IH.
Qed.

Lemma bubble_passes_Sorted k : ∀ w,
  (length w ≤ k)%nat → StronglySorted N.le (bubble_passes k w).
Proof.
  induction k as [|k IH]; intros [|a t] Hk; simpl in Hk;
    try (by constructor); try lia.
  cbn [bubble_passes].
  pose proof (bubble_length a t) as Hlen.
  pose proof (bubble_max a t) as [_ Hmax].
  destruct (bubble a t) as [l m]. simpl in Hlen, Hmax.
  apply StronglySorted_app. split; [|split].
  - intros x1 x2 Hx1 ->%list_elem_of_singleton.
    rewrite bubble_passes_Permutation in Hx1.
    by eapply Forall_forall in Hmax.
  - apply IH. lia.
  - repeat constructor.
Qed.

Lemma even_of_nat (n : nat) : Nat.even n = (N.of_nat n mod 2 =? 0).
Proof.
  change 2 with (N.of_nat 2). rewrite <- Nat2N.inj_mod.
  rewrite <- Nat.bit0_mod, Nat.bit0_odd, <- Nat.negb_even.
  by destruct (Nat.even n).
Qed.

Lemma borrow_nth (values : list N) i :
  (N.to_nat i < length values)%nat →
  borrow values i = Ok (nth (N.to_nat i) values 0).
Proof.
  intros Hi. unfold borrow.
  destruct (values !! N.to_nat i) as [x|] eqn:Hx.
  - by rewrite (nth_lookup_Some _ _ _ _ Hx).
  - apply lookup_ge_None in Hx. lia.
Qed.

(** The median of a sorted, non-empty vector. *)
Lemma median_value_eq values :
  values ≠ [] →
  let n := length values in
  let a := nth (n / 2 - 1)%nat values 0 in
  let b := nth (n / 2)%nat values 0 in
  median_value values =
    if Nat.even n
    then if a + b <=? MAX_U64 then Ok ((a + b) / 2) else Err EOverflow
    else Ok b.
Proof.
  intros Hne n a b. unfold median_value, vector_length. fold n.
  assert (0 < n)%nat as Hn by (subst n; destruct values; simpl; [done|lia]).
  assert (n / 2 < n)%nat as Hhalf by (apply Nat.div_lt; lia).
  unfold rem. cbn [N.eqb mbind result_bind]. rewrite <- even_of_nat.
  rewrite !(div_nonzero _ 2) by done.
  assert (N.to_nat (N.of_nat n / 2) = (n / 2)%nat) as Hh
    by (by rewrite N2Nat.inj_div, Nat2N.id).
  destruct (Nat.even n) eqn:Heven; cbn [mbind result_bind].
  - assert (1 ≤ N.of_nat n / 2) as Hge.
    { apply N.div_le_lower_bound; [done|].
      destruct n as [|[|n']]; [lia|done|lia]. }
    rewrite sub_le by done. cbn [mbind result_bind].
    assert (N.to_nat (N.of_nat n / 2 - 1) = (n / 2 - 1)%nat) as Hp
      by (by rewrite N2Nat.inj_sub, Hh).
    rewrite !borrow_nth by (fold n; lia). rewrite Hp, Hh. fold a b.
    cbn [mbind result_bind]. unfold add64, checked_add.
    destruct (a + b <=? MAX_U64); [|done]. cbn [mbind result_bind].
    by rewrite div_nonzero.
  - rewrite borrow_nth by (fold n; lia). by rewrite Hh.
Qed.

Lemma median_value_inv values m :
  median_value values = Ok m → values ≠ [] ∧ m = median_of_sorted values.
Proof.
  destruct values as [|v values]; [by vm_compute|].
  rewrite median_value_eq by done. unfold median_of_sorted. cbn zeta.
  intros Hm. split; [done|].
  destruct (Nat.even _); [|by injection Hm].
  destruct (_ <=? MAX_U64); [by injection Hm|done].
Qed.

(** The registration check visits every feed. *)
Lemma verify_loop registry location data_type feed_ids :
  while_lt 0 (vector_length feed_ids)
    (verify_step registry location data_type feed_ids) tt = Ok tt ↔
  Forall (feed_registered registry location data_type) feed_ids.
Proof.
  rewrite (while_lt_vector feed_ids _ (λ feed_id _,
    assert (table_contains (feed_authorities registry) feed_id) 3 ≫= λ _,
    table_borrow (feed_types registry) feed_id ≫= λ ty,
    assert (bool_decide (ty = data_type)) 4 ≫= λ _,
    table_borrow (feed_locations registry) feed_id ≫= λ loc,
    assert (bool_decide (loc = location)) 5 ≫= λ _,
    Ok tt)) by done.
  induction feed_ids as [|feed_id feed_ids IH]; cbn [fold_result].
  { split; [constructor|done]. }
  rewrite Forall_cons, <- IH. unfold feed_registered. split.
  - intros Hrun. inv_ok.
    match goal with H : table_contains _ _ = true |- _ =>
      apply table_contains_true in H end.
    unfold table_borrow in *. repeat case_match; simplify_eq.
    rewrite !bool_decide_eq_true in *. subst.
    repeat match goal with u : unit |- _ => destruct u end. done.
  - intros [(Hauth & Hty & Hloc) Hrest].
    apply table_contains_true in Hauth. unfold table_borrow.
    rewrite Hauth, Hty, Hloc. cbn.
    by rewrite !bool_decide_eq_true_2 by done.
Qed.

(** What a run of [aggregate_data] that returns has done. *)
Lemma aggregate_data_inv registry location data_type feed_ids feed_values
    feed_timestamps ctx aggregate event ctx' :
  vector_length feed_values ≤ MAX_U64 →
  aggregate_data registry location data_type feed_ids feed_values
    feed_timestamps ctx = Ok (aggregate, event, ctx') →
  let sorted := bubble_passes (length feed_values) feed_values in
  feed_values ≠ [] ∧
  length feed_ids = length feed_values ∧
  length feed_ids = length feed_timestamps ∧
  Forall (feed_registered registry location data_type) feed_ids ∧
  value aggregate = median_of_sorted sorted ∧
  calculate_confidence sorted (value aggregate) = Ok (confidence aggregate) ∧
  num_sources aggregate = vector_length feed_ids.
Proof.
  intros Hfit. unfold aggregate_data, vector_length in *. intros Hrun.
  rewrite bubble_sort_passes in Hrun by done. inv_ok.
  cbn in Hrun. inv_ok. simplify_eq/=.
  repeat match goal with
  | H : (_ <? _) = true |- _ => apply N.ltb_lt in H
  | H : (_ =? _) = true |- _ => apply N.eqb_eq in H
  | u : unit |- _ => destruct u
  end.
  match goal with H : median_value _ = Ok _ |- _ =>
    apply median_value_inv in H as [Hne ->] end.
  match goal with H : while_lt _ _ _ _ = Ok _ |- _ =>
    apply verify_loop in H end.
  repeat split; try done; try lia.
  intros ->. destruct feed_ids; simpl in *; lia.
Qed.

Lemma nth_bounded (l : list N) (M : N) i :
  Forall (λ v, v ≤ M) l → nth i l 0 ≤ M.
Proof.
  intros Hl. rewrite nth_lookup.
  destruct (l !! i) as [x|] eqn:Hx; simpl; [|lia].
  by eapply Forall_lookup_1 in Hl.
Qed.

Lemma median_of_sorted_bounded (l : list N) (M : N) :
  Forall (λ v, v ≤ M) l → median_of_sorted l ≤ M.
Proof.
  intros Hl. unfold median_of_sorted. cbn zeta.
  destruct (Nat.even _); [|by apply nth_bounded].
  apply N.Div0.div_le_upper_bound.
  pose proof (nth_bounded l M (length l / 2 - 1) Hl).
  pose proof (nth_bounded l M (length l / 2) Hl). lia.
Qed.

Lemma sum_abs_diff_bounded (l : list N) (m M : N) :
  Forall (λ v, v ≤ M) l → m ≤ M →
  sum_N ((λ v, abs_diff v m) <$> l) ≤ N.of_nat (length l) * M.
Proof.
  intros Hl Hm. induction Hl as [|v l Hv Hl IH]; [done|].
  cbn [fmap list_fmap sum_N foldr length].
  fold (sum_N ((λ v, abs_diff v m) <$> l)).
  assert (abs_diff v m ≤ M)
    by (unfold abs_diff; destruct (N.ltb_spec m v); lia).
  lia.
Qed.

(** Readings that are small enough for the arithmetic of the aggregation
    are always aggregated. *)
Lemma aggregate_data_total registry location data_type feed_ids feed_values
    feed_timestamps ctx (M : N) :
  feed_ids ≠ [] →
  length feed_ids = length feed_values →
  length feed_ids = length feed_timestamps →
  Forall (feed_registered registry location data_type) feed_ids →
  Forall (λ v, v ≤ M) feed_values →
  vector_length feed_values * M ≤ MAX_U64 →
  M * 10000 ≤ MAX_U64 →
  vector_length feed_values ≤ MAX_U64 →
  ∃ out,
    aggregate_data registry location data_type feed_ids feed_values
      feed_timestamps ctx = Ok out.
Proof.
  intros Hne Hvalues Htimes Hreg Hbound HnM HM Hfit.
  unfold aggregate_data, vector_length in *.
  destruct (N.ltb_spec 0 (N.of_nat (length feed_ids))) as [_|];
    [|destruct feed_ids; simpl in *; [done|lia]].
  assert ((N.of_nat (length feed_ids) =? N.of_nat (length feed_values))
          = true) as -> by (apply N.eqb_eq; congruence).
  assert ((N.of_nat (length feed_ids) =? N.of_nat (length feed_timestamps))
          = true) as -> by (apply N.eqb_eq; congruence).
  cbn [assert mbind result_bind].
  apply verify_loop in Hreg. unfold vector_length in Hreg. rewrite Hreg.
  cbn [mbind result_bind]. rewrite bubble_sort_passes by done.
  cbn [mbind result_bind].
  set (sorted := bubble_passes (length feed_values) feed_values).
  assert (Forall (λ v, v ≤ M) sorted) as Hsorted
    by (subst sorted; by rewrite bubble_passes_Permutation).
  assert (length sorted = length feed_values) as Hlen
    by (subst sorted; by rewrite bubble_passes_Permutation).
  assert (sorted ≠ []) as Hsne.
  { intros Hs. rewrite Hs in Hlen. destruct feed_values, feed_ids; done. }
  pose proof (median_of_sorted_bounded sorted M Hsorted) as Hmedian.
  pose proof (median_value_eq sorted Hsne) as Heq. cbn zeta in Heq.
  assert (median_value sorted = Ok (median_of_sorted sorted)) as ->.
  { rewrite Heq. unfold median_of_sorted. cbn zeta.
    destruct (Nat.even _); [|done].
    pose proof (nth_bounded sorted M (length sorted / 2 - 1) Hsorted).
    pose proof (nth_bounded sorted M (length sorted / 2) Hsorted).
    destruct (N.leb_spec
      (nth (length sorted / 2 - 1) sorted 0 + nth (length sorted / 2) sorted 0)
      MAX_U64); [done|lia]. }
  cbn [mbind result_bind object_new].
  rewrite calculate_confidence_eq. cbn zeta. unfold vector_length.
  pose proof (sum_abs_diff_bounded sorted (median_of_sorted sorted) M
                Hsorted Hmedian) as Htotal.
  rewrite Hlen in *.
  set (total := sum_N _) in *. set (n := N.of_nat (length feed_values)) in *.
  assert (total / n * 10000 ≤ MAX_U64).
  { assert (total / n ≤ M); [|lia].
    destruct (N.eq_dec n 0) as [->|]; [rewrite N.div_0_r; lia|].
    apply N.Div0.div_le_upper_bound. lia. }
  destruct (N.leb_spec total MAX_U64); [|lia].
  destruct (N.leb_spec (total / n * 10000) MAX_U64); [|lia].
  cbn [negb]. repeat case_match; by eexists.
Qed.

End bubble_sort.

Section aggregation.

Lemma is_median_unique values m1 m2 :
  is_median values m1 → is_median values m2 → m1 = m2.
Proof.
  intros (s1 & Hp1 & Hs1 & ->) (s2 & Hp2 & Hs2 & ->).
  f_equal. apply (Sorted_unique N.le); [done..|]. by rewrite Hp1, Hp2.
Qed.

Lemma bubble_sort_is_median values :
  is_median values
    (median_of_sorted (bubble_passes (length values) values)).
Proof.
  exists (bubble_passes (length values) values).
  split; [apply bubble_passes_Permutation|]. split; [|done].
  by apply StronglySorted_Sorted, bubble_passes_Sorted.
Qed.

(** The first aggregator takes the average. *)
Lemma average_data_inv location data_type values sources ctx aggregate event
    ctx' :
  oracle_aggregator.aggregate_data location data_type values sources ctx
    = Ok (aggregate, event, ctx') →
  values ≠ [] ∧
  length values = length sources ∧
  sum_N values ≤ MAX_U64 ∧
  oracle_aggregator.value aggregate = sum_N values / vector_length values.
Proof.
  unfold oracle_aggregator.aggregate_data. rewrite sum_loop. intros Hrun.
  inv_ok.
  destruct (N.leb_spec (sum_N values) MAX_U64); [|done].
  cbn in Hrun. inv_ok. simplify_eq/=.
  repeat match goal with
  | H : (_ <? _) = true |- _ => apply N.ltb_lt in H
  | H : (_ =? _) = true |- _ => apply N.eqb_eq in H
  end.
  unfold vector_length in *. repeat split; try done; try lia.
  intros ->. simpl in *. lia.
Qed.

Lemma average_data_total location data_type values sources ctx :
  values ≠ [] →
  length values = length sources →
  sum_N values ≤ MAX_U64 →
  check_utf8 location = true →
  check_utf8 data_type = true →
  ∃ out,
    oracle_aggregator.aggregate_data location data_type values sources ctx
    = Ok out.
Proof.
  intros Hne Hlen Hsum Hlocation Hdata_type.
  unfold oracle_aggregator.aggregate_data.
  rewrite sum_loop. unfold vector_length. rewrite <- Hlen, N.eqb_refl.
  destruct (N.ltb_spec 0 (N.of_nat (length values)));
    [|destruct values; simpl in *; [done|lia]].
  apply N.leb_le in Hsum as ->. cbn [assert mbind result_bind].
  rewrite div_nonzero by lia. cbn [mbind result_bind object_new].
  rewrite !utf8_valid by done. by eexists.
Qed.

(** The names of an aggregate that was returned are well-formed. *)
Lemma average_data_valid location data_type values sources ctx out :
  oracle_aggregator.aggregate_data location data_type values sources ctx
    = Ok out →
  check_utf8 location = true ∧ check_utf8 data_type = true.
Proof.
  unfold oracle_aggregator.aggregate_data, object_new. intros Hrun. inv_ok.
  done.
Qed.

(** C6, as the code has it.  A batch that [switchboard_oracle] aggregates
    is not empty and its aggregate value is the median of the readings: with
    the values sorted, the middle one for an odd count and the average of the
    two middle ones, rounded down, for an even count.  A batch that
    [oracle_aggregator] aggregates is not empty and its aggregate value is
    the mean of the readings, rounded down. *)
Theorem aggregate_value_median_or_mean :
  (∀ registry location data_type feed_ids feed_values feed_timestamps ctx
     aggregate event ctx',
     vector_length feed_values ≤ MAX_U64 →
     switchboard_oracle.aggregate_data registry location data_type feed_ids
       feed_values feed_timestamps ctx = Ok (aggregate, event, ctx') →
     feed_values ≠ [] ∧
     is_median feed_values (switchboard_oracle.value aggregate)) ∧
  (∀ location data_type values sources ctx aggregate event ctx',
     oracle_aggregator.aggregate_data location data_type values sources ctx
       = Ok (aggregate, event, ctx') →
     values ≠ [] ∧
     oracle_aggregator.value aggregate
       = sum_N values / vector_length values).
Proof.
  split.
  - intros registry location data_type feed_ids feed_values feed_timestamps
      ctx aggregate event ctx' Hfit Hrun.
    apply aggregate_data_inv in Hrun as (Hne & _ & _ & _ & -> & _);
      [|done].
    split; [done|]. apply bubble_sort_is_median.
  - intros location data_type values sources ctx aggregate event ctx' Hrun.
    by apply average_data_inv in Hrun as (Hne & _ & _ & ->).
Qed.

Lemma aggregate_value_median_or_mean_witness :
  ∃ aggregate event ctx',
    switchboard_oracle.aggregate_data rainfall_registry "east-africa"
      "rainfall" [1; 2; 3] [30; 10; 20] [5; 5; 6] (mkTxContext 9 6 0)
    = Ok (aggregate, event, ctx') ∧
    switchboard_oracle.value aggregate = 20 ∧
    is_median [30; 10; 20] (switchboard_oracle.value aggregate).
Proof.
  destruct (switchboard_oracle.aggregate_data rainfall_registry "east-africa"
              "rainfall" [1; 2; 3] [30; 10; 20] [5; 5; 6]
              (mkTxContext 9 6 0))
    as [[[aggregate event] ctx']|e] eqn:Hrun; [|by vm_compute in Hrun].
  exists aggregate, event, ctx'. split; [reflexivity|]. split.
  - vm_compute in Hrun. by injection Hrun as <- _ _.
  - apply (proj1 aggregate_value_median_or_mean rainfall_registry
             "east-africa" "rainfall" [1; 2; 3] [30; 10; 20] [5; 5; 6]
             (mkTxContext 9 6 0) aggregate event ctx').
    + by vm_compute.
    + exact Hrun.
Defined.

(** C6 as stated fails for [oracle_aggregator]: the readings 1, 2 and 9
    have median 2 and are aggregated to their mean 4. *)
Lemma average_is_not_median :
  oracle_aggregator.aggregate_data "east-africa" "rainfall" [1; 2; 9]
    [41; 42; 43] (mkTxContext 9 6 0)
  = Ok (oracle_aggregator.mkAggregatedData 0 "east-africa" "rainfall" 4 6 3,
        oracle_aggregator.mkDataAggregated "east-africa" "rainfall" 4 3,
        mkTxContext 9 6 1) ∧
  is_median [1; 2; 9] 2 ∧
  ¬ is_median [1; 2; 9] 4.
Proof.
  assert (is_median [1; 2; 9] 2) as Hmedian.
  { exists [1; 2; 9]. split; [done|]. split; [|done].
    repeat constructor; by vm_compute. }
  split; [by vm_compute|]. split; [done|].
  intros Hmean. by pose proof (is_median_unique _ _ _ Hmedian Hmean).
Qed.

End aggregation.

(** * Further properties *)

(** ** Liquidity pool: withdrawals and the share ledger *)

Section pool_withdrawals.
Import liquidity_pool.

Lemma ledger_total_insert_fresh (ledger : gmap N N) provider held :
  ledger !! provider = None →
  ledger_total (<[provider := held]> ledger) = held + ledger_total ledger.
Proof.
  intros Hfresh. unfold ledger_total.
  rewrite map_fold_insert_L; [done| |done]. intros. lia.
Qed.

Lemma ledger_total_delete (ledger : gmap N N) provider held :
  ledger !! provider = Some held →
  ledger_total ledger = held + ledger_total (delete provider ledger).
Proof.
  intros Hheld. unfold ledger_total.
  rewrite (map_fold_delete_L _ _ provider held); [done| |done]. intros. lia.
Qed.

Lemma ledger_total_insert (ledger : gmap N N) provider held held' :
  ledger !! provider = Some held →
  ledger_total (<[provider := held']> ledger) + held
  = held' + ledger_total ledger.
Proof.
  intros Hheld. rewrite (ledger_total_delete ledger provider held) by done.
  rewrite <- insert_delete_eq.
  rewrite ledger_total_insert_fresh by apply lookup_delete_eq. lia.
Qed.

Lemma ledger_entry_le_total (ledger : gmap N N) provider held :
  ledger !! provider = Some held → held ≤ ledger_total ledger.
Proof.
  intros Hheld. rewrite (ledger_total_delete ledger provider held) by done.
  lia.
Qed.

Lemma remove_liquidity_inv pool lp_token ctx pool' coin event :
  remove_liquidity pool lp_token ctx = Ok (pool', coin, event) →
  let amount :=
    shares lp_token * total_liquidity pool / total_shares pool in
  ∃ held,
    lp_owner lp_token = sender ctx ∧
    lp_shares pool !! lp_owner lp_token = Some held ∧
    shares lp_token ≤ held ∧
    shares lp_token ≤ total_shares pool ∧
    total_shares pool ≠ 0 ∧
    amount ≤ total_liquidity pool ∧
    coin_value coin = amount ∧
    total_liquidity pool' = total_liquidity pool - amount ∧
    total_shares pool' = total_shares pool - shares lp_token ∧
    lp_shares pool' =
      <[lp_owner lp_token := held - shares lp_token]> (lp_shares pool) ∧
    event = mkLiquidityRemoved (lp_owner lp_token) amount (shares lp_token).
Proof.
  unfold remove_liquidity, coin_take, balance_split, table_borrow, table_set.
  intros Hrun. inv_ok.
  destruct (lp_shares pool !! lp_owner lp_token) as [held|] eqn:Hheld;
    [|done].
  inv_ok. subst.
  match goal with H : bool_decide _ = true |- _ =>
    apply bool_decide_eq_true in H end.
  destruct (N.leb_spec
    (shares lp_token * total_liquidity pool / total_shares pool)
    (total_liquidity pool)); [|done].
  cbn in *. inv_ok. simplify_eq/=. eexists. repeat split; done.
Qed.

(** X1. A withdrawal that the pool accepts comes from the owner of the
    token, whose ledger entry covers the token's shares.  It pays
    [shares * total_liquidity / total_shares] (truncated), which the pool
    always holds, takes that amount off the liquidity and the shares off the
    owner's entry and off [total_shares], and leaves every other entry
    alone. *)
Theorem remove_liquidity_accounting pool lp_token ctx pool' coin event :
  remove_liquidity pool lp_token ctx = Ok (pool', coin, event) →
  let amount :=
    shares lp_token * total_liquidity pool / total_shares pool in
  lp_owner lp_token = sender ctx ∧
  coin_value coin = amount ∧
  amount ≤ total_liquidity pool ∧
  total_liquidity pool' + amount = total_liquidity pool ∧
  total_shares pool' + shares lp_token = total_shares pool ∧
  (∃ held,
     lp_shares pool !! lp_owner lp_token = Some held ∧
     shares lp_token ≤ held ∧
     lp_shares pool' !! lp_owner lp_token = Some (held - shares lp_token)) ∧
  (∀ other, other ≠ lp_owner lp_token →
     lp_shares pool' !! other = lp_shares pool !! other).
Proof.
  intros Hrun amount.
  apply remove_liquidity_inv in Hrun
    as (held & Hown & Hheld & Hle & HleT & _ & Hamount & Hcoin & Hliq & Htot
        & Hledger & _).
  fold amount in Hamount, Hcoin, Hliq. rewrite Hliq, Htot, Hledger.
  repeat split; try done; try lia.
  - exists held. by rewrite lookup_insert_eq.
  - intros other Hother. by rewrite lookup_insert_ne.
Qed.

Lemma remove_liquidity_accounting_witness :
  ∃ pool' coin event,
    remove_liquidity (mkPool 15000 {[ 1 := 10000; 2 := 5000 ]} 15000)
      (mkLPToken 8 2 5000) (mkTxContext 2 4 0) = Ok (pool', coin, event) ∧
    coin_value coin = 5000 * 15000 / 15000 ∧
    total_shares pool' + 5000 = 15000.
Proof.
  destruct (remove_liquidity (mkPool 15000 {[ 1 := 10000; 2 := 5000 ]} 15000)
              (mkLPToken 8 2 5000) (mkTxContext 2 4 0))
    as [[[pool' coin] event]|e] eqn:Hrun; [|by vm_compute in Hrun].
  exists pool', coin, event. split; [reflexivity|].
  destruct (remove_liquidity_accounting _ _ _ _ _ _ Hrun)
    as (_ & Hcoin & _ & _ & Htot & _).
  split; [exact Hcoin | exact Htot].
Defined.

(** X2. On a pool whose ledger adds up to [total_shares], the owner of a
    token with a positive number of shares that the owner's ledger entry
    covers can always withdraw, as long as [shares * total_liquidity] fits
    [u64]: the pool never lacks the liquidity to pay a withdrawal. *)
Theorem remove_liquidity_succeeds pool lp_token ctx held :
  shares_accounted pool →
  lp_owner lp_token = sender ctx →
  lp_shares pool !! lp_owner lp_token = Some held →
  0 < shares lp_token →
  shares lp_token ≤ held →
  shares lp_token * total_liquidity pool ≤ MAX_U64 →
  ∃ pool' coin event,
    remove_liquidity pool lp_token ctx = Ok (pool', coin, event) ∧
    coin_value coin ≤ total_liquidity pool.
Proof.
  intros Hacc Hown Hheld Hpos Hle Hfit.
  pose proof (ledger_entry_le_total _ _ _ Hheld) as Htotal.
  rewrite Hacc in Htotal.
  assert (shares lp_token * total_liquidity pool / total_shares pool
          ≤ total_liquidity pool) as Hamount.
  { apply N.Div0.div_le_upper_bound. nia. }
  unfold remove_liquidity, coin_take, balance_split, table_borrow, table_set.
  rewrite Hown, bool_decide_eq_true_2 by done. rewrite <- Hown, Hheld.
  cbn [assert mbind result_bind]. rewrite mul64_fits by done.
  cbn [mbind result_bind]. rewrite div_nonzero by lia.
  cbn [mbind result_bind]. rewrite !sub_le by lia.
  cbn [mbind result_bind]. apply N.leb_le in Hamount as Hb. rewrite Hb.
  cbn. by eexists _, _, _.
Qed.

Lemma remove_liquidity_succeeds_witness :
  ∃ pool' coin event,
    remove_liquidity (mkPool 9000 {[ 1 := 10000; 2 := 5000 ]} 15000)
      (mkLPToken 8 2 5000) (mkTxContext 2 4 0) = Ok (pool', coin, event) ∧
    coin_value coin ≤ 9000.
Proof.
  apply (remove_liquidity_succeeds
           (mkPool 9000 {[ 1 := 10000; 2 := 5000 ]} 15000)
           (mkLPToken 8 2 5000) (mkTxContext 2 4 0) 5000).
  - by vm_compute.
  - reflexivity.
  - by vm_compute.
  - by vm_compute.
  - by vm_compute.
  - by vm_compute.
Defined.

Lemma add_liquidity_accounted pool coin ctx pool' token event ctx' :
  shares_accounted pool →
  add_liquidity pool coin ctx = Ok (pool', token, event, ctx') →
  shares_accounted pool'.
Proof.
  unfold shares_accounted. intros Hacc Hrun.
  apply add_liquidity_inv in Hrun as (_ & _ & _ & Hledger & Htotal).
  cbn zeta in *. rewrite Hledger, Htotal, <- Hacc.
  destruct (lp_shares pool !! sender ctx) as [held|] eqn:Hheld; cbn.
  - pose proof (ledger_total_insert (lp_shares pool) (sender ctx) held
                  (held + shares_for_deposit pool (coin_value coin)) Hheld).
    lia.
  - rewrite ledger_total_insert_fresh by done. lia.
Qed.

Lemma remove_liquidity_accounted pool lp_token ctx pool' coin event :
  shares_accounted pool →
  remove_liquidity pool lp_token ctx = Ok (pool', coin, event) →
  shares_accounted pool'.
Proof.
  unfold shares_accounted. intros Hacc Hrun.
  apply remove_liquidity_inv in Hrun
    as (held & _ & Hheld & Hle & HleT & _ & _ & _ & _ & Htotal & Hledger & _).
  rewrite Hledger, Htotal, <- Hacc.
  pose proof (ledger_total_insert (lp_shares pool) (lp_owner lp_token) held
                (held - shares lp_token) Hheld).
  pose proof (ledger_entry_le_total _ _ _ Hheld). lia.
Qed.

(** X3. The share ledger always adds up: from a new pool, after any
    sequence of deposits and withdrawals, committed or aborted, the shares
    recorded for the providers sum to [total_shares]. *)
Theorem pool_shares_accounted ctx txs :
  shares_accounted (run_pool_calls (create_pool ctx).1 txs).
Proof.
  assert (∀ pool, shares_accounted pool →
            shares_accounted (run_pool_calls pool txs)) as Hrun.
  { unfold run_pool_calls.
    induction txs as [|[call ctx1] txs IH]; intros pool Hacc; [done|].
    cbn [foldl]. apply IH. unfold commit_pool_call. cbn [fst snd].
    destruct call as [coin|lp_token].
    - destruct (add_liquidity pool coin ctx1) as [[[[pool' ?] ?] ?]|]
        eqn:Hcall; [|done].
      by eapply add_liquidity_accounted.
    - destruct (remove_liquidity pool lp_token ctx1) as [[[pool' ?] ?]|]
        eqn:Hcall; [|done].
      by eapply remove_liquidity_accounted. }
  apply Hrun. by vm_compute.
Qed.

(** X4. Depositing and withdrawing at once is never a gain on a pool with
    outstanding shares: the coin returned for the token just issued is at
    most the coin deposited.  On a pool without outstanding shares the
    depositor is the only shareholder and the withdrawal returns the
    deposit together with whatever liquidity the pool still held. *)
Theorem deposit_then_withdraw pool coin ctx pool1 token event1 ctx1 ctx2
    pool2 returned event2 :
  add_liquidity pool coin ctx = Ok (pool1, token, event1, ctx1) →
  remove_liquidity pool1 token ctx2 = Ok (pool2, returned, event2) →
  (total_shares pool ≠ 0 → coin_value returned ≤ coin_value coin) ∧
  (total_shares pool = 0 →
     coin_value returned = total_liquidity pool + coin_value coin ∧
     total_liquidity pool2 = 0 ∧ total_shares pool2 = 0).
Proof.
  intros Hadd Hremove.
  apply add_liquidity_inv in Hadd as (Hs & _ & Hliq & _ & Htot).
  apply remove_liquidity_inv in Hremove
    as (held & _ & _ & _ & _ & Hnz & Hamount & Hcoin & Hliq2 & Htot2 & _).
  cbn zeta in *. unfold shares_for_deposit in *.
  rewrite Hcoin, Hliq2, Htot2, Hliq, Htot, Hs in *. clear Hcoin Hliq2 Htot2.
  set (a := coin_value coin) in *. set (L := total_liquidity pool) in *.
  set (T := total_shares pool) in *.
  split.
  - intros HT. apply N.eqb_neq in HT as HTb. rewrite HTb in *.
    apply N.Div0.div_le_upper_bound.
    pose proof (N.Div0.mul_div_le (a * T) L). nia.
  - intros HT. rewrite HT in *. cbn in *. rewrite N.add_0_l in *.
    assert (a * (L + a) / a = L + a) as ->.
    { rewrite N.mul_comm. by apply N.div_mul. }
    lia.
Qed.

Lemma deposit_then_withdraw_witness :
  ∃ pool1 token event1 ctx1 pool2 returned event2,
    add_liquidity (mkPool 9000 {[ 1 := 10000 ]} 10000) (mkCoin 1000)
      (mkTxContext 2 4 0) = Ok (pool1, token, event1, ctx1) ∧
    remove_liquidity pool1 token (mkTxContext 2 5 0)
      = Ok (pool2, returned, event2) ∧
    coin_value returned ≤ 1000.
Proof.
  destruct (add_liquidity (mkPool 9000 {[ 1 := 10000 ]} 10000) (mkCoin 1000)
              (mkTxContext 2 4 0))
    as [[[[pool1 token] event1] ctx1]|e] eqn:Hadd; [|by vm_compute in Hadd].
  destruct (remove_liquidity pool1 token (mkTxContext 2 5 0))
    as [[[pool2 returned] event2]|e] eqn:Hremove.
  - exists pool1, token, event1, ctx1, pool2, returned, event2.
    split; [reflexivity|]. split; [exact Hremove|].
    apply (proj1 (deposit_then_withdraw _ _ _ _ _ _ _ _ _ _ _ Hadd Hremove)).
    by vm_compute.
  - vm_compute in Hadd. injection Hadd as <- <- _ _.
    by vm_compute in Hremove.
Defined.

End pool_withdrawals.

(** ** Risk model: tiers, quotes and factor updates *)

Section risk_quotes.
Import risk_model.

(** One tier of the scan: keep the tier when it is strictly closer. *)
Lemma closest_tier_scan coverage tier (st : N * N) :
  (let '(min_diff, closest_tier) := st in
   (if coverage <? tier then sub tier coverage else sub coverage tier) ≫=
   λ diff, Ok (if diff <? min_diff then (diff, tier)
               else (min_diff, closest_tier)))
  = Ok (if abs_diff tier coverage <? st.1
        then (abs_diff tier coverage, tier) else st).
Proof.
  destruct st as [min_diff closest]. unfold abs_diff. cbn [fst].
  destruct (N.ltb_spec coverage tier); by rewrite sub_le by lia.
Qed.

Lemma closest_tier_fold coverage tiers (st : N * N) :
  fold_result (λ tier (st : N * N),
    let '(min_diff, closest_tier) := st in
    (if coverage <? tier then sub tier coverage else sub coverage tier) ≫=
    λ diff, Ok (if diff <? min_diff then (diff, tier)
                else (min_diff, closest_tier))) tiers st
  = Ok (foldl (λ st tier,
          if abs_diff tier coverage <? st.1
          then (abs_diff tier coverage, tier) else st) st tiers).
Proof.
  revert st. induction tiers as [|tier tiers IH]; intros st; [done|].
  cbn [fold_result foldl]. rewrite closest_tier_scan.
  cbn [mbind result_bind]. apply IH.
Qed.

(** Case analysis on the next comparison of the goal, dropping the cases
    that the known bounds exclude. *)
Ltac split_if :=
  match goal with
  | |- context [if ?b then _ else _] =>
      lazymatch b with
      | context [if _ then _ else _] => fail
      | (?x <? ?y) => destruct (N.ltb_spec x y)
      | (?x <=? ?y) => destruct (N.leb_spec x y)
      end
  end; cbn [fst snd] in *; try (exfalso; lia).

(** The scan of the five tiers, written out. *)
Lemma nearest_tier_eq coverage :
  nearest_tier coverage =
    if coverage <=? 3000 then 1000
    else if coverage <=? 7500 then 5000
    else if coverage <=? 30000 then 10000
    else if coverage <=? 75000 then 50000
    else if coverage <? 1000100000 then 100000
    else 10000.
Proof.
  unfold nearest_tier.
  rewrite (while_lt_vector coverage_tiers _ (λ tier (st : N * N),
    let '(min_diff, closest_tier) := st in
    (if coverage <? tier then sub tier coverage else sub coverage tier) ≫=
    λ diff, Ok (if diff <? min_diff then (diff, tier)
                else (min_diff, closest_tier))))
    by (by intros i [min_diff closest]).
  rewrite closest_tier_fold. cbn [foldl coverage_tiers]. unfold abs_diff.
  repeat split_if; done.
Qed.

(** X5. Tier selection of a quote.  For a coverage amount below
    1,000,100,000 the selected tier is one of the five tiers, no tier is
    closer to the coverage amount, and among equally close tiers it is the
    smallest.  From 1,000,100,000 on every tier is further away than the
    initial bound of the scan and the selection falls back to 10000. *)
Theorem nearest_tier_selection coverage :
  (coverage < 1000100000 →
   nearest_tier coverage ∈ coverage_tiers ∧
   ∀ tier, tier ∈ coverage_tiers →
     abs_diff (nearest_tier coverage) coverage ≤ abs_diff tier coverage ∧
     (abs_diff tier coverage = abs_diff (nearest_tier coverage) coverage →
      nearest_tier coverage ≤ tier)) ∧
  (1000100000 ≤ coverage → nearest_tier coverage = 10000).
Proof.
  rewrite nearest_tier_eq. split.
  - intros Hsmall. split.
    + unfold coverage_tiers.
      repeat split_if; apply list_elem_of_In; simpl; tauto.
    + intros tier Htier. unfold coverage_tiers in Htier.
      assert (tier = 1000 ∨ tier = 5000 ∨ tier = 10000 ∨ tier = 50000
              ∨ tier = 100000) as Hcases
        by (apply list_elem_of_In in Htier; simpl in Htier; intuition).
      clear Htier. unfold abs_diff.
      destruct Hcases as [->|[->|[->|[->| ->]]]]; repeat split_if; lia.
  - intros Hlarge. repeat split_if; done.
Qed.

Lemma nearest_tier_selection_witness :
  nearest_tier 7500 ∈ coverage_tiers ∧
  abs_diff (nearest_tier 7500) 7500 ≤ abs_diff 10000 7500 ∧
  nearest_tier 7500 ≤ 10000.
Proof.
  destruct (proj1 (nearest_tier_selection 7500)) as [Hin Hnear];
    [by vm_compute|].
  destruct (Hnear 10000) as [Hle Htie];
    [apply list_elem_of_In; simpl; tauto|].
  split; [exact Hin|]. split; [exact Hle|]. apply Htie. by vm_compute.
Defined.

(** X6. Every quote that [calculate_premium] returns is for a non-zero
    coverage amount and follows the premium formulas: the base premium is
    [coverage * rate / 10000], each adjustment is
    [base * factor / 100 - base] for the factor looked up (100 when the
    model has no entry; the month is taken as January outside 1..12; the
    coverage factor is that of the selected tier), the final premium is the
    base premium plus the four adjustments, and the daily funding rate is
    [final * 10000 / (coverage * 365)].  On a positive base premium none of
    the four factors is below 100. *)
Theorem premium_quote_formulas model location peril_type coverage month pid
    q :
  calculate_premium model location peril_type coverage month pid = Ok q →
  let base := coverage * base_premium_rate model / 10000 in
  let lf := default 100 (location_factors model !! location) in
  let pf := default 100 (peril_factors model !! peril_type) in
  let sf := default 100 (seasonal_factors model !!
              if (1 <=? month) && (month <=? 12) then month else 1) in
  let cf := default 100 (coverage_factors model !! nearest_tier coverage) in
  coverage ≠ 0 ∧
  base_premium q = base ∧
  location_adjustment q = base * lf / 100 - base ∧
  peril_adjustment q = base * pf / 100 - base ∧
  seasonal_adjustment q = base * sf / 100 - base ∧
  coverage_adjustment q = base * cf / 100 - base ∧
  final_premium q
    = base + location_adjustment q + peril_adjustment q
      + seasonal_adjustment q + coverage_adjustment q ∧
  funding_rate q = final_premium q * 10000 / (coverage * 365) ∧
  base_premium q ≤ final_premium q ∧
  (0 < base → 100 ≤ lf ∧ 100 ≤ pf ∧ 100 ≤ sf ∧ 100 ≤ cf).
Proof.
  intros Hrun. pose proof (calculate_premium_no_discount _ _ _ _ _ _ _ Hrun)
    as Hfactors.
  apply calculate_premium_inv in Hrun
    as (Hb & Hl & _ & Hp & _ & Hs & _ & Hc & _ & Hf & Hr & Hne).
  cbn zeta in *. rewrite Hb in Hfactors. rewrite Hl, Hp, Hs, Hc.
  split; [done|]. split; [done|]. do 4 (split; [done|]).
  split; [done|]. split; [done|]. split; [rewrite Hf, Hb; lia|].
  exact Hfactors.
Qed.

Lemma premium_quote_formulas_witness :
  ∃ q,
    calculate_premium default_risk_model "southeast-asia" "flood" 4000 8
      None = Ok q ∧
    base_premium q = 4000 * 500 / 10000 ∧
    final_premium q = 560.
Proof.
  destruct (calculate_premium default_risk_model "southeast-asia" "flood"
              4000 8 None) as [q|e] eqn:Hrun; [|by vm_compute in Hrun].
  exists q. split; [reflexivity|].
  destruct (premium_quote_formulas _ _ _ _ _ _ _ Hrun) as (_ & Hb & _).
  split; [exact Hb|]. vm_compute in Hrun. by injection Hrun as <-.
Defined.
(** X7. Quotes within the usual ranges are always produced: a coverage
    amount between 1 and 10^9, a base rate of at most 10000 basis points and
    factors between 100 and 1000 (missing entries count as 100) never
    overflow. *)
Theorem calculate_premium_succeeds model location peril_type coverage month
    pid :
  let in_range factor := 100 ≤ factor ≤ 1000 in
  0 < coverage ≤ 1000000000 →
  base_premium_rate model ≤ 10000 →
  in_range (default 100 (location_factors model !! location)) →
  in_range (default 100 (peril_factors model !! peril_type)) →
  in_range (default 100 (seasonal_factors model !!
              if (1 <=? month) && (month <=? 12) then month else 1)) →
  in_range (default 100 (coverage_factors model !! nearest_tier coverage)) →
  ∃ q, calculate_premium model location peril_type coverage month pid = Ok q.
Proof.
  intros in_range Hcoverage Hrate Hlf Hpf Hsf Hcf. subst in_range.
  unfold nearest_tier in Hcf. unfold calculate_premium.
  rewrite !factor_lookup. cbn [mbind result_bind].
  destruct (while_lt 0 (vector_length coverage_tiers)
              (closest_tier_step coverage) (1000000000, 10000))
    as [[min_diff tier]|e] eqn:Hscan.
  2:{       rewrite (while_lt_vector coverage_tiers _ (λ tier (st : N * N),
        let '(min_diff, closest_tier) := st in
        (if coverage <? tier then sub tier coverage
         else sub coverage tier) ≫=
        λ diff, Ok (if diff <? min_diff then (diff, tier)
                    else (min_diff, closest_tier))))
        in Hscan by (by intros i [? ?]).
      by rewrite closest_tier_fold in Hscan. }
  cbn [mbind result_bind]. rewrite factor_lookup. cbn [mbind result_bind].
  set (lf := default 100 (location_factors model !! location)) in *.
  set (pf := default 100 (peril_factors model !! peril_type)) in *.
  set (sf := default 100 (seasonal_factors model !! _)) in *.
  set (cf := default 100 (coverage_factors model !! tier)) in *.
  set (rate := base_premium_rate model) in *.
  assert (coverage * rate ≤ 10000000000000) by nia.
  eexists.
  rewrite (mul64_fits coverage rate) by (unfold MAX_U64; lia).
  cbn [mbind result_bind].
  rewrite (div_nonzero (coverage * rate)) by done. cbn [mbind result_bind].
  set (base := coverage * rate / 10000).
  assert (base ≤ 1000000000) as Hbase
    by (subst base; apply N.Div0.div_le_upper_bound; lia).
  assert (∀ f, 100 ≤ f ≤ 1000 →
            base ≤ base * f / 100 ∧ base * f / 100 ≤ 10000000000 ∧
            base * f ≤ MAX_U64) as Hadj.
  { intros f Hf. split; [|split].
    - apply N.div_le_lower_bound; [done|nia].
    - apply N.Div0.div_le_upper_bound. nia.
    - unfold MAX_U64. nia. }
  destruct (Hadj lf Hlf) as (? & ? & ?), (Hadj pf Hpf) as (? & ? & ?),
    (Hadj sf Hsf) as (? & ? & ?), (Hadj cf Hcf) as (? & ? & ?).
  repeat (lazymatch goal with
    | |- (mul64 ?a ?b ≫= _) = _ =>
        rewrite (mul64_fits a b) by (unfold MAX_U64 in *; lia)
    | |- (div ?a ?b ≫= _) = _ => rewrite (div_nonzero a b) by lia
    | |- (sub ?a ?b ≫= _) = _ => rewrite (sub_le a b) by lia
    | |- (add64 ?a ?b ≫= _) = _ =>
        rewrite (add64_fits a b) by (unfold MAX_U64 in *; lia)
    end; cbn [mbind result_bind]).
  reflexivity.
Qed.

Lemma calculate_premium_succeeds_witness :
  ∃ q,
    calculate_premium default_risk_model "south-pacific" "wind" 10000 6 None
    = Ok q.
Proof.
  apply (calculate_premium_succeeds default_risk_model "south-pacific"
           "wind" 10000 6 None); by vm_compute.
Defined.

(** X8. Only the creator of a risk model can change a location factor;
    anyone else is refused with abort code 0.  The creator's location bytes
    must be well-formed UTF-8: if they are not, the conversion to a String
    aborts the update.  Otherwise the update is an upsert: the location
    then has the new factor whether or not it had one, no other location
    and no other table or rate changes, and every later quote for that
    location is adjusted by the new factor. *)
Theorem update_location_factor_upsert model location factor ctx :
  (created_by model ≠ sender ctx →
   update_location_factor model location factor ctx = Err (EAssert 0)) ∧
  (created_by model = sender ctx →
   check_utf8 location = false →
   update_location_factor model location factor ctx = Err EInvalidUtf8) ∧
  (created_by model = sender ctx →
   check_utf8 location = true →
   ∃ model' event,
     update_location_factor model location factor ctx = Ok (model', event) ∧
     location_factors model' !! location = Some factor ∧
     (∀ other, other ≠ location →
        location_factors model' !! other = location_factors model !! other) ∧
     peril_factors model' = peril_factors model ∧
     seasonal_factors model' = seasonal_factors model ∧
     coverage_factors model' = coverage_factors model ∧
     base_premium_rate model' = base_premium_rate model ∧
     created_by model' = created_by model ∧
     last_updated model' = epoch ctx ∧
     ∀ peril_type coverage month pid q,
       calculate_premium model' location peril_type coverage month pid
         = Ok q →
       location_adjustment q
       = base_premium q * factor / 100 - base_premium q).
Proof.
  unfold update_location_factor. split; [|split]; intros Hcreator.
  - by rewrite bool_decide_eq_false_2.
  - intros Hinvalid. rewrite bool_decide_eq_true_2 by done.
    cbn [assert mbind result_bind]. by rewrite utf8_invalid.
  - intros Hvalid. rewrite bool_decide_eq_true_2 by done.
    cbn [assert mbind result_bind]. rewrite utf8_valid by done.
    cbn [mbind result_bind].
    assert ((if table_contains (location_factors model) location
             then table_set (location_factors model) location factor
             else table_add (location_factors model) location factor)
            = Ok (<[location := factor]> (location_factors model))) as ->.
    { destruct (table_contains _ _) eqn:Hc.
      - apply table_contains_true in Hc as [old Hold].
        unfold table_set. by rewrite Hold.
      - apply table_contains_false in Hc. unfold table_add. by rewrite Hc. }
    cbn [mbind result_bind]. eexists _, _. split; [reflexivity|]. cbn.
    split; [apply lookup_insert_eq|].
    split; [by intros other Hother; rewrite lookup_insert_ne|].
    do 6 (split; [done|]).
    intros peril_type coverage month pid q Hrun.
    apply calculate_premium_inv in Hrun as (-> & -> & _). cbn.
    by rewrite lookup_insert_eq.
Qed.

Lemma update_location_factor_upsert_witness :
  (∃ model' event,
     update_location_factor default_risk_model "sahel" 170
       (mkTxContext 7 9 0) = Ok (model', event) ∧
     location_factors model' !! "sahel"%string = Some 170) ∧
  update_location_factor default_risk_model
    (String (Ascii.ascii_of_N 255) "sahel") 170 (mkTxContext 7 9 0)
  = Err EInvalidUtf8.
Proof.
  pose proof (update_location_factor_upsert default_risk_model "sahel" 170
                (mkTxContext 7 9 0)) as (_ & _ & Hvalid).
  pose proof (update_location_factor_upsert default_risk_model
                (String (Ascii.ascii_of_N 255) "sahel") 170
                (mkTxContext 7 9 0)) as (_ & Hinvalid & _).
  split; [|by apply Hinvalid].
  destruct Hvalid as (model' & event & Hrun & Hfactor & _);
    [reflexivity|by vm_compute|].
  by exists model', event.
Defined.

End risk_quotes.

(** ** Policy manager: the registry and the life of a policy *)

Section policy_registry.
Import policy_manager_enhanced.

Lemma insured_total_insert_fresh (book : gmap N Policy) policy_id policy :
  book !! policy_id = None →
  insured_total (<[policy_id := policy]> book)
  = insured policy + insured_total book.
Proof.
  intros Hfresh. unfold insured_total.
  rewrite map_fold_insert_L; [done| |done]. intros. lia.
Qed.

Lemma insured_total_delete (book : gmap N Policy) policy_id policy :
  book !! policy_id = Some policy →
  insured_total book = insured policy + insured_total (delete policy_id book).
Proof.
  intros Hheld. unfold insured_total.
  rewrite (map_fold_delete_L _ _ policy_id policy); [done| |done].
  intros. lia.
Qed.

Lemma insured_total_insert (book : gmap N Policy) policy_id policy policy' :
  book !! policy_id = Some policy →
  insured_total (<[policy_id := policy']> book) + insured policy
  = insured policy' + insured_total book.
Proof.
  intros Hheld. rewrite (insured_total_delete book policy_id policy) by done.
  rewrite <- insert_delete_eq.
  rewrite insured_total_insert_fresh by apply lookup_delete_eq. lia.
Qed.

Lemma index_policy_inv `{Countable K} (index index' : gmap K (list ID)) key
    policy_id :
  index_policy index key policy_id = Ok index' →
  index' = <[key := default [] (index !! key) ++ [policy_id]]> index.
Proof.
  unfold index_policy, table_borrow, table_set, table_add.
  destruct (table_contains index key) eqn:Hc.
  - apply table_contains_true in Hc as [entries Hentries].
    rewrite Hentries. cbn. by intros [= <-].
  - apply table_contains_false in Hc. rewrite Hc. cbn. by intros [= <-].
Qed.

Lemma index_policy_total `{Countable K} (index : gmap K (list ID)) key
    policy_id :
  index_policy index key policy_id
  = Ok (<[key := default [] (index !! key) ++ [policy_id]]> index).
Proof.
  unfold index_policy, table_borrow, table_set, table_add.
  destruct (table_contains index key) eqn:Hc.
  - apply table_contains_true in Hc as [entries Hentries].
    by rewrite Hentries.
  - apply table_contains_false in Hc. by rewrite Hc.
Qed.

Lemma listed_index `{Countable K} (index : gmap K (list ID)) key policy_id :
  listed (<[key := default [] (index !! key) ++ [policy_id]]> index) key
    policy_id.
Proof.
  eexists. rewrite lookup_insert_eq. split; [done|].
  apply elem_of_app. right. by apply list_elem_of_singleton.
Qed.

Lemma listed_index_mono `{Countable K} (index : gmap K (list ID)) key
    policy_id k other :
  listed index k other →
  listed (<[key := default [] (index !! key) ++ [policy_id]]> index) k other.
Proof.
  intros (entries & Hentries & Hin). unfold listed.
  destruct (decide (k = key)) as [->|Hne].
  - rewrite lookup_insert_eq, Hentries. eexists. split; [done|].
    apply elem_of_app. by left.
  - rewrite lookup_insert_ne by done. by exists entries.
Qed.

(** What a successful [create_policy] leaves behind. *)
Lemma create_policy_inv registry risk_params location coordinates peril
    details coverage threshold operator collateral ctx registry' policy event
    ctx' :
  create_policy registry risk_params location coordinates peril details
    coverage threshold operator collateral ctx
    = Ok (registry', policy, event, ctx') →
  ∃ margin,
    calculate_margin_requirement risk_params location peril coverage
      = Ok margin ∧
    margin ≤ coin_value collateral ∧
    policies registry !! ids_created ctx = None ∧
    policy = mkPolicy (ids_created ctx) (sender ctx) location coordinates
               peril details coverage threshold operator
               (coin_value collateral) margin 0 0 true (epoch ctx)
               (epoch ctx) ∧
    registry' =
      mkPolicyRegistry
        (<[ids_created ctx := sender ctx]> (policies registry))
        (<[sender ctx :=
             default [] (policies_by_owner registry !! sender ctx)
             ++ [ids_created ctx]]> (policies_by_owner registry))
        (<[location :=
             default [] (policies_by_location registry !! location)
             ++ [ids_created ctx]]> (policies_by_location registry))
        (<[peril :=
             default [] (policies_by_peril registry !! peril)
             ++ [ids_created ctx]]> (policies_by_peril registry))
        (total_policies registry + 1)
        (total_coverage registry + coverage) ∧
    total_policies registry + 1 ≤ MAX_U64 ∧
    total_coverage registry + coverage ≤ MAX_U64 ∧
    event = mkPolicyCreated (ids_created ctx) (sender ctx) location peril
              coverage threshold (coin_value collateral) ∧
    ctx' = mkTxContext (sender ctx) (epoch ctx) (ids_created ctx + 1).
Proof.
  unfold create_policy, object_new, table_add. intros Hrun. inv_ok. subst.
  repeat match goal with
  | H : index_policy _ _ _ = Ok _ |- _ =>
      rewrite index_policy_total in H; injection H as <-
  end.
  destruct (policies registry !! ids_created ctx) eqn:Hfresh; [done|].
  simplify_eq/=.
  match goal with H : (_ <=? _) = true |- _ => apply N.leb_le in H end.
  eexists. repeat split; done.
Qed.

(** The names of a policy that was created are well-formed. *)
Lemma create_policy_valid registry risk_params location coordinates peril
    details coverage threshold operator collateral ctx out :
  create_policy registry risk_params location coordinates peril details
    coverage threshold operator collateral ctx = Ok out →
  check_utf8 location = true ∧ check_utf8 peril = true ∧
  check_utf8 details = true.
Proof. unfold create_policy, object_new. intros Hrun. inv_ok. done. Qed.

Lemma create_policy_total registry risk_params location coordinates peril
    details coverage threshold operator collateral ctx margin :
  check_utf8 location = true →
  check_utf8 peril = true →
  check_utf8 details = true →
  calculate_margin_requirement risk_params location peril coverage
    = Ok margin →
  margin ≤ coin_value collateral →
  policies registry !! ids_created ctx = None →
  total_policies registry + 1 ≤ MAX_U64 →
  total_coverage registry + coverage ≤ MAX_U64 →
  ∃ out,
    create_policy registry risk_params location coordinates peril details
      coverage threshold operator collateral ctx = Ok out.
Proof.
  intros Hlocation Hperil Hdetails Hmargin Hcoll Hfresh Hcount Hcov.
  unfold create_policy, object_new. rewrite !utf8_valid by done.
  cbn [mbind result_bind]. rewrite Hmargin, !index_policy_total.
  unfold table_add. cbn [mbind result_bind].
  apply N.leb_le in Hcoll as ->. cbn [assert mbind result_bind].
  cbn [ids_created sender epoch]. rewrite Hfresh. cbn [mbind result_bind].
  rewrite !add64_fits by done. cbn [mbind result_bind]. by eexists.
Qed.

Lemma terminate_policy_registry registry policy ctx registry' policy' coin
    event :
  terminate_policy registry policy ctx
    = Ok (registry', policy', coin, event) →
  owner policy = sender ctx ∧
  active policy = true ∧
  coverage_amount policy ≤ total_coverage registry ∧
  coin_value coin = collateral_balance policy ∧
  policy' =
    set_terminated (set_collateral policy 0 (last_updated policy))
      (epoch ctx) ∧
  registry' =
    mkPolicyRegistry (policies registry) (policies_by_owner registry)
      (policies_by_location registry) (policies_by_peril registry)
      (total_policies registry)
      (total_coverage registry - coverage_amount policy).
Proof.
  unfold terminate_policy, coin_take, balance_split. intros Hrun. inv_ok.
  rewrite N.leb_refl in *. cbn in *. inv_ok. simplify_eq/=.
  match goal with H : bool_decide _ = true |- _ =>
    apply bool_decide_eq_true in H end.
  rewrite N.sub_diag. repeat split; done.
Qed.

Lemma call_policy_terms policy call ctx policy' :
  call_policy policy call ctx = Ok policy' →
  same_terms policy policy' ∧
  funding_rate_paid policy ≤ funding_rate_paid policy' ∧
  funding_rate_received policy ≤ funding_rate_received policy'.
Proof.
  unfold same_terms. intros Hrun.
  destruct call as [coin|amount|rate direction]; cbn in Hrun.
  - unfold add_collateral in Hrun. inv_ok. simplify_eq/=.
    repeat split; done.
  - unfold remove_collateral, coin_take, balance_split in Hrun. inv_ok.
    destruct (amount <=? collateral_balance policy); [|done].
    cbn in *. inv_ok. simplify_eq/=. repeat split; done.
  - unfold process_funding_payment in Hrun. inv_ok.
    destruct direction; inv_ok; simplify_eq/=; repeat split; try done;
      apply N.le_add_r.
Qed.

Lemma commit_call_terms policy tx :
  same_terms policy (commit_call policy tx) ∧
  funding_rate_paid policy ≤ funding_rate_paid (commit_call policy tx) ∧
  funding_rate_received policy
  ≤ funding_rate_received (commit_call policy tx).
Proof.
  unfold commit_call.
  destruct (call_policy policy tx.1 tx.2) as [policy'|] eqn:Hcall.
  - by apply call_policy_terms in Hcall.
  - unfold same_terms. repeat split; done.
Qed.

Lemma commit_call_insured policy tx :
  insured (commit_call policy tx) = insured policy.
Proof.
  destruct (commit_call_terms policy tx) as [Hterms _].
  unfold same_terms in Hterms. unfold insured.
  destruct Hterms as (_ & _ & _ & _ & _ & _ & -> & _ & _ & _ & -> & _).
  done.
Qed.

Lemma commit_registry_call_accounted book tx :
  registry_accounted book →
  registry_accounted (commit_registry_call book tx).
Proof.
  intros [Howner Hknown Hlisted Hcoverage Hcount].
  destruct tx as [[risk_params location coordinates peril details coverage
                     threshold operator collateral|policy_id|policy_id call]
                    ctx];
    unfold commit_registry_call; cbn [fst snd].
  - destruct (create_policy _ _ _ _ _ _ _ _ _ _ _)
      as [[[[registry policy] event] ctx']|] eqn:Hrun; [|done].
    apply create_policy_inv in Hrun
      as (margin & _ & _ & Hfresh & -> & -> & _ & _ & _ & _).
    assert (book_policies book !! ids_created ctx = None) as Hnew.
    { apply eq_None_not_Some. intros [policy Hpolicy].
      apply Howner in Hpolicy as [_ Hpolicy]. congruence. }
    split; cbn [book_registry book_policies policies policies_by_owner
                policies_by_location policies_by_peril total_policies
                total_coverage].
    + intros policy_id policy.
      destruct (decide (policy_id = ids_created ctx)) as [->|Hne].
      * rewrite !lookup_insert_eq. by intros [= <-].
      * rewrite !lookup_insert_ne by done. apply Howner.
    + intros policy_id.
      destruct (decide (policy_id = ids_created ctx)) as [->|Hne].
      * rewrite !lookup_insert_eq. by eexists.
      * rewrite !lookup_insert_ne by done. apply Hknown.
    + intros policy_id policy.
      destruct (decide (policy_id = ids_created ctx)) as [->|Hne].
      * rewrite lookup_insert_eq. intros [= <-]. cbn.
        repeat split; apply listed_index.
      * rewrite lookup_insert_ne by done. intros Hpolicy.
        apply Hlisted in Hpolicy as (? & ? & ?).
        repeat split; by apply listed_index_mono.
    + rewrite insured_total_insert_fresh by done. rewrite Hcoverage.
      unfold insured. cbn. lia.
    + rewrite map_size_insert_None by done. rewrite Hcount. lia.
  - destruct (book_policies book !! policy_id) as [policy|] eqn:Hpolicy;
      [|done].
    destruct (terminate_policy _ _ _) as [[[[registry policy'] coin] event]|]
      eqn:Hrun; [|done].
    apply terminate_policy_registry in Hrun
      as (_ & Hactive & Hle & _ & -> & ->).
    split; cbn [book_registry book_policies policies policies_by_owner
                policies_by_location policies_by_peril total_policies
                total_coverage].
    + intros other policy2.
      destruct (decide (other = policy_id)) as [->|Hne].
      * rewrite lookup_insert_eq. intros [= <-]. cbn. by apply Howner.
      * rewrite lookup_insert_ne by done. apply Howner.
    + intros other Hother. apply Hknown in Hother.
      destruct (decide (other = policy_id)) as [->|Hne].
      * rewrite lookup_insert_eq. by eexists.
      * by rewrite lookup_insert_ne.
    + intros other policy2.
      destruct (decide (other = policy_id)) as [->|Hne].
      * rewrite lookup_insert_eq. intros [= <-]. cbn. by apply Hlisted.
      * rewrite lookup_insert_ne by done. apply Hlisted.
    + pose proof (insured_total_insert (book_policies book) policy_id policy
        (set_terminated (set_collateral policy 0 (last_updated policy))
           (epoch ctx)) Hpolicy) as Hsum.
      unfold insured in Hsum at 1 2. cbn in Hsum. rewrite Hactive in Hsum.
      rewrite Hcoverage in *. lia.
    + rewrite map_size_insert_Some by done. done.
  - destruct (book_policies book !! policy_id) as [policy|] eqn:Hpolicy;
      [|done].
    destruct (commit_call_terms policy (call, ctx)) as [Hterms _].
    unfold same_terms in Hterms.
    destruct Hterms as (Hid & Hown & Hloc & _ & Hperil & _).
    split; cbn [book_registry book_policies].
    + intros other policy2.
      destruct (decide (other = policy_id)) as [->|Hne].
      * rewrite lookup_insert_eq. intros [= <-]. rewrite Hid, Hown.
        by apply Howner.
      * rewrite lookup_insert_ne by done. apply Howner.
    + intros other Hother. apply Hknown in Hother.
      destruct (decide (other = policy_id)) as [->|Hne].
      * rewrite lookup_insert_eq. by eexists.
      * by rewrite lookup_insert_ne.
    + intros other policy2.
      destruct (decide (other = policy_id)) as [->|Hne].
      * rewrite lookup_insert_eq. intros [= <-]. rewrite Hown, Hloc, Hperil.
        by apply Hlisted.
      * rewrite lookup_insert_ne by done. apply Hlisted.
    + pose proof (insured_total_insert (book_policies book) policy_id policy
        (commit_call policy (call, ctx)) Hpolicy) as Hsum.
      rewrite commit_call_insured in Hsum. rewrite Hcoverage. lia.
    + by rewrite map_size_insert_Some.
Qed.

Lemma run_registry_calls_accounted book txs :
  registry_accounted book → registry_accounted (run_registry_calls book txs).
Proof.
  unfold run_registry_calls. revert book.
  induction txs as [|tx txs IH]; intros book Hinv; [done|].
  cbn [foldl]. by apply IH, commit_registry_call_accounted.
Qed.

Lemma empty_registry_accounted :
  registry_accounted (mkPolicyBook (mkPolicyRegistry ∅ ∅ ∅ ∅ 0 0) ∅).
Proof.
  split; cbn.
  - intros policy_id policy Hpolicy. by rewrite lookup_empty in Hpolicy.
  - intros policy_id [owner Howner]. by rewrite lookup_empty in Howner.
  - intros policy_id policy Hpolicy. by rewrite lookup_empty in Hpolicy.
  - unfold insured_total. by rewrite map_fold_empty.
  - by rewrite map_size_empty.
Qed.

(** X9. The registry that [init] shares, taken through any sequence of
    policy creations, terminations and collateral or funding transactions
    (committed or aborted), agrees with the policies that exist: every
    policy is registered under its identifier with its owner and listed in
    the three indexes, the registry knows no other policy,
    [total_coverage] is the sum of the coverage amounts of the policies
    that are still active, and [total_policies] counts every policy ever
    created, terminated ones included. *)
Theorem registry_totals_accounted ctx registry risk_params ctx' txs :
  init ctx = Ok (registry, risk_params, ctx') →
  let book := run_registry_calls (mkPolicyBook registry ∅) txs in
  registry_accounted book ∧
  get_total_insured_value (book_registry book)
  = insured_total (book_policies book).
Proof.
  intros Hinit book. destruct (init_default ctx) as [ctx2 Hdefault].
  rewrite Hdefault in Hinit. injection Hinit as <- _ _.
  assert (registry_accounted book) as Hbook
    by apply run_registry_calls_accounted, empty_registry_accounted.
  split; [done|]. by destruct Hbook.
Qed.

Lemma registry_totals_accounted_witness :
  let txs :=
    [(CreatePolicy default_risk_parameters "east-africa" [] "drought" ""
        10000 25 0 (mkCoin 3600), mkTxContext 7 1 10);
     (CreatePolicy default_risk_parameters "south-pacific" [] "wind" ""
        2000 90 1 (mkCoin 800), mkTxContext 8 2 20);
     (UpdatePolicy 10 (RemoveCollateral 50), mkTxContext 7 3 30);
     (TerminatePolicy 10, mkTxContext 7 4 40)] in
  let book :=
    run_registry_calls (mkPolicyBook (mkPolicyRegistry ∅ ∅ ∅ ∅ 0 0) ∅) txs in
  (registry_accounted book ∧
   get_total_insured_value (book_registry book)
   = insured_total (book_policies book)) ∧
  get_total_insured_value (book_registry book) = 2000 ∧
  total_policies (book_registry book) = 2.
Proof.
  split; [|by vm_compute].
  apply (registry_totals_accounted (mkTxContext 1 0 0) _
           default_risk_parameters (mkTxContext 1 0 2)).
  by vm_compute.
Defined.

Lemma insured_le_total (book : gmap N Policy) policy_id policy :
  book !! policy_id = Some policy → insured policy ≤ insured_total book.
Proof.
  intros Hheld. rewrite (insured_total_delete book policy_id policy) by done.
  lia.
Qed.

(** X10. Termination of a registered policy cannot fail on the registry.
    For a registry that agrees with the policies that exist, the owner's
    termination of an active policy returns: the whole collateral goes back
    to the owner, the policy is left inactive with no collateral, and
    [total_coverage] drops by the policy's coverage amount without
    underflow, while the policy stays registered and counted. *)
Theorem terminate_registered_policy book policy_id policy ctx :
  registry_accounted book →
  book_policies book !! policy_id = Some policy →
  owner policy = sender ctx →
  active policy = true →
  ∃ registry' policy' coin event,
    terminate_policy (book_registry book) policy ctx
      = Ok (registry', policy', coin, event) ∧
    coin_value coin = collateral_balance policy ∧
    active policy' = false ∧
    collateral_balance policy' = 0 ∧
    total_coverage registry' + coverage_amount policy
      = total_coverage (book_registry book) ∧
    total_policies registry' = total_policies (book_registry book) ∧
    policies registry' = policies (book_registry book).
Proof.
  intros Hbook Hpolicy Howner Hactive.
  assert (coverage_amount policy ≤ total_coverage (book_registry book))
    as Hle.
  { rewrite (accounted_coverage _ Hbook).
    pose proof (insured_le_total _ _ _ Hpolicy) as Hins.
    unfold insured in Hins. by rewrite Hactive in Hins. }
  unfold terminate_policy, coin_take, balance_split.
  rewrite bool_decide_eq_true_2 by done. rewrite Hactive, N.leb_refl.
  cbn [assert mbind result_bind]. rewrite sub_le by done.
  cbn [mbind result_bind]. do 4 eexists. split; [reflexivity|].
  cbn. repeat split; try done; lia.
Qed.

Lemma terminate_registered_policy_witness :
  let book :=
    commit_registry_call (mkPolicyBook (mkPolicyRegistry ∅ ∅ ∅ ∅ 0 0) ∅)
      (CreatePolicy default_risk_parameters "east-africa" [] "drought" ""
         10000 25 0 (mkCoin 3600), mkTxContext 7 1 10) in
  ∃ policy registry' policy' coin event,
    book_policies book !! 10 = Some policy ∧
    terminate_policy (book_registry book) policy (mkTxContext 7 2 20)
      = Ok (registry', policy', coin, event) ∧
    coin_value coin = 3600 ∧
    total_coverage registry' = 0.
Proof.
  intros book.
  assert (registry_accounted book) as Hbook
    by apply commit_registry_call_accounted, empty_registry_accounted.
  destruct (book_policies book !! 10) as [policy|] eqn:Hpolicy;
    [|by vm_compute in Hpolicy].
  assert (policy = mkPolicy 10 7 "east-africa" [] "drought" "" 10000 25 0
                     3600 3500 0 0 true 1 1) as Heq
    by (vm_compute in Hpolicy; by injection Hpolicy).
  destruct (terminate_registered_policy book 10 policy (mkTxContext 7 2 20)
              Hbook Hpolicy)
    as (registry' & policy' & coin & event & Hrun & Hcoin & _ & _ & Hcov & _);
    [by rewrite Heq..|].
  exists policy, registry', policy', coin, event.
  split; [done|]. split; [done|]. split; [by rewrite Hcoin, Heq|].
  assert (total_coverage (book_registry book) = 10000) as Htotal
    by by vm_compute.
  rewrite Heq, Htotal in Hcov. cbn [coverage_amount] in Hcov. lia.
Defined.

Lemma same_terms_refl policy : same_terms policy policy.
Proof. unfold same_terms. repeat split; done. Qed.

Lemma same_terms_trans policy1 policy2 policy3 :
  same_terms policy1 policy2 → same_terms policy2 policy3 →
  same_terms policy1 policy3.
Proof. unfold same_terms. intros H12 H23. intuition congruence. Qed.

(** X11. No sequence of collateral additions, collateral removals and
    funding settlements, committed or aborted, changes the terms of a
    policy: its identifier, owner, location, peril, coverage amount,
    trigger, margin requirement, active flag and creation time stay as
    they are, and the two funding counters never decrease. *)
Theorem run_calls_keeps_terms policy txs :
  same_terms policy (run_calls policy txs) ∧
  funding_rate_paid policy ≤ funding_rate_paid (run_calls policy txs) ∧
  funding_rate_received policy
  ≤ funding_rate_received (run_calls policy txs).
Proof.
  unfold run_calls. revert policy.
  induction txs as [|tx txs IH]; intros policy.
  { cbn. split; [apply same_terms_refl|lia]. }
  cbn [foldl].
  destruct (commit_call_terms policy tx) as (Hterms & Hpaid & Hreceived).
  destruct (IH (commit_call policy tx)) as (Hterms' & Hpaid' & Hreceived').
  split; [by eapply same_terms_trans|]. lia.
Qed.

Lemma stranger_call_aborts policy call ctx policy' :
  sender ctx ≠ owner policy →
  call_policy policy call ctx = Ok policy' →
  collateral_balance policy' = collateral_balance policy ∧
  last_updated policy' = last_updated policy.
Proof.
  intros Hstranger Hrun.
  destruct call as [coin|amount|rate direction]; cbn in Hrun.
  - unfold add_collateral in Hrun.
    rewrite bool_decide_eq_false_2 in Hrun by done. done.
  - unfold remove_collateral in Hrun.
    rewrite bool_decide_eq_false_2 in Hrun by done. done.
  - unfold process_funding_payment in Hrun. inv_ok.
    destruct direction; inv_ok; by simplify_eq/=.
Qed.

(** X12. Only the owner moves the collateral of a policy.  Whatever
    additions, removals and funding settlements other senders submit, the
    collateral balance and the time of the last update stay as they are:
    their additions and removals abort, and a funding settlement only
    records the payment. *)
Theorem stranger_calls_keep_collateral policy txs :
  Forall (λ tx : policy_call * TxContext, sender tx.2 ≠ owner policy) txs →
  collateral_balance (run_calls policy txs) = collateral_balance policy ∧
  last_updated (run_calls policy txs) = last_updated policy.
Proof.
  unfold run_calls. revert policy.
  induction txs as [|tx txs IH]; intros policy Hstrangers; [done|].
  apply Forall_cons in Hstrangers as [Hstranger Hstrangers]. cbn [foldl].
  destruct (commit_call_terms policy tx) as ((_ & Hown & _) & _).
  assert (collateral_balance (commit_call policy tx)
            = collateral_balance policy ∧
          last_updated (commit_call policy tx) = last_updated policy)
    as [Hbalance Hupdated].
  { unfold commit_call.
    destruct (call_policy policy tx.1 tx.2) as [policy'|] eqn:Hcall;
      [|done].
    by eapply stranger_call_aborts. }
  rewrite <- Hbalance, <- Hupdated. apply IH. by rewrite Hown.
Qed.

Lemma stranger_calls_keep_collateral_witness :
  collateral_balance
    (run_calls scenario_policy
       [(RemoveCollateral 0, mkTxContext 9 1 0);
        (AddCollateral (mkCoin 40), mkTxContext 8 2 0);
        (FundingPayment 50 true, mkTxContext 9 3 0)]) = 3200.
Proof.
  apply (stranger_calls_keep_collateral scenario_policy).
  repeat constructor; by vm_compute.
Defined.

(** X13. Adding collateral and removing the same amount again is a round
    trip for a policy that holds its margin requirement: both calls of the
    owner return, the coin handed back has the value of the coin added, and
    the policy ends with the collateral balance and the terms it had. *)
Theorem add_then_remove_collateral policy coin ctx ctx2 :
  owner policy = sender ctx →
  owner policy = sender ctx2 →
  collateralized policy →
  collateral_balance policy + coin_value coin ≤ MAX_U64 →
  ∃ policy1 event1 policy2 coin2 event2,
    add_collateral policy coin ctx = Ok (policy1, event1) ∧
    remove_collateral policy1 (coin_value coin) ctx2
      = Ok (policy2, coin2, event2) ∧
    coin_value coin2 = coin_value coin ∧
    collateral_balance policy2 = collateral_balance policy ∧
    same_terms policy policy2.
Proof.
  unfold collateralized. intros Hctx Hctx2 Hmargin Hfit.
  set (balance := collateral_balance policy + coin_value coin).
  assert (add_collateral policy coin ctx
          = Ok (set_collateral policy balance (epoch ctx),
                mkCollateralAdded (id policy) (owner policy)
                  (coin_value coin) balance)) as Hadd.
  { unfold add_collateral, balance_join.
    rewrite bool_decide_eq_true_2 by done. cbn [assert mbind result_bind].
    by rewrite add64_fits by done. }
  do 5 eexists. split; [exact Hadd|].
  unfold remove_collateral, coin_take, balance_split.
  cbn [owner set_collateral collateral_balance margin_requirement].
  rewrite bool_decide_eq_true_2 by done. cbn [assert mbind result_bind].
  rewrite sub_le by (subst balance; lia). cbn [mbind result_bind].
  assert ((coin_value coin <=? balance - margin_requirement policy) = true)
    as -> by (apply N.leb_le; subst balance; lia).
  assert ((coin_value coin <=? balance) = true) as ->
    by (apply N.leb_le; subst balance; lia).
  cbn [assert mbind result_bind]. split; [reflexivity|]. cbn.
  split; [done|]. split; [subst balance; lia|].
  unfold same_terms. repeat split; done.
Qed.

Lemma add_then_remove_collateral_witness :
  ∃ policy1 event1 policy2 coin2 event2,
    add_collateral scenario_policy (mkCoin 500) (mkTxContext 7 1 0)
      = Ok (policy1, event1) ∧
    remove_collateral policy1 500 (mkTxContext 7 2 0)
      = Ok (policy2, coin2, event2) ∧
    coin_value coin2 = 500 ∧
    collateral_balance policy2 = 3200 ∧
    same_terms scenario_policy policy2.
Proof.
  apply (add_then_remove_collateral scenario_policy (mkCoin 500)
           (mkTxContext 7 1 0) (mkTxContext 7 2 0)); by vm_compute.
Defined.

(** X14. What termination leaves behind.  After [terminate_policy] the
    policy cannot be terminated again (abort code 1 for its owner, 0 for
    anyone else), no funding payment is settled on it (abort code 0) and no
    positive amount of collateral can be removed.  [add_collateral] does not
    look at the active flag: the owner can still add collateral to the
    terminated policy. *)
Theorem terminated_policy_is_closed registry policy ctx registry' policy' coin
    event :
  terminate_policy registry policy ctx
    = Ok (registry', policy', coin, event) →
  (∀ registry2 ctx2,
     terminate_policy registry2 policy' ctx2
     = Err (EAssert (if bool_decide (owner policy = sender ctx2)
                     then 1 else 0))) ∧
  (∀ rate direction ctx2,
     process_funding_payment policy' rate direction ctx2
     = Err (EAssert 0)) ∧
  (∀ amount ctx2,
     0 < amount → ∃ e, remove_collateral policy' amount ctx2 = Err e) ∧
  (∀ added ctx2,
     owner policy = sender ctx2 →
     coin_value added ≤ MAX_U64 →
     ∃ policy2 event2,
       add_collateral policy' added ctx2 = Ok (policy2, event2) ∧
       collateral_balance policy2 = coin_value added ∧
       active policy2 = false).
Proof.
  intros Hrun.
  apply terminate_policy_registry in Hrun as (_ & _ & _ & _ & -> & _).
  split; [|split; [|split]].
  - intros registry2 ctx2. unfold terminate_policy. cbn.
    by destruct (bool_decide (owner policy = sender ctx2)).
  - intros rate direction ctx2. by unfold process_funding_payment.
  - intros amount ctx2 Hamount.
    destruct (remove_collateral _ amount ctx2) as [[[policy2 coin2] ev]|e]
      eqn:Hremove; [|by eexists].
    apply remove_collateral_inv in Hremove as (_ & _ & Hle & _).
    cbn in Hle. lia.
  - intros added ctx2 Howner Hfit. unfold add_collateral, balance_join.
    cbn [owner set_terminated set_collateral collateral_balance].
    rewrite bool_decide_eq_true_2 by done. cbn [assert mbind result_bind].
    rewrite add64_fits by (by rewrite N.add_0_l).
    cbn [mbind result_bind]. do 2 eexists. split; [reflexivity|]. done.
Qed.

Lemma terminated_policy_is_closed_witness :
  ∃ registry' policy' coin event,
    terminate_policy (mkPolicyRegistry ∅ ∅ ∅ ∅ 1 10000) scenario_policy
      (mkTxContext 7 5 0) = Ok (registry', policy', coin, event) ∧
    terminate_policy registry' policy' (mkTxContext 7 6 0)
      = Err (EAssert 1) ∧
    process_funding_payment policy' 50 true (mkTxContext 7 6 0)
      = Err (EAssert 0).
Proof.
  destruct (terminate_policy (mkPolicyRegistry ∅ ∅ ∅ ∅ 1 10000)
              scenario_policy (mkTxContext 7 5 0))
    as [[[[registry' policy'] coin] event]|e] eqn:Hrun;
    [|by vm_compute in Hrun].
  exists registry', policy', coin, event. split; [reflexivity|].
  destruct (terminated_policy_is_closed _ _ _ _ _ _ _ Hrun)
    as (Hagain & Hfunding & _).
  split; [|apply Hfunding].
  by rewrite (Hagain registry' (mkTxContext 7 6 0)).
Defined.

Lemma default_risk_bounds `{Countable K} (risks : gmap K N) (key : K)
    (low high : N) :
  low ≤ 1000 ≤ high →
  map_Forall (λ _ risk, low ≤ risk ≤ high) risks →
  low ≤ default 1000 (risks !! key) ≤ high.
Proof.
  intros Hdefault Hrisks. destruct (risks !! key) as [risk|] eqn:Hrisk.
  - by apply Hrisks in Hrisk.
  - done.
Qed.

Lemma calculate_margin_requirement_eq risk_params location peril coverage :
  let factor :=
    base_margin_requirement risk_params
    + default 1000 (location_risk risk_params !! location)
    + default 1000 (peril_risk risk_params !! peril) in
  factor ≤ MAX_U64 →
  coverage * factor ≤ MAX_U64 →
  calculate_margin_requirement risk_params location peril coverage
  = Ok (coverage * factor / 10000).
Proof.
  intros factor Hfactor Hfit. unfold calculate_margin_requirement.
  rewrite !factor_lookup. cbn [mbind result_bind].
  rewrite add64_fits by (subst factor; lia). cbn [mbind result_bind].
  rewrite add64_fits by done. cbn [mbind result_bind].
  rewrite mul64_fits by done. cbn [mbind result_bind].
  by rewrite div_nonzero.
Qed.

(** X15. The margin that the shared risk parameters ask for.  With the
    parameters that [init] installs, the margin requirement of a policy on
    any location and peril lies between 30% and 41% of the coverage amount
    (both rounded down): 10% base margin plus 10% to 15% for the location
    and 10% to 16% for the peril, unknown locations and perils counting
    10%.  A policy whose collateral is below 30% of the coverage is
    therefore never created: for a location and a peril given as
    well-formed UTF-8, [create_policy] aborts with code 0; for bytes that
    are not, it aborts in the conversion to a String before the margin is
    looked at. *)
Theorem default_margin_bounds ctx registry risk_params ctx' location peril
    coverage :
  init ctx = Ok (registry, risk_params, ctx') →
  coverage * 4100 ≤ MAX_U64 →
  (∃ margin,
     calculate_margin_requirement risk_params location peril coverage
       = Ok margin ∧
     coverage * 3000 / 10000 ≤ margin ≤ coverage * 4100 / 10000) ∧
  (∀ registry2 coordinates details threshold operator collateral ctx2,
     check_utf8 location = true →
     check_utf8 peril = true →
     coin_value collateral < coverage * 3000 / 10000 →
     create_policy registry2 risk_params location coordinates peril details
       coverage threshold operator collateral ctx2 = Err (EAssert 0)) ∧
  (∀ registry2 coordinates details threshold operator collateral ctx2,
     check_utf8 location = false ∨ check_utf8 peril = false →
     create_policy registry2 risk_params location coordinates peril details
       coverage threshold operator collateral ctx2 = Err EInvalidUtf8).
Proof.
  intros Hinit Hfit. destruct (init_default ctx) as [ctx2 Hdefault].
  rewrite Hdefault in Hinit. injection Hinit as _ <- _.
  assert (1000 ≤ default 1000
            (location_risk default_risk_parameters !! location) ≤ 1500)
    as Hlocation.
  { apply default_risk_bounds; [lia|].
    unfold default_risk_parameters. cbn [location_risk].
    repeat apply map_Forall_insert_2; try apply map_Forall_empty;
      cbn beta; lia. }
  assert (1000 ≤ default 1000
            (peril_risk default_risk_parameters !! peril) ≤ 1600) as Hperil.
  { apply default_risk_bounds; [lia|].
    unfold default_risk_parameters. cbn [peril_risk].
    repeat apply map_Forall_insert_2; try apply map_Forall_empty;
      cbn beta; lia. }
  pose proof (calculate_margin_requirement_eq default_risk_parameters
                location peril coverage) as Hmargin.
  cbn zeta in Hmargin.
  change (base_margin_requirement default_risk_parameters) with 1000
    in Hmargin.
  set (factor := 1000
         + default 1000 (location_risk default_risk_parameters !! location)
         + default 1000 (peril_risk default_risk_parameters !! peril))
    in Hmargin.
  assert (3000 ≤ factor ≤ 4100) as Hfactor by (subst factor; lia).
  assert (coverage * factor ≤ coverage * 4100) as Hupper
    by (apply N.mul_le_mono_l; lia).
  assert (coverage * 3000 ≤ coverage * factor) as Hlower
    by (apply N.mul_le_mono_l; lia).
  rewrite Hmargin by (unfold MAX_U64 in *; lia).
  assert (coverage * 3000 / 10000 ≤ coverage * factor / 10000
          ≤ coverage * 4100 / 10000) as Hbounds
    by (split; apply N.Div0.div_le_mono; lia).
  split; [by eexists|]. split.
  - intros registry2 coordinates details threshold operator collateral ctx3
      Hlocation_valid Hperil_valid Hthin.
    unfold create_policy.
    rewrite (utf8_valid location), (utf8_valid peril) by done.
    cbn [mbind result_bind].
    rewrite Hmargin by (unfold MAX_U64 in *; lia). cbn [mbind result_bind].
    assert ((coverage * factor / 10000 <=? coin_value collateral) = false)
      as -> by (apply N.leb_gt; lia).
    done.
  - intros registry2 coordinates details threshold operator collateral ctx3
      Hinvalid.
    unfold create_policy, utf8.
    destruct (check_utf8 location); [|done].
    destruct Hinvalid as [Hlocation_invalid|Hperil_invalid]; [done|].
    by rewrite Hperil_invalid.
Qed.

Lemma default_margin_bounds_witness :
  (∃ margin,
     calculate_margin_requirement default_risk_parameters "southeast-asia"
       "flood" 10000 = Ok margin ∧
     3000 ≤ margin ≤ 4100) ∧
  create_policy (mkPolicyRegistry ∅ ∅ ∅ ∅ 0 0) default_risk_parameters
    "atlantis" [] "meteor" "" 10000 25 0 (mkCoin 2999) (mkTxContext 7 1 0)
  = Err (EAssert 0) ∧
  create_policy (mkPolicyRegistry ∅ ∅ ∅ ∅ 0 0) default_risk_parameters
    (String (Ascii.ascii_of_N 255) "atlantis") [] "meteor" "" 10000 25 0
    (mkCoin 2999) (mkTxContext 7 1 0)
  = Err EInvalidUtf8.
Proof.
  destruct (default_margin_bounds (mkTxContext 1 0 0)
              (mkPolicyRegistry ∅ ∅ ∅ ∅ 0 0) default_risk_parameters
              (mkTxContext 1 0 2) "southeast-asia" "flood" 10000)
    as [Hmargin _]; [by vm_compute..|].
  destruct (default_margin_bounds (mkTxContext 1 0 0)
              (mkPolicyRegistry ∅ ∅ ∅ ∅ 0 0) default_risk_parameters
              (mkTxContext 1 0 2) "atlantis" "meteor" 10000)
    as (_ & Hthin & _); [by vm_compute..|].
  destruct (default_margin_bounds (mkTxContext 1 0 0)
              (mkPolicyRegistry ∅ ∅ ∅ ∅ 0 0) default_risk_parameters
              (mkTxContext 1 0 2) (String (Ascii.ascii_of_N 255) "atlantis")
              "meteor" 10000)
    as (_ & _ & Hinvalid); [by vm_compute..|].
  split; [exact Hmargin|]. split.
  - apply Hthin; by vm_compute.
  - apply Hinvalid. left. by vm_compute.
Defined.

(** X16. [is_undercollateralized] and the life of a policy.  A policy made
    by [create_policy] is never reported as undercollateralized, whatever
    collateral and funding transactions follow; the check does not look at
    the active flag, so a policy with a positive margin requirement is
    reported as undercollateralized as soon as it is terminated. *)
Theorem undercollateralized_only_after_termination :
  (∀ registry risk_params location coordinates peril details coverage
     threshold operator collateral ctx registry' policy event ctx' txs,
     create_policy registry risk_params location coordinates peril details
       coverage threshold operator collateral ctx
       = Ok (registry', policy, event, ctx') →
     is_undercollateralized (run_calls policy txs) = false) ∧
  (∀ registry policy ctx registry' policy' coin event,
     terminate_policy registry policy ctx
       = Ok (registry', policy', coin, event) →
     is_undercollateralized policy' = (0 <? margin_requirement policy)).
Proof.
  split.
  - intros registry risk_params location coordinates peril details coverage
      threshold operator collateral ctx registry' policy event ctx' txs Hrun.
    apply create_policy_collateralized in Hrun as (Hmargin & _).
    apply (run_calls_collateralized _ txs) in Hmargin.
    unfold is_undercollateralized. apply N.ltb_ge. exact Hmargin.
  - intros registry policy ctx registry' policy' coin event Hrun.
    apply terminate_policy_inv in Hrun as (Hbalance & _ & Hmargin & _).
    unfold is_undercollateralized. by rewrite Hbalance, Hmargin.
Qed.

Lemma undercollateralized_only_after_termination_witness :
  ∃ registry policy event ctx' registry' policy' coin event',
    create_policy (mkPolicyRegistry ∅ ∅ ∅ ∅ 0 0) default_risk_parameters
      "east-africa" [] "drought" "" 10000 25 0 (mkCoin 3600)
      (mkTxContext 7 1 0) = Ok (registry, policy, event, ctx') ∧
    is_undercollateralized
      (run_calls policy [(RemoveCollateral 100, mkTxContext 7 2 0)])
      = false ∧
    terminate_policy registry policy (mkTxContext 7 3 0)
      = Ok (registry', policy', coin, event') ∧
    is_undercollateralized policy' = true.
Proof.
  destruct (create_policy (mkPolicyRegistry ∅ ∅ ∅ ∅ 0 0)
              default_risk_parameters "east-africa" [] "drought" "" 10000 25
              0 (mkCoin 3600) (mkTxContext 7 1 0))
    as [[[[registry policy] event] ctx']|e] eqn:Hcreate;
    [|by vm_compute in Hcreate].
  destruct (terminate_policy registry policy (mkTxContext 7 3 0))
    as [[[[registry' policy'] coin] event']|e] eqn:Hterminate;
    [|vm_compute in Hcreate; injection Hcreate as <- <- _ _;
      by vm_compute in Hterminate].
  exists registry, policy, event, ctx', registry', policy', coin, event'.
  destruct undercollateralized_only_after_termination as [Hlive Hclosed].
  split; [reflexivity|]. split; [by eapply Hlive|].
  split; [exact Hterminate|]. rewrite (Hclosed _ _ _ _ _ _ _ Hterminate).
  vm_compute in Hcreate. by injection Hcreate as _ <- _ _.
Defined.

End policy_registry.

(** ** Oracle feeds: sorting, registration and what an aggregate depends on *)

Section oracle_feeds.
Import switchboard_oracle.

Lemma bubble_passes_unique (values values' : list N) :
  values' ≡ₚ values →
  bubble_passes (length values') values'
  = bubble_passes (length values) values.
Proof.
  intros Hperm. apply (Sorted_unique N.le).
  - by apply StronglySorted_Sorted, bubble_passes_Sorted.
  - by apply StronglySorted_Sorted, bubble_passes_Sorted.
  - by rewrite !bubble_passes_Permutation.
Qed.

(** X17. The sort inside [aggregate_data] is a sort: for every vector of
    readings (of a length that fits [u64], as every Move vector does) the
    two nested loops return, and what they return is the readings in
    ascending order, each reading as often as it was submitted. *)
Theorem bubble_sort_sorts values :
  vector_length values ≤ MAX_U64 →
  ∃ sorted,
    bubble_sort values = Ok sorted ∧
    sorted ≡ₚ values ∧
    Sorted N.le sorted.
Proof.
  intros Hfit. exists (bubble_passes (length values) values).
  split; [by apply bubble_sort_passes|].
  split; [apply bubble_passes_Permutation|].
  by apply StronglySorted_Sorted, bubble_passes_Sorted.
Qed.

Lemma bubble_sort_sorts_witness :
  ∃ sorted,
    bubble_sort [30; 10; 20; 10] = Ok sorted ∧
    sorted ≡ₚ [30; 10; 20; 10] ∧
    Sorted N.le sorted.
Proof. apply (bubble_sort_sorts [30; 10; 20; 10]). by vm_compute. Defined.

(** X18. The aggregate does not depend on the order of the readings:
    submitting the same readings in another order gives the same result,
    the same aggregate and event or the same abort. *)
Theorem aggregate_data_order_independent registry location data_type
    feed_ids feed_values feed_values' feed_timestamps ctx :
  vector_length feed_values ≤ MAX_U64 →
  feed_values' ≡ₚ feed_values →
  aggregate_data registry location data_type feed_ids feed_values'
    feed_timestamps ctx
  = aggregate_data registry location data_type feed_ids feed_values
      feed_timestamps ctx.
Proof.
  intros Hfit Hperm. unfold aggregate_data.
  assert (vector_length feed_values' = vector_length feed_values) as Hlen
    by (unfold vector_length; by rewrite Hperm).
  rewrite Hlen, !bubble_sort_passes by (by rewrite ?Hlen).
  by rewrite (bubble_passes_unique feed_values feed_values').
Qed.

Lemma aggregate_data_order_independent_witness :
  aggregate_data rainfall_registry "east-africa" "rainfall" [1; 2; 3]
    [42; 17; 23] [5; 5; 5] (mkTxContext 7 1 0)
  = aggregate_data rainfall_registry "east-africa" "rainfall" [1; 2; 3]
      [17; 23; 42] [5; 5; 5] (mkTxContext 7 1 0).
Proof.
  apply aggregate_data_order_independent; [by vm_compute|].
  by rewrite (Permutation_swap 17 42 [23]), (Permutation_swap 23 42 []).
Defined.

Lemma nth_bounded_below (l : list N) (low : N) i :
  (i < length l)%nat → Forall (λ v, low ≤ v) l → low ≤ nth i l 0.
Proof.
  intros Hi Hl. rewrite nth_lookup.
  destruct (l !! i) as [x|] eqn:Hx; simpl.
  - by eapply Forall_lookup_1 in Hl.
  - apply lookup_ge_None in Hx. lia.
Qed.

Lemma median_of_sorted_bounded_below (l : list N) (low : N) :
  l ≠ [] → Forall (λ v, low ≤ v) l → low ≤ median_of_sorted l.
Proof.
  intros Hne Hl. unfold median_of_sorted. cbn zeta.
  assert (0 < length l)%nat as Hn by (destruct l; simpl; [done|lia]).
  assert (length l / 2 < length l)%nat as Hhalf by (apply Nat.div_lt; lia).
  destruct (Nat.even _); [|by apply nth_bounded_below].
  apply N.div_le_lower_bound; [done|].
  pose proof (nth_bounded_below l low (length l / 2 - 1)) as Ha.
  pose proof (nth_bounded_below l low (length l / 2) Hhalf Hl) as Hb.
  specialize (Ha ltac:(lia) Hl). lia.
Qed.

(** X19. The aggregate value lies within the readings: whenever all
    readings are between [low] and [high], so is the value of every
    aggregate that [aggregate_data] returns, and the aggregate names the
    feeds and the number of sources it was given. *)
Theorem aggregate_value_within_readings registry location data_type feed_ids
    feed_values feed_timestamps ctx aggregate event ctx' (low high : N) :
  vector_length feed_values ≤ MAX_U64 →
  Forall (λ v, low ≤ v ≤ high) feed_values →
  aggregate_data registry location data_type feed_ids feed_values
    feed_timestamps ctx = Ok (aggregate, event, ctx') →
  low ≤ value aggregate ≤ high ∧
  sources aggregate = feed_ids ∧
  num_sources aggregate = vector_length feed_values.
Proof.
  intros Hfit Hrange Hrun.
  assert (sources aggregate = feed_ids) as Hsources.
  { unfold aggregate_data in Hrun. inv_ok. cbn in Hrun. inv_ok.
    by simplify_eq/=. }
  apply aggregate_data_inv in Hrun
    as (Hne & Hlen & _ & _ & -> & _ & Hnum); [|done].
  set (sorted := bubble_passes (length feed_values) feed_values).
  assert (Forall (λ v, low ≤ v ≤ high) sorted) as Hsorted
    by (subst sorted; by rewrite bubble_passes_Permutation).
  assert (sorted ≠ []) as Hsne.
  { intros Hs. apply Hne. apply Permutation_nil_r.
    rewrite <- Hs. subst sorted. by rewrite bubble_passes_Permutation. }
  split; [split|].
  - apply median_of_sorted_bounded_below; [done|].
    eapply Forall_impl; [exact Hsorted|]. cbn. lia.
  - apply median_of_sorted_bounded.
    eapply Forall_impl; [exact Hsorted|]. cbn. lia.
  - split; [done|]. unfold vector_length in *. by rewrite Hnum, Hlen.
Qed.

Lemma aggregate_value_within_readings_witness :
  ∃ aggregate event ctx',
    aggregate_data rainfall_registry "east-africa" "rainfall" [1; 2; 3]
      [42; 17; 23] [5; 5; 5] (mkTxContext 7 1 0)
      = Ok (aggregate, event, ctx') ∧
    17 ≤ value aggregate ≤ 42.
Proof.
  destruct (aggregate_data rainfall_registry "east-africa" "rainfall"
              [1; 2; 3] [42; 17; 23] [5; 5; 5] (mkTxContext 7 1 0))
    as [[[aggregate event] ctx']|e] eqn:Hrun; [|by vm_compute in Hrun].
  exists aggregate, event, ctx'. split; [reflexivity|].
  assert (Forall (λ v, 17 ≤ v ≤ 42) [42; 17; 23]) as Hrange
    by (repeat constructor; by vm_compute).
  assert (vector_length [42; 17; 23] ≤ MAX_U64) as Hfit by by vm_compute.
  exact (proj1 (aggregate_value_within_readings rainfall_registry
                  "east-africa" "rainfall" [1; 2; 3] [42; 17; 23] [5; 5; 5]
                  (mkTxContext 7 1 0) aggregate event ctx' 17 42 Hfit Hrange
                  Hrun)).
Defined.

Lemma register_feed_inv registry feed_name data_type location interval ctx
    registry' feed event ctx' :
  register_feed registry feed_name data_type location interval ctx
    = Ok (registry', feed, event, ctx') →
  (check_utf8 feed_name = true ∧ check_utf8 data_type = true ∧
   check_utf8 location = true) ∧
  feeds registry !! feed_name = None ∧
  feed_authorities registry !! ids_created ctx = None ∧
  feed_types registry !! ids_created ctx = None ∧
  feed_locations registry !! ids_created ctx = None ∧
  feed = mkSwitchboardFeed (ids_created ctx) (sender ctx) [] 0 0 interval ∧
  registry' =
    mkOracleFeedRegistry
      (<[feed_name := ids_created ctx]> (feeds registry))
      (<[ids_created ctx := sender ctx]> (feed_authorities registry))
      (<[ids_created ctx := data_type]> (feed_types registry))
      (<[ids_created ctx := location]> (feed_locations registry)).
Proof.
  unfold register_feed, object_new, table_add, utf8. intros Hrun.
  destruct (check_utf8 feed_name); [|done].
  destruct (check_utf8 data_type); [|done].
  destruct (check_utf8 location); [|done].
  cbn [mbind result_bind sender ids_created] in Hrun.
  destruct (feeds registry !! feed_name); [done|].
  destruct (feed_authorities registry !! ids_created ctx); [done|].
  destruct (feed_types registry !! ids_created ctx); [done|].
  destruct (feed_locations registry !! ids_created ctx); [done|].
  cbn in Hrun. by simplify_eq.
Qed.

(** X20. Registration makes a feed usable.  After [register_feed] the new
    feed is registered for its location and data type under its name, with
    the sender as authority; every feed registered before stays registered;
    the name is taken (a second registration under it, with a data type
    and a location given as well-formed UTF-8, aborts on the duplicate
    key); and a reading of the new feed alone aggregates to exactly that
    reading with full confidence. *)
Theorem register_feed_registers registry feed_name data_type location
    interval ctx registry' feed event ctx' :
  register_feed registry feed_name data_type location interval ctx
    = Ok (registry', feed, event, ctx') →
  feed_registered registry' location data_type (feed_id feed) ∧
  feeds registry' !! feed_name = Some (feed_id feed) ∧
  feed_authorities registry' !! feed_id feed = Some (sender ctx) ∧
  authority feed = sender ctx ∧
  (∀ location2 data_type2 other,
     feed_registered registry location2 data_type2 other →
     feed_registered registry' location2 data_type2 other) ∧
  (∀ data_type2 location2 interval2 ctx2,
     check_utf8 data_type2 = true →
     check_utf8 location2 = true →
     register_feed registry' feed_name data_type2 location2 interval2 ctx2
     = Err ETableDuplicate) ∧
  (∀ reading time ctx2,
     ∃ aggregate event2 ctx2',
       aggregate_data registry' location data_type [feed_id feed] [reading]
         [time] ctx2 = Ok (aggregate, event2, ctx2') ∧
       value aggregate = reading ∧
       confidence aggregate = 10000 ∧
       num_sources aggregate = 1).
Proof.
  intros Hrun.
  apply register_feed_inv in Hrun
    as ((Hname_valid & _ & _) & Hname & Hauth & Htype & Hloc & -> & ->).
  cbn [feed_id authority].
  assert (feed_registered
            (mkOracleFeedRegistry
               (<[feed_name := ids_created ctx]> (feeds registry))
               (<[ids_created ctx := sender ctx]> (feed_authorities registry))
               (<[ids_created ctx := data_type]> (feed_types registry))
               (<[ids_created ctx := location]> (feed_locations registry)))
            location data_type (ids_created ctx)) as Hregistered.
  { unfold feed_registered. cbn. rewrite !lookup_insert_eq.
    split; [by eexists|done]. }
  split; [done|]. cbn [feeds feed_authorities].
  rewrite !lookup_insert_eq. repeat (split; [done|]). split; [|split].
  - intros location2 data_type2 other (Hauth2 & Htype2 & Hloc2).
    unfold feed_registered. cbn.
    assert (other ≠ ids_created ctx) as Hne by (intros ->; congruence).
    by rewrite !lookup_insert_ne.
  - intros data_type2 location2 interval2 ctx2 Htype_valid Hloc_valid.
    unfold register_feed, object_new, table_add.
    rewrite !utf8_valid by done. cbn [mbind result_bind feeds].
    by rewrite lookup_insert_eq.
  - intros reading time ctx2. unfold aggregate_data.
    change (vector_length [ids_created ctx]) with 1.
    cbn [assert N.ltb N.eqb N.compare vector_length length mbind result_bind
         N.of_nat Pos.of_succ_nat Pos.eqb Pos.compare].
    pose proof (proj2 (verify_loop _ location data_type [ids_created ctx])
                  (Forall_cons_2 _ _ _ Hregistered (Forall_nil_2 _)))
      as Hverify.
    change (vector_length [ids_created ctx]) with 1 in Hverify.
    rewrite Hverify. cbn. do 3 eexists. done.
Qed.

Lemma register_feed_registers_witness :
  ∃ registry' feed event ctx',
    register_feed rainfall_registry "station-d" "rainfall" "east-africa" 60
      (mkTxContext 44 1 4) = Ok (registry', feed, event, ctx') ∧
    feed_registered registry' "east-africa" "rainfall" 4 ∧
    feed_registered registry' "east-africa" "rainfall" 1.
Proof.
  destruct (register_feed rainfall_registry "station-d" "rainfall"
              "east-africa" 60 (mkTxContext 44 1 4))
    as [[[[registry' feed] event] ctx']|e] eqn:Hrun;
    [|by vm_compute in Hrun].
  exists registry', feed, event, ctx'. split; [reflexivity|].
  destruct (register_feed_registers _ _ _ _ _ _ _ _ _ _ Hrun)
    as (Hnew & _ & _ & _ & Hold & _).
  assert (feed_id feed = 4) as Hid
    by (vm_compute in Hrun; by injection Hrun as _ <- _ _).
  rewrite Hid in Hnew. split; [exact Hnew|]. apply Hold.
  unfold feed_registered, rainfall_registry. cbn.
  split; [by eexists|]. done.
Defined.

Lemma sum_abs_diff_replicate (count : nat) (reading : N) :
  sum_N ((λ v, abs_diff v reading) <$> replicate count reading) = 0.
Proof.
  induction count as [|count IH]; [done|].
  cbn [replicate fmap list_fmap sum_N foldr].
  fold (sum_N ((λ v, abs_diff v reading) <$> replicate count reading)).
  rewrite IH. unfold abs_diff. rewrite N.ltb_irrefl. lia.
Qed.

Lemma median_of_replicate (count : nat) (reading : N) :
  (0 < count)%nat →
  median_of_sorted (replicate count reading) = reading.
Proof.
  intros Hcount. unfold median_of_sorted. cbn zeta.
  rewrite length_replicate.
  assert (count / 2 < count)%nat as Hhalf by (apply Nat.div_lt; lia).
  rewrite !nth_lookup, !lookup_replicate_2 by lia. cbn.
  destruct (Nat.even count); [|done].
  replace (reading + reading) with (reading * 2) by lia.
  by rewrite N.div_mul.
Qed.

(** X21. Sources that agree.  When all registered feeds report the same
    reading, the aggregate is that reading with confidence 10000, for an
    odd number of feeds always and for an even number as long as twice the
    reading fits [u64]: the median of an even number of readings is
    computed as the sum of the two middle ones, so an even number of
    identical readings above half the [u64] range cannot be aggregated at
    all. *)
Theorem aggregate_identical_readings registry location data_type feed_ids
    feed_timestamps ctx (reading : N) :
  feed_ids ≠ [] →
  vector_length feed_ids ≤ MAX_U64 →
  length feed_ids = length feed_timestamps →
  Forall (feed_registered registry location data_type) feed_ids →
  let feed_values := replicate (length feed_ids) reading in
  (Nat.even (length feed_ids) = false ∨ reading + reading ≤ MAX_U64 →
   ∃ aggregate event ctx',
     aggregate_data registry location data_type feed_ids feed_values
       feed_timestamps ctx = Ok (aggregate, event, ctx') ∧
     value aggregate = reading ∧
     confidence aggregate = 10000) ∧
  (Nat.even (length feed_ids) = true → MAX_U64 < reading + reading →
   aggregate_data registry location data_type feed_ids feed_values
     feed_timestamps ctx = Err EOverflow).
Proof.
  intros Hne Hfit Htimes Hreg feed_values.
  assert (0 < length feed_ids)%nat as Hcount
    by (destruct feed_ids; simpl; [done|lia]).
  assert (length feed_values = length feed_ids) as Hlen
    by (subst feed_values; by rewrite length_replicate).
  assert (bubble_sort feed_values = Ok feed_values) as Hsort.
  { rewrite bubble_sort_passes by (unfold vector_length; by rewrite Hlen).
    f_equal. symmetry. apply replicate_Permutation.
    by rewrite bubble_passes_Permutation. }
  assert (feed_values ≠ []) as Hvne
    by (intros Hnil; rewrite Hnil in Hlen; simpl in Hlen; lia).
  assert (∀ i, (i < length feed_ids)%nat → nth i feed_values 0 = reading)
    as Hnth.
  { intros i Hi. subst feed_values.
    by rewrite nth_lookup, lookup_replicate_2. }
  assert (length feed_ids / 2 < length feed_ids)%nat as Hhalf
    by (apply Nat.div_lt; lia).
  pose proof (median_value_eq feed_values Hvne) as Hmedian.
  cbn zeta in Hmedian. rewrite Hlen in Hmedian.
  rewrite !Hnth in Hmedian by lia.
  assert (aggregate_data registry location data_type feed_ids feed_values
            feed_timestamps ctx
          = median_value feed_values ≫= λ median,
            calculate_confidence feed_values median ≫= λ confidence,
            Ok (mkAggregatedData (ids_created ctx) location data_type
                  median (epoch ctx) confidence (vector_length feed_ids)
                  feed_ids,
                mkDataAggregated (ids_created ctx) location data_type
                  median (epoch ctx) (vector_length feed_ids),
                (object_new ctx).2)) as Hrun.
  { unfold aggregate_data.
    assert ((0 <? vector_length feed_ids) = true) as ->
      by (apply N.ltb_lt; unfold vector_length; lia).
    assert ((vector_length feed_ids =? vector_length feed_values) = true)
      as -> by (apply N.eqb_eq; unfold vector_length; by rewrite Hlen).
    assert ((vector_length feed_ids =? vector_length feed_timestamps) = true)
      as -> by (apply N.eqb_eq; unfold vector_length; by rewrite Htimes).
    cbn [assert mbind result_bind].
    rewrite (proj2 (verify_loop _ _ _ _) Hreg). cbn [mbind result_bind].
    rewrite Hsort. cbn [mbind result_bind].
    by destruct (median_value feed_values). }
  rewrite Hrun, Hmedian. split.
  - intros Hcase.
    assert ((if Nat.even (length feed_ids)
             then if reading + reading <=? MAX_U64
                  then Ok ((reading + reading) / 2) else Err EOverflow
             else Ok reading) = Ok reading) as ->.
    { destruct (Nat.even (length feed_ids)).
      - destruct Hcase as [|Hcase]; [done|].
        apply N.leb_le in Hcase as ->.
        replace (reading + reading) with (reading * 2) by lia.
        by rewrite N.div_mul.
      - done. }
    cbn [mbind result_bind]. rewrite calculate_confidence_eq. cbn zeta.
    assert (sum_N ((λ v, abs_diff v reading) <$> feed_values) = 0) as ->
      by apply sum_abs_diff_replicate.
    rewrite N.Div0.div_0_l.
    cbn [N.leb N.compare negb N.eqb].
    destruct (vector_length feed_values <=? 1); do 3 eexists; done.
  - intros -> Hover. apply N.leb_gt in Hover. by rewrite Hover.
Qed.

Lemma aggregate_identical_readings_witness :
  (∃ aggregate event ctx',
     aggregate_data rainfall_registry "east-africa" "rainfall" [1; 2; 3]
       [25; 25; 25] [5; 6; 7] (mkTxContext 7 1 0)
       = Ok (aggregate, event, ctx') ∧
     value aggregate = 25 ∧ confidence aggregate = 10000) ∧
  aggregate_data rainfall_registry "east-africa" "rainfall" [1; 2]
    [10000000000000000000; 10000000000000000000] [5; 6] (mkTxContext 7 1 0)
  = Err EOverflow.
Proof.
  assert (∀ feed_id, feed_id ∈ [1; 2; 3] →
            feed_registered rainfall_registry "east-africa" "rainfall"
              feed_id) as Hregistered.
  { intros feed_id Hin. apply list_elem_of_In in Hin. simpl in Hin.
    unfold feed_registered, rainfall_registry. cbn.
    destruct Hin as [<-|[<-|[<-|[]]]]; (split; [by eexists|done]). }
  split.
  - apply (aggregate_identical_readings rainfall_registry "east-africa"
             "rainfall" [1; 2; 3] [5; 6; 7] (mkTxContext 7 1 0) 25);
      [done|by vm_compute|done| |by left].
    apply Forall_forall. exact Hregistered.
  - apply (aggregate_identical_readings rainfall_registry "east-africa"
             "rainfall" [1; 2] [5; 6] (mkTxContext 7 1 0)
             10000000000000000000);
      [done|by vm_compute|done| |done|by vm_compute].
    apply Forall_forall. intros feed_id Hin. apply Hregistered.
    apply list_elem_of_In in Hin. apply list_elem_of_In. simpl in *. tauto.
Defined.

(** X22. Aggregation takes the readings as they are submitted.
    [aggregate_data] looks neither at the sender nor at the feeds
    themselves, and uses the timestamps only through their number: two
    submissions of the same feeds and readings in the same epoch, by any
    two senders and with any timestamps, give the same aggregate and the
    same event, or abort alike. *)
Theorem aggregate_data_unauthenticated registry location data_type feed_ids
    feed_values feed_timestamps feed_timestamps2 ctx ctx2 :
  epoch ctx2 = epoch ctx →
  ids_created ctx2 = ids_created ctx →
  length feed_timestamps2 = length feed_timestamps →
  (aggregate_data registry location data_type feed_ids feed_values
     feed_timestamps2 ctx2 ≫= λ '(aggregate, event, _), Ok (aggregate, event))
  = (aggregate_data registry location data_type feed_ids feed_values
       feed_timestamps ctx ≫= λ '(aggregate, event, _), Ok (aggregate, event)).
Proof.
  intros Hepoch Hids Htimes. unfold aggregate_data, vector_length, object_new.
  rewrite Htimes, Hepoch, Hids. cbn [epoch].
  repeat match goal with
  | |- (?m ≫= _) ≫= _ = (?m ≫= _) ≫= _ =>
      destruct m; cbn [mbind result_bind]; [|done]
  end.
  done.
Qed.

Lemma aggregate_data_unauthenticated_witness :
  (aggregate_data rainfall_registry "east-africa" "rainfall" [1; 2; 3]
     [42; 17; 23] [0; 0; 0] (mkTxContext 666 1 0)
     ≫= λ '(aggregate, event, _), Ok (aggregate, event))
  = (aggregate_data rainfall_registry "east-africa" "rainfall" [1; 2; 3]
       [42; 17; 23] [5; 6; 7] (mkTxContext 41 1 0)
       ≫= λ '(aggregate, event, _), Ok (aggregate, event)).
Proof. by apply aggregate_data_unauthenticated. Defined.

Lemma sum_N_bounds (values : list N) (low high : N) :
  Forall (λ v, low ≤ v ≤ high) values →
  vector_length values * low ≤ sum_N values ≤ vector_length values * high.
Proof.
  unfold vector_length. intros Hvalues.
  induction Hvalues as [|v values Hv Hvalues IH]; [done|].
  cbn [sum_N foldr length]. fold (sum_N values). lia.
Qed.

(** X23. The first aggregator.  [oracle_aggregator::aggregate_data]
    returns exactly when there is at least one reading, as many sources as
    readings, the sum of the readings fits [u64], and the location and the
    data type are well-formed UTF-8 (otherwise [string::utf8] aborts after
    the sum); the aggregate it returns lies within the readings; and the
    sources are only counted: which addresses they are, authorized or not,
    makes no difference. *)
Theorem average_within_readings location data_type values sources ctx :
  ((∃ out,
      oracle_aggregator.aggregate_data location data_type values sources ctx
      = Ok out) ↔
   values ≠ [] ∧ length values = length sources ∧ sum_N values ≤ MAX_U64 ∧
   check_utf8 location = true ∧ check_utf8 data_type = true) ∧
  (∀ aggregate event ctx' low high,
     oracle_aggregator.aggregate_data location data_type values sources ctx
       = Ok (aggregate, event, ctx') →
     Forall (λ v, low ≤ v ≤ high) values →
     low ≤ oracle_aggregator.value aggregate ≤ high ∧
     oracle_aggregator.sources_count aggregate = vector_length values) ∧
  (∀ sources2,
     length sources2 = length sources →
     oracle_aggregator.aggregate_data location data_type values sources2 ctx
     = oracle_aggregator.aggregate_data location data_type values sources
         ctx).
Proof.
  split; [|split].
  - split.
    + intros [[[aggregate event] ctx'] Hrun].
      destruct (average_data_valid _ _ _ _ _ _ Hrun).
      by apply average_data_inv in Hrun as (? & ? & ? & _).
    + intros (Hne & Hlen & Hsum & Hlocation & Hdata_type).
      by apply average_data_total.
  - intros aggregate event ctx' low high Hrun Hvalues.
    assert (oracle_aggregator.sources_count aggregate = vector_length values)
      as Hcount.
    { unfold oracle_aggregator.aggregate_data in Hrun. inv_ok.
      cbn in Hrun. inv_ok. by simplify_eq/=. }
    apply average_data_inv in Hrun as (Hne & _ & _ & ->).
    apply sum_N_bounds in Hvalues as [Hlow Hhigh].
    assert (vector_length values ≠ 0)
      by (unfold vector_length; destruct values; simpl; [done|lia]).
    split; [split|done].
    + apply N.div_le_lower_bound; [done|lia].
    + apply N.Div0.div_le_upper_bound. lia.
  - intros sources2 Hlen. unfold oracle_aggregator.aggregate_data.
    unfold vector_length. by rewrite Hlen.
Qed.

Lemma average_within_readings_witness :
  ∃ aggregate event ctx',
    oracle_aggregator.aggregate_data "east-africa" "rainfall" [1; 2; 9]
      [41; 42; 43] (mkTxContext 7 1 0) = Ok (aggregate, event, ctx') ∧
    1 ≤ oracle_aggregator.value aggregate ≤ 9.
Proof.
  destruct (oracle_aggregator.aggregate_data "east-africa" "rainfall"
              [1; 2; 9] [41; 42; 43] (mkTxContext 7 1 0))
    as [[[aggregate event] ctx']|e] eqn:Hrun; [|by vm_compute in Hrun].
  exists aggregate, event, ctx'. split; [reflexivity|].
  destruct (average_within_readings "east-africa" "rainfall" [1; 2; 9]
              [41; 42; 43] (mkTxContext 7 1 0)) as (_ & Hbounds & _).
  apply (Hbounds aggregate event ctx' 1 9 Hrun).
  repeat constructor; by vm_compute.
Defined.

End oracle_feeds.

(** ** Claim processing: the two entry points and their edge cases *)

Section claim_edges.

(** The aggregator entry point, written through the aggregate entry
    point. *)
Lemma aggregator_claim_eq policy aggregator aggregate pool ctx :
  soi.location aggregate = pme.location policy →
  soi.data_type aggregate = pme.peril_type policy →
  soi.value aggregate
    = switchboard.decimal_value (switchboard.current_result aggregator) →
  soi.sources_count aggregate = 1 →
  cpu.process_claim_with_aggregator policy aggregator pool ctx
  = cpu.process_claim_with_aggregated_data policy aggregate pool ctx
      ≫= λ '(pool', claim, paid, event, ctx'),
    Ok (pool',
        cpu.mkClaim (cpu.id claim) (cpu.policy_id claim) (cpu.owner claim)
          (cpu.trigger_value claim) (cpu.actual_value claim)
          (switchboard.decimal_places (switchboard.current_result aggregator))
          (cpu.payout_amount claim) (cpu.processed_at claim)
          (cpu.status claim) (cpu.oracle_sources claim),
        paid, event, ctx').
Proof.
  intros Hloc Hperil Hvalue Hcount.
  unfold cpu.process_claim_with_aggregator,
    cpu.process_claim_with_aggregated_data, pme.get_policy_details,
    soi.get_aggregated_data_details, pme.get_trigger_operator.
  rewrite Hloc, Hperil, Hvalue, Hcount.
  destruct (pme.active policy); [|done]. cbn [assert mbind result_bind].
  rewrite !bool_decide_eq_true_2 by done. cbn [assert mbind result_bind].
  destruct (as_u64 _) as [observed|]; [|done]. cbn [mbind result_bind].
  destruct (trigger_evaluation (pme.trigger_operator policy) observed
              (pme.trigger_threshold policy)) as (met & -> & _).
  cbn [mbind result_bind object_new].
  destruct met; cbn; [|done].
  by destruct (liquidity_pool.process_claim_payout _ _ _ _) as [[]|].
Qed.

(** X24. The two entry points of the updated claim processor decide
    alike.  A claim against a single Switchboard aggregator is processed
    exactly as a claim against an aggregate for the policy's own location
    and peril that carries the aggregator's value and one source; only the
    decimal places recorded in the claim differ.  The aggregator entry
    point has no location or peril to compare, and it reads neither the
    sign of the value nor which aggregator it is given: an aggregator with
    the same value and decimal places gives the same result. *)
Theorem aggregator_claim_as_aggregate policy aggregator aggregate pool ctx :
  soi.location aggregate = pme.location policy →
  soi.data_type aggregate = pme.peril_type policy →
  soi.value aggregate
    = switchboard.decimal_value (switchboard.current_result aggregator) →
  soi.sources_count aggregate = 1 →
  cpu.process_claim_with_aggregator policy aggregator pool ctx
  = (cpu.process_claim_with_aggregated_data policy aggregate pool ctx
       ≫= λ '(pool', claim, paid, event, ctx'),
     Ok (pool',
         cpu.mkClaim (cpu.id claim) (cpu.policy_id claim) (cpu.owner claim)
           (cpu.trigger_value claim) (cpu.actual_value claim)
           (switchboard.decimal_places
              (switchboard.current_result aggregator))
           (cpu.payout_amount claim) (cpu.processed_at claim)
           (cpu.status claim) (cpu.oracle_sources claim),
         paid, event, ctx')) ∧
  ∀ other negative,
    cpu.process_claim_with_aggregator policy
      (switchboard.mkAggregator other
         (switchboard.mkDecimal
            (switchboard.decimal_value
               (switchboard.current_result aggregator))
            (switchboard.decimal_places
               (switchboard.current_result aggregator))
            negative))
      pool ctx
    = cpu.process_claim_with_aggregator policy aggregator pool ctx.
Proof.
  intros Hloc Hperil Hvalue Hcount. split.
  - by apply aggregator_claim_eq.
  - intros other negative.
    rewrite (aggregator_claim_eq policy aggregator aggregate) by done.
    by rewrite (aggregator_claim_eq policy _ aggregate) by done.
Qed.

Lemma aggregator_claim_as_aggregate_witness :
  cpu.process_claim_with_aggregator scenario_policy
    (switchboard.mkAggregator 12 (switchboard.mkDecimal 30 8 true))
    (liquidity_pool.mkPool 20000 {[ 1 := 20000 ]} 20000) (mkTxContext 7 1 0)
  = cpu.process_claim_with_aggregated_data scenario_policy
      (soi.mkAggregatedData 12 "east-africa" "rainfall" 30 8 1 1 1 30 0 30 30
         1)
      (liquidity_pool.mkPool 20000 {[ 1 := 20000 ]} 20000)
      (mkTxContext 7 1 0)
      ≫= λ '(pool', claim, paid, event, ctx'),
    Ok (pool',
        cpu.mkClaim (cpu.id claim) (cpu.policy_id claim) (cpu.owner claim)
          (cpu.trigger_value claim) (cpu.actual_value claim) 8
          (cpu.payout_amount claim) (cpu.processed_at claim)
          (cpu.status claim) (cpu.oracle_sources claim),
        paid, event, ctx').
Proof.
  exact (proj1 (aggregator_claim_as_aggregate scenario_policy
                  (switchboard.mkAggregator 12
                     (switchboard.mkDecimal 30 8 true))
                  (soi.mkAggregatedData 12 "east-africa" "rainfall" 30 8 1 1
                     1 30 0 30 30 1)
                  (liquidity_pool.mkPool 20000 {[ 1 := 20000 ]} 20000)
                  (mkTxContext 7 1 0) eq_refl eq_refl eq_refl eq_refl)).
Defined.

(** What a run of the aggregator entry point that returns has done. *)
Lemma process_claim_with_aggregator_inv policy aggregator pool ctx pool'
    claim paid event ctx' :
  cpu.process_claim_with_aggregator policy aggregator pool ctx
    = Ok (pool', claim, paid, event, ctx') →
  let observed :=
    switchboard.decimal_value (switchboard.current_result aggregator) in
  ∃ met : bool,
    (met = true ↔
       trigger_condition (pme.trigger_operator policy) observed
         (pme.trigger_threshold policy)) ∧
    pme.active policy = true ∧
    observed ≤ MAX_U64 ∧
    cpu.status claim = (if met then 1 else 2) ∧
    cpu.payout_amount claim
      = (if met then pme.coverage_amount policy else 0) ∧
    cpu.owner claim = pme.owner policy ∧
    cpu.oracle_sources claim = 1 ∧
    (met = false → pool' = pool ∧ paid = None).
Proof.
  intros Hrun observed.
  rewrite (aggregator_claim_eq policy aggregator
             (soi.mkAggregatedData 0 (pme.location policy)
                (pme.peril_type policy) observed 0 0 0 0 0 0 0 0 1))
    in Hrun by done.
  apply bind_Ok in Hrun as ([[[[pool2 claim2] paid2] event2] ctx2] & Hrun
                            & Hout).
  injection Hout as <- <- <- <- <-.
  apply process_claim_with_aggregated_data_inv in Hrun
    as (met & Hspec & Hactive & _ & _ & Hfits & -> & Hpaid).
  exists met. cbn in *. repeat (split; [done|]).
  intros ->. done.
Qed.

(** X25. A rejected claim costs the pool nothing.  Whenever one of the
    three claim entry points records a claim that is not approved, the pool
    it was given is returned unchanged, no coin is paid and the recorded
    payout is 0. *)
Theorem rejected_claim_keeps_pool :
  (∀ policy oracle_data pool ctx pool' claim paid event ctx',
     cpu.process_claim_with_aggregated_data policy oracle_data pool ctx
       = Ok (pool', claim, paid, event, ctx') →
     cpu.status claim ≠ APPROVED →
     pool' = pool ∧ paid = None ∧ cpu.payout_amount claim = 0 ∧
     cpu.status claim = REJECTED) ∧
  (∀ policy aggregator pool ctx pool' claim paid event ctx',
     cpu.process_claim_with_aggregator policy aggregator pool ctx
       = Ok (pool', claim, paid, event, ctx') →
     cpu.status claim ≠ APPROVED →
     pool' = pool ∧ paid = None ∧ cpu.payout_amount claim = 0 ∧
     cpu.status claim = REJECTED) ∧
  (∀ policy oracle_data pool ctx pool' claim paid event ctx',
     claim_processor.process_claim policy oracle_data pool ctx
       = Ok (pool', claim, paid, event, ctx') →
     claim_processor.status claim ≠ APPROVED →
     pool' = pool ∧ paid = None ∧ claim_processor.payout_amount claim = 0 ∧
     claim_processor.status claim = REJECTED).
Proof.
  unfold APPROVED, REJECTED. split; [|split].
  - intros policy oracle_data pool ctx pool' claim paid event ctx' Hrun.
    apply process_claim_with_aggregated_data_inv in Hrun
      as (met & _ & _ & _ & _ & _ & -> & Hpaid).
    cbn. destruct met; [done|]. by destruct Hpaid as [-> ->].
  - intros policy aggregator pool ctx pool' claim paid event ctx' Hrun.
    apply process_claim_with_aggregator_inv in Hrun
      as (met & _ & _ & _ & -> & -> & _ & _ & Hpaid).
    destruct met; [done|]. by destruct (Hpaid eq_refl) as [-> ->].
  - intros policy oracle_data pool ctx pool' claim paid event ctx' Hrun.
    unfold claim_processor.process_claim in Hrun. inv_ok.
    destruct (_ <=? _); cbn in Hrun; inv_ok;
      repeat match goal with x : (_ * _)%type |- _ => destruct x end;
      inv_ok; by simplify_eq/=.
Qed.

Lemma rejected_claim_keeps_pool_witness :
  ∃ pool' claim paid event ctx',
    cpu.process_claim_with_aggregated_data scenario_policy
      (scenario_aggregate 30)
      (liquidity_pool.mkPool 20000 {[ 1 := 20000 ]} 20000)
      (mkTxContext 7 1 0) = Ok (pool', claim, paid, event, ctx') ∧
    pool' = liquidity_pool.mkPool 20000 {[ 1 := 20000 ]} 20000 ∧
    paid = None.
Proof.
  destruct (cpu.process_claim_with_aggregated_data scenario_policy
              (scenario_aggregate 30)
              (liquidity_pool.mkPool 20000 {[ 1 := 20000 ]} 20000)
              (mkTxContext 7 1 0))
    as [[[[[pool' claim] paid] event] ctx']|e] eqn:Hrun;
    [|by vm_compute in Hrun].
  exists pool', claim, paid, event, ctx'. split; [reflexivity|].
  destruct (proj1 rejected_claim_keeps_pool _ _ _ _ _ _ _ _ _ Hrun)
    as (Hpool & Hpaid & _); [|done].
  vm_compute in Hrun. by injection Hrun as _ <- _ _ _.
Defined.

(** X26. A reading that does not fit [u64] cannot be claimed on.  The
    aggregate carries a [u128] value and the claim processor casts it to
    [u64] before it compares: for an active policy (with matching location
    and peril) and a value above the [u64] range both entry points abort on
    the cast, whatever the trigger, also when the policy's condition
    (greater than) holds for the value. *)
Theorem claim_value_above_u64_aborts policy pool ctx :
  pme.active policy = true →
  (∀ oracle_data,
     pme.location policy = soi.location oracle_data →
     pme.peril_type policy = soi.data_type oracle_data →
     MAX_U64 < soi.value oracle_data →
     cpu.process_claim_with_aggregated_data policy oracle_data pool ctx
     = Err ECast) ∧
  (∀ aggregator,
     MAX_U64
     < switchboard.decimal_value (switchboard.current_result aggregator) →
     cpu.process_claim_with_aggregator policy aggregator pool ctx
     = Err ECast).
Proof.
  intros Hactive. split.
  - intros oracle_data Hloc Hperil Hlarge.
    unfold cpu.process_claim_with_aggregated_data, pme.get_policy_details,
      soi.get_aggregated_data_details.
    rewrite Hactive, !bool_decide_eq_true_2 by done.
    cbn [assert mbind result_bind]. unfold as_u64, cast.
    by apply N.leb_gt in Hlarge as ->.
  - intros aggregator Hlarge.
    unfold cpu.process_claim_with_aggregator, pme.get_policy_details.
    rewrite Hactive. cbn [assert mbind result_bind]. unfold as_u64, cast.
    by apply N.leb_gt in Hlarge as ->.
Qed.

Lemma claim_value_above_u64_aborts_witness :
  cpu.process_claim_with_aggregated_data
    (pme.mkPolicy 11 7 "east-africa" [] "rainfall" "" 10000 25 1 3200 3200 0
       0 true 0 0)
    (scenario_aggregate 18446744073709551616)
    (liquidity_pool.mkPool 20000 {[ 1 := 20000 ]} 20000) (mkTxContext 7 1 0)
  = Err ECast.
Proof.
  assert (MAX_U64 < soi.value (scenario_aggregate 18446744073709551616))
    as Hlarge by by vm_compute.
  exact (proj1 (claim_value_above_u64_aborts
                  (pme.mkPolicy 11 7 "east-africa" [] "rainfall" "" 10000 25
                     1 3200 3200 0 0 true 0 0)
                  (liquidity_pool.mkPool 20000 {[ 1 := 20000 ]} 20000)
                  (mkTxContext 7 1 0) eq_refl)
           (scenario_aggregate 18446744073709551616) eq_refl eq_refl Hlarge).
Defined.

(** X27. Edge cases of the trigger.  For a policy with the operator
    "equal to" and a threshold below 100 the 1% tolerance is 0, so a claim
    is approved only when the observed value is exactly the threshold.  A
    policy whose operator code is none of 0, 1 and 2 (policy creation
    accepts any code) never has a claim approved: every claim it records is
    rejected and the pool is left as it was. *)
Theorem trigger_edge_cases policy oracle_data pool ctx pool' claim paid event
    ctx' :
  cpu.process_claim_with_aggregated_data policy oracle_data pool ctx
    = Ok (pool', claim, paid, event, ctx') →
  (pme.trigger_operator policy = 2 →
   pme.trigger_threshold policy < 100 →
   (cpu.status claim = APPROVED ↔
    soi.value oracle_data = pme.trigger_threshold policy)) ∧
  (2 < pme.trigger_operator policy →
   cpu.status claim = REJECTED ∧ pool' = pool ∧ paid = None).
Proof.
  unfold APPROVED, REJECTED. intros Hrun.
  apply process_claim_with_aggregated_data_inv in Hrun
    as (met & Hspec & _ & _ & _ & _ & -> & Hpaid).
  cbn [cpu.status]. split.
  - intros Hop Hsmall. rewrite Hop in Hspec.
    assert (pme.trigger_threshold policy / 100 = 0) as Htolerance
      by by apply N.div_small.
    assert (met = true ↔
            soi.value oracle_data = pme.trigger_threshold policy) as <-.
    { rewrite Hspec. unfold trigger_condition. split.
      - intros (op & [= <-] & Hholds). cbn in Hholds.
        rewrite Htolerance in Hholds. lia.
      - intros Heq. exists EQUAL_WITHIN_TOLERANCE. split; [done|]. cbn.
        rewrite Htolerance, Heq. lia. }
    by destruct met.
  - intros Hop. destruct met.
    + destruct (proj1 Hspec eq_refl) as (op & Hcode & _).
      destruct (pme.trigger_operator policy) as [|[[]|[]|]];
        simplify_eq/=; lia.
    + done.
Qed.

Lemma trigger_edge_cases_witness :
  ∃ pool' claim paid event ctx',
    cpu.process_claim_with_aggregated_data
      (pme.mkPolicy 11 7 "east-africa" [] "rainfall" "" 10000 25 2 3200 3200
         0 0 true 0 0)
      (scenario_aggregate 26)
      (liquidity_pool.mkPool 20000 {[ 1 := 20000 ]} 20000)
      (mkTxContext 7 1 0) = Ok (pool', claim, paid, event, ctx') ∧
    cpu.status claim ≠ APPROVED.
Proof.
  destruct (cpu.process_claim_with_aggregated_data
              (pme.mkPolicy 11 7 "east-africa" [] "rainfall" "" 10000 25 2
                 3200 3200 0 0 true 0 0)
              (scenario_aggregate 26)
              (liquidity_pool.mkPool 20000 {[ 1 := 20000 ]} 20000)
              (mkTxContext 7 1 0))
    as [[[[[pool' claim] paid] event] ctx']|e] eqn:Hrun;
    [|by vm_compute in Hrun].
  exists pool', claim, paid, event, ctx'. split; [reflexivity|].
  destruct (trigger_edge_cases _ _ _ _ _ _ _ _ _ Hrun) as [Hexact _].
  rewrite Hexact; [by vm_compute|reflexivity|by vm_compute].
Defined.

End claim_edges.

(** ** Funding rate *)

Section funding_rates.
Import funding_rate.

Lemma update_funding_rate_eq pool insured ctx :
  (liquidity_pool.total_liquidity pool = 0 ∨ insured * 10000 ≤ MAX_U64) →
  epoch ctx + 24 ≤ MAX_U64 →
  let u := utilization pool insured in
  let rate :=
    if 8000 <? u then 50 + (u - 8000) / 100
    else if u <? 5000 then (8000 - u) / 1000 else 0 in
  update_funding_rate pool insured ctx
  = Ok (mkFundingRate (ids_created ctx) rate (8000 <? u) (epoch ctx)
          (epoch ctx + 24),
        mkFundingRateUpdated rate (8000 <? u) (epoch ctx),
        (object_new ctx).2).
Proof.
  intros Hfit Hepoch u rate. subst rate u.
  unfold update_funding_rate, utilization, get_total_liquidity.
  assert ((if liquidity_pool.total_liquidity pool =? 0 then Ok 10000
           else mul64 insured 10000 ≫= λ x,
                div x (liquidity_pool.total_liquidity pool))
          = Ok (if liquidity_pool.total_liquidity pool =? 0 then 10000
                else insured * 10000 / liquidity_pool.total_liquidity pool))
    as ->.
  { destruct (N.eqb_spec (liquidity_pool.total_liquidity pool) 0) as [|Hne];
      [done|].
    destruct Hfit as [|Hfit]; [done|]. rewrite mul64_fits by done.
    cbn [mbind result_bind]. by rewrite div_nonzero. }
  cbn [mbind result_bind].
  set (u := if liquidity_pool.total_liquidity pool =? 0 then 10000
            else insured * 10000 / liquidity_pool.total_liquidity pool).
  assert (u ≤ MAX_U64) as Hu.
  { subst u.
    destruct (N.eqb_spec (liquidity_pool.total_liquidity pool) 0) as [|Hne];
      [by vm_compute|].
    destruct Hfit as [|Hfit]; [done|]. etrans; [|exact Hfit].
    apply N.Div0.div_le_upper_bound.
    nia. }
  destruct (N.ltb_spec 8000 u) as [Hhigh|Hlow].
  - rewrite sub_le by lia. cbn [mbind result_bind].
    rewrite div_nonzero by done. cbn [mbind result_bind].
    assert ((u - 8000) / 100 ≤ u - 8000) as Hle
      by (apply N.Div0.div_le_upper_bound; lia).
    rewrite add64_fits by (unfold MAX_U64 in *; lia).
    cbn [mbind result_bind object_new epoch].
    by rewrite add64_fits.
  - destruct (N.ltb_spec u 5000).
    + rewrite sub_le by lia. cbn [mbind result_bind].
      rewrite div_nonzero by done.
      cbn [mbind result_bind object_new epoch]. by rewrite add64_fits.
    + cbn [mbind result_bind object_new epoch]. by rewrite add64_fits.
Qed.

Lemma update_funding_rate_inv pool insured ctx out :
  update_funding_rate pool insured ctx = Ok out →
  (liquidity_pool.total_liquidity pool = 0 ∨ insured * 10000 ≤ MAX_U64) ∧
  epoch ctx + 24 ≤ MAX_U64.
Proof.
  unfold update_funding_rate, get_total_liquidity, object_new.
  intros Hrun. inv_ok. cbn [epoch] in *. split; [|done].
  destruct (N.eqb_spec (liquidity_pool.total_liquidity pool) 0);
    [by left|right].
  by inv_ok.
Qed.

(** X28. The funding rate follows the utilization of the pool,
    [total_insured_value * 10000 / total_liquidity], taken as 10000 for an
    empty pool.  An update returns exactly when that product fits [u64] (an
    empty pool needs no product) and the epoch leaves room for the 24
    epochs of validity.  Above 8000 the policyholders pay
    [50 + (utilization - 8000) / 100]; from 5000 to 8000 the rate is 0;
    below 5000 the providers pay [(8000 - utilization) / 1000], which is
    between 3 and 8.  An empty pool always gives a rate of 70 paid by the
    policyholders, whatever is insured. *)
Theorem funding_rate_regimes pool insured ctx :
  let u := utilization pool insured in
  ((∃ out, update_funding_rate pool insured ctx = Ok out) ↔
   (liquidity_pool.total_liquidity pool = 0 ∨ insured * 10000 ≤ MAX_U64) ∧
   epoch ctx + 24 ≤ MAX_U64) ∧
  ∀ funding event ctx',
    update_funding_rate pool insured ctx = Ok (funding, event, ctx') →
    (direction funding = true ↔ 8000 < u) ∧
    (8000 < u → rate funding = 50 + (u - 8000) / 100) ∧
    (5000 ≤ u ≤ 8000 → rate funding = 0) ∧
    (u < 5000 →
     rate funding = (8000 - u) / 1000 ∧ 3 ≤ rate funding ≤ 8) ∧
    (liquidity_pool.total_liquidity pool = 0 →
     rate funding = 70 ∧ direction funding = true) ∧
    calculated_at funding = epoch ctx ∧
    valid_until funding = epoch ctx + 24 ∧
    event = mkFundingRateUpdated (rate funding) (direction funding)
              (epoch ctx).
Proof.
  intros u. split.
  - split.
    + intros [out Hrun]. by apply update_funding_rate_inv in Hrun.
    + intros [Hfit Hepoch]. eexists.
      by apply update_funding_rate_eq.
  - intros funding event ctx' Hrun.
    pose proof (update_funding_rate_inv _ _ _ _ Hrun) as [Hfit Hepoch].
    rewrite update_funding_rate_eq in Hrun by done. cbn zeta in Hrun.
    fold u in Hrun. injection Hrun as <- <- _.
    cbn [direction rate calculated_at valid_until].
    split; [by rewrite N.ltb_lt|].
    split; [by intros ->%N.ltb_lt|].
    split.
    { intros [Hlow Hhigh].
      destruct (N.ltb_spec 8000 u); [lia|].
      destruct (N.ltb_spec u 5000); [lia|done]. }
    split.
    { intros Hlow.
      destruct (N.ltb_spec 8000 u); [lia|].
      destruct (N.ltb_spec u 5000); [|lia]. split; [done|]. split.
      - apply N.div_le_lower_bound; lia.
      - apply N.Div0.div_le_upper_bound. lia. }
    split; [|done].
    intros Hempty. subst u. unfold utilization. rewrite Hempty. done.
Qed.

Lemma funding_rate_regimes_witness :
  ∃ funding event ctx',
    update_funding_rate (liquidity_pool.mkPool 20000 {[ 1 := 20000 ]} 20000)
      18000 (mkTxContext 7 3 0) = Ok (funding, event, ctx') ∧
    direction funding = true ∧ rate funding = 60.
Proof.
  destruct (update_funding_rate
              (liquidity_pool.mkPool 20000 {[ 1 := 20000 ]} 20000) 18000
              (mkTxContext 7 3 0))
    as [[[funding event] ctx']|e] eqn:Hrun; [|by vm_compute in Hrun].
  exists funding, event, ctx'. split; [reflexivity|].
  destruct (proj2 (funding_rate_regimes
                     (liquidity_pool.mkPool 20000 {[ 1 := 20000 ]} 20000)
                     18000 (mkTxContext 7 3 0)) funding event ctx' Hrun)
    as (Hdirection & Hrate & _).
  split; [by apply Hdirection|]. rewrite Hrate; by vm_compute.
Defined.

End funding_rates.

(** ** Aggregation of several Switchboard feeds *)

Section feed_aggregation.
Import switchboard_feeds.

Lemma collect_fold registry location data_type aggregators values mins maxs
    values' mins' maxs' :
  fold_result (λ aggregator (st : list N * list N * list N),
    let '(values, min_timestamps, max_timestamps) := st in
    assert (table_contains (feed_types registry)
              (aggregator.id aggregator)) 1 ≫= λ _,
    table_borrow (feed_types registry) (aggregator.id aggregator) ≫= λ ty,
    assert (bool_decide (ty = data_type)) 2 ≫= λ _,
    table_borrow (feed_locations registry) (aggregator.id aggregator)
      ≫= λ loc,
    assert (bool_decide (loc = location)) 3 ≫= λ _,
    Ok (values ++ [reading aggregator],
        min_timestamps ++ [earliest aggregator],
        max_timestamps ++ [latest aggregator]))
    aggregators (values, mins, maxs) = Ok (values', mins', maxs') →
  Forall (aggregator_registered registry location data_type) aggregators ∧
  values' = values ++ (reading <$> aggregators) ∧
  mins' = mins ++ (earliest <$> aggregators) ∧
  maxs' = maxs ++ (latest <$> aggregators).
Proof.
  revert values mins maxs.
  induction aggregators as [|aggregator aggregators IH];
    intros values mins maxs Hrun; cbn [fold_result] in Hrun.
  { injection Hrun as <- <- <-. by rewrite !app_nil_r. }
  apply bind_Ok in Hrun as ([[values1 mins1] maxs1] & Hstep & Hrun).
  apply IH in Hrun as (Hrest & -> & -> & ->).
  inv_ok. unfold table_borrow in *.
  repeat match goal with
  | H : match ?m with Some _ => _ | None => _ end = Ok _ |- _ =>
      destruct m eqn:?; [|discriminate H]
  | H : Ok _ = Ok _ |- _ => injection H as H
  | H : bool_decide _ = true |- _ => apply bool_decide_eq_true in H
  end.
  simplify_eq. rewrite <- !app_assoc. repeat split; try done.
  constructor; [|done]. by split.
Qed.

Lemma collect_loop registry location data_type aggregators values mins maxs :
  while_lt 0 (vector_length aggregators)
    (collect_step registry location data_type aggregators) ([], [], [])
    = Ok (values, mins, maxs) →
  Forall (aggregator_registered registry location data_type) aggregators ∧
  values = reading <$> aggregators ∧
  mins = earliest <$> aggregators ∧
  maxs = latest <$> aggregators.
Proof.
  rewrite (while_lt_vector aggregators _ (λ aggregator st,
    let '(values, min_timestamps, max_timestamps) := st in
    assert (table_contains (feed_types registry)
              (aggregator.id aggregator)) 1 ≫= λ _,
    table_borrow (feed_types registry) (aggregator.id aggregator) ≫= λ ty,
    assert (bool_decide (ty = data_type)) 2 ≫= λ _,
    table_borrow (feed_locations registry) (aggregator.id aggregator)
      ≫= λ loc,
    assert (bool_decide (loc = location)) 3 ≫= λ _,
    Ok (values ++ [reading aggregator],
        min_timestamps ++ [earliest aggregator],
        max_timestamps ++ [latest aggregator])))
    by (by intros i [[values0 mins0] maxs0]).
  apply collect_fold.
Qed.

Lemma bubble_sort_feeds values :
  bubble_sort values = switchboard_oracle.bubble_sort values.
Proof. reflexivity. Qed.

(** The median of a sorted, non-empty vector of [u128] values. *)
Lemma median_value_feeds_inv values m :
  median_value values = Ok m → values ≠ [] ∧ m = median_of_sorted values.
Proof.
  destruct values as [|v values]; [by vm_compute|].
  intros Hrun. split; [done|]. revert Hrun.
  set (l := v :: values). set (n := length l).
  assert (0 < n)%nat as Hn by (subst n l; simpl; lia).
  assert (n / 2 < n)%nat as Hhalf by (apply Nat.div_lt; lia).
  unfold median_value, median_of_sorted, vector_length. fold n.
  unfold rem. cbn [N.eqb mbind result_bind]. rewrite <- even_of_nat.
  rewrite !(div_nonzero _ 2) by done.
  assert (N.to_nat (N.of_nat n / 2) = (n / 2)%nat) as Hh
    by (by rewrite N2Nat.inj_div, Nat2N.id).
  destruct (Nat.even n) eqn:Heven; cbn [mbind result_bind].
  - assert (1 ≤ N.of_nat n / 2) as Hge.
    { apply N.div_le_lower_bound; [done|].
      destruct n as [|[|n']]; [lia|done|lia]. }
    rewrite sub_le by done. cbn [mbind result_bind].
    assert (N.to_nat (N.of_nat n / 2 - 1) = (n / 2 - 1)%nat) as Hp
      by (by rewrite N2Nat.inj_sub, Hh).
    rewrite !borrow_nth by (fold n; lia). rewrite Hp, Hh.
    cbn [mbind result_bind]. unfold add128, checked_add.
    destruct (_ <=? MAX_U128); [|done]. cbn [mbind result_bind].
    rewrite div_nonzero by done. by intros [= <-].
  - rewrite borrow_nth by (fold n; lia). rewrite Hh. by intros [= <-].
Qed.

Lemma fold_result_sum_inv {A : Type} (max : N) (g : A → result N)
    (f : A → N) (l : list A) (s t : N) :
  (∀ x y, g x = Ok y → y = f x) →
  fold_result (λ x s, g x ≫= λ y, checked_add max s y) l s = Ok t →
  t = s + sum_N (f <$> l).
Proof.
  intros Hg. revert s.
  induction l as [|x l IH]; intros s Hrun; cbn [fold_result] in Hrun.
  { injection Hrun as <-. cbn. lia. }
  apply bind_Ok in Hrun as (s' & Hstep & Hrun).
  apply bind_Ok in Hstep as (y & Hy & Hadd).
  apply checked_add_Ok in Hadd as [-> _]. apply Hg in Hy as ->.
  apply IH in Hrun as ->.
  change (sum_N (f <$> x :: l)) with (f x + sum_N (f <$> l)). lia.
Qed.

Lemma sum_loop_feeds values total :
  while_lt 0 (vector_length values) (sum_step values) 0 = Ok total →
  total = sum_N values.
Proof.
  rewrite (while_lt_vector values _
             (λ x s, Ok x ≫= λ y, checked_add MAX_U128 s y)) by done.
  intros Hrun.
  apply (fold_result_sum_inv _ _ id) in Hrun; [|by intros x y [= <-]].
  by rewrite list_fmap_id, N.add_0_l in Hrun.
Qed.

Lemma variance_loop values mean total :
  while_lt 0 (vector_length values) (variance_step values mean) 0
    = Ok total →
  total = sum_N ((λ v, abs_diff v mean * abs_diff v mean) <$> values).
Proof.
  rewrite (while_lt_vector values _ (λ x s,
    ((if mean <? x then sub x mean else sub mean x) ≫= λ diff,
     mul128 diff diff) ≫= λ y, checked_add MAX_U128 s y)).
  - intros Hrun.
    apply (fold_result_sum_inv _ _
             (λ v, abs_diff v mean * abs_diff v mean)) in Hrun; [done|].
    intros x y Hy. apply bind_Ok in Hy as (diff & Hdiff & Hsquare).
    apply checked_mul_Ok in Hsquare as [-> _]. unfold abs_diff.
    destruct (mean <? x); apply sub_Ok in Hdiff as [-> _]; done.
  - intros i s. unfold variance_step.
    destruct (borrow values i) as [x|]; [|done]. cbn [mbind result_bind].
    destruct (mean <? x); cbn [mbind result_bind];
      by destruct (sub _ _) as [diff|]; cbn [mbind result_bind];
        [destruct (mul128 diff diff)|].
Qed.

Lemma borrow_fmap {A B : Type} (f : A → B) (l : list A) i :
  borrow (f <$> l) i = borrow l i ≫= λ x, Ok (f x).
Proof.
  unfold borrow. rewrite list_lookup_fmap. by destruct (l !! N.to_nat i).
Qed.

Lemma timestamp_fold aggregators first last first' last' :
  fold_result (λ aggregator (st : N * N),
    Ok (if earliest aggregator <? st.1 then earliest aggregator else st.1,
        if st.2 <? latest aggregator then latest aggregator else st.2))
    aggregators (first, last) = Ok (first', last') →
  (first' ≤ first ∧
   Forall (λ t, first' ≤ t) (earliest <$> aggregators) ∧
   (first' = first ∨ first' ∈ earliest <$> aggregators)) ∧
  (last ≤ last' ∧
   Forall (λ t, t ≤ last') (latest <$> aggregators) ∧
   (last' = last ∨ last' ∈ latest <$> aggregators)).
Proof.
  revert first last.
  induction aggregators as [|aggregator aggregators IH];
    intros first last Hrun; cbn [fold_result] in Hrun.
  { injection Hrun as <- <-. repeat split; try done; by left. }
  cbn [mbind result_bind fst snd] in Hrun.
  apply IH in Hrun as ((Hle & Hall & Hin) & (Hle' & Hall' & Hin')).
  cbn [fmap list_fmap]. split.
  - destruct (N.ltb_spec (earliest aggregator) first).
    + split; [lia|]. split; [by constructor|].
      right. destruct Hin as [->|Hin]; [left|by right].
    + split; [done|]. split; [constructor; [lia|done]|].
      destruct Hin as [->|Hin]; [by left|right; by right].
  - destruct (N.ltb_spec last (latest aggregator)).
    + split; [lia|]. split; [by constructor|].
      right. destruct Hin' as [->|Hin']; [left|by right].
    + split; [done|]. split; [constructor; [lia|done]|].
      destruct Hin' as [->|Hin']; [by left|right; by right].
Qed.

Lemma timestamp_loop aggregator aggregators first last :
  while_lt 1 (vector_length (earliest <$> aggregator :: aggregators))
    (timestamp_step (earliest <$> aggregator :: aggregators)
       (latest <$> aggregator :: aggregators))
    (earliest aggregator, latest aggregator) = Ok (first, last) →
  (first ∈ earliest <$> aggregator :: aggregators ∧
   Forall (λ t, first ≤ t) (earliest <$> aggregator :: aggregators)) ∧
  (last ∈ latest <$> aggregator :: aggregators ∧
   Forall (λ t, t ≤ last) (latest <$> aggregator :: aggregators)).
Proof.
  unfold while_lt, vector_length. rewrite length_fmap.
  replace (N.to_nat (N.of_nat (length (aggregator :: aggregators)) - 1))
    with (length aggregators) by (simpl; lia).
  rewrite (count_up_vector (aggregator :: aggregators) [aggregator]
             aggregators _ (λ aggregator (st : N * N),
    Ok (if earliest aggregator <? st.1 then earliest aggregator else st.1,
        if st.2 <? latest aggregator then latest aggregator else st.2)));
    [|intros i [first0 last0]|done].
  - intros Hrun.
    apply timestamp_fold in Hrun as ((Hle & Hall & Hin) & (Hle' & Hall' & Hin')).
    cbn [fmap list_fmap]. repeat split.
    + destruct Hin as [->|Hin]; [left|by right].
    + by constructor.
    + destruct Hin' as [->|Hin']; [left|by right].
    + by constructor.
  - unfold timestamp_step. rewrite !borrow_fmap.
    by destruct (borrow (aggregator :: aggregators) i).
Qed.

Lemma sorted_nth_le (l : list N) (i j : nat) :
  StronglySorted N.le l → (i ≤ j)%nat → (j < length l)%nat →
  nth i l 0 ≤ nth j l 0.
Proof.
  intros Hsorted. revert i j.
  induction Hsorted as [|x l Hsorted IH Hhead]; intros i j Hij Hj;
    [simpl in Hj; lia|].
  destruct j as [|j]; [by replace i with 0%nat by lia|].
  destruct i as [|i]; simpl in *.
  - rewrite nth_lookup. destruct (l !! j) as [y|] eqn:Hy; simpl.
    + by eapply Forall_lookup_1 in Hhead.
    + apply lookup_ge_None in Hy. lia.
  - apply IH; lia.
Qed.

Lemma sorted_ends (l : list N) (x : N) :
  StronglySorted N.le l → x ∈ l →
  nth 0 l 0 ≤ x ≤ nth (length l - 1) l 0.
Proof.
  intros Hsorted Hin.
  apply list_elem_of_lookup_1 in Hin as [k Hk].
  pose proof (lookup_lt_Some _ _ _ Hk) as Hlt.
  rewrite <- (nth_lookup_Some _ _ 0 _ Hk).
  split; apply sorted_nth_le; try done; lia.
Qed.

Lemma sum_N_Permutation (l k : list N) : l ≡ₚ k → sum_N l = sum_N k.
Proof.
  induction 1 as [|x l k _ IH|x y l|l k m _ IH1 _ IH2];
    unfold sum_N in *; cbn; lia.
Qed.

(** What a run of [aggregate_multiple_feeds] that returns has done. *)
Lemma aggregate_multiple_feeds_inv registry aggregators location data_type
    ctx aggregate event ctx' :
  vector_length aggregators ≤ MAX_U64 →
  aggregate_multiple_feeds registry aggregators location data_type ctx
    = Ok (aggregate, event, ctx') →
  let readings := reading <$> aggregators in
  let sorted := bubble_passes (length readings) readings in
  let count := vector_length aggregators in
  aggregators ≠ [] ∧
  Forall (aggregator_registered registry location data_type) aggregators ∧
  soi.value aggregate = median_of_sorted sorted ∧
  soi.min_value aggregate = nth 0 sorted 0 ∧
  soi.max_value aggregate = nth (length sorted - 1) sorted 0 ∧
  soi.mean aggregate = sum_N readings / count ∧
  soi.stdev aggregate
    = sum_N ((λ v, abs_diff v (soi.mean aggregate)
                   * abs_diff v (soi.mean aggregate)) <$> readings)
      / count ∧
  (soi.min_timestamp aggregate ∈ earliest <$> aggregators ∧
   Forall (λ t, soi.min_timestamp aggregate ≤ t) (earliest <$> aggregators)) ∧
  (soi.max_timestamp aggregate ∈ latest <$> aggregators ∧
   Forall (λ t, t ≤ soi.max_timestamp aggregate) (latest <$> aggregators)) ∧
  soi.sources_count aggregate = count ∧
  soi.location aggregate = location ∧
  soi.data_type aggregate = data_type.
Proof.
  intros Hfit Hrun readings sorted count.
  unfold aggregate_multiple_feeds in Hrun.
  apply bind_Ok in Hrun as ([] & Hcount & Hrun). apply assert_Ok in Hcount.
  apply bind_Ok in Hrun as ([[values mins] maxs] & Hcollect & Hrun).
  apply collect_loop in Hcollect as (Hregistered & -> & -> & ->).
  fold readings in Hrun.
  assert (vector_length readings = count) as Hlen
    by (unfold vector_length, readings, count; by rewrite length_fmap).
  rewrite bubble_sort_feeds, bubble_sort_passes in Hrun by (by rewrite Hlen).
  cbn [mbind result_bind] in Hrun. fold sorted in Hrun.
  assert (sorted ≡ₚ readings) as Hperm by apply bubble_passes_Permutation.
  assert (length sorted = length readings) as Hslen by (by rewrite Hperm).
  assert (vector_length sorted = count) as Hscount
    by (unfold vector_length in *; by rewrite Hslen).
  rewrite Hlen in Hrun.
  clearbody sorted. clearbody readings. clearbody count.
  apply bind_Ok in Hrun as (median & Hmedian & Hrun).
  apply median_value_feeds_inv in Hmedian as [Hne ->].
  apply bind_Ok in Hrun as (total & Htotal & Hrun).
  rewrite <- Hscount in Htotal. apply sum_loop_feeds in Htotal.
  rewrite (sum_N_Permutation sorted readings Hperm) in Htotal. subst total.
  apply bind_Ok in Hrun as (mean & Hmean & Hrun).
  apply div_Ok in Hmean as [-> Hnonzero].
  destruct aggregators as [|aggregator aggregators];
    [by vm_compute in Hcount|].
  change (borrow (earliest <$> aggregator :: aggregators) 0)
    with (Ok (earliest aggregator)) in Hrun.
  change (borrow (latest <$> aggregator :: aggregators) 0)
    with (Ok (latest aggregator)) in Hrun.
  cbn [mbind result_bind] in Hrun.
  apply bind_Ok in Hrun as ([first last] & Htimes & Hrun).
  apply timestamp_loop in Htimes as [Hfirst Hlast].
  apply bind_Ok in Hrun as (variance & Hvariance & Hrun).
  rewrite <- Hscount in Hvariance at 1.
  apply variance_loop in Hvariance as ->.
  apply bind_Ok in Hrun as (x & Hx & Hrun). apply div_Ok in Hx as [-> _].
  apply bind_Ok in Hrun as (y & Hy & Hrun). apply div_Ok in Hy as [-> _].
  unfold object_new in Hrun.
  apply bind_Ok in Hrun as (least & Hleast & Hrun).
  apply bind_Ok in Hrun as (last_index & Hindex & Hrun).
  apply sub_Ok in Hindex as [-> Hone].
  apply bind_Ok in Hrun as (greatest & Hgreatest & Hrun).
  injection Hrun as <- _ _.
  cbn [soi.value soi.min_value soi.max_value soi.mean soi.stdev
       soi.min_timestamp soi.max_timestamp soi.sources_count soi.location
       soi.data_type].
  assert (0 < length sorted)%nat as Hpos
    by (destruct sorted; simpl; [done|lia]).
  rewrite borrow_nth in Hleast by (simpl; lia). injection Hleast as <-.
  rewrite borrow_nth in Hgreatest by (unfold vector_length in *; lia).
  injection Hgreatest as <-.
  assert (sum_N ((λ v, abs_diff v (sum_N readings / count)
                       * abs_diff v (sum_N readings / count)) <$> sorted)
          = sum_N ((λ v, abs_diff v (sum_N readings / count)
                         * abs_diff v (sum_N readings / count))
                   <$> readings)) as ->
    by (apply sum_N_Permutation; by rewrite Hperm).
  change (1 / 2) with 0. rewrite N.lxor_0_r.
  replace (N.to_nat (count - 1)) with (length sorted - 1)%nat
    by (unfold vector_length in *; lia).
  destruct Hfirst, Hlast. repeat split; done.
Qed.

Lemma nth_elem_of (l : list N) (i : nat) :
  (i < length l)%nat → nth i l 0 ∈ l.
Proof.
  intros Hi. destruct (lookup_lt_is_Some_2 l i Hi) as [x Hx].
  rewrite (nth_lookup_Some _ _ 0 _ Hx). by eapply list_elem_of_lookup_2.
Qed.

(** X29. The order statistics of a multi-feed aggregate.  For every
    aggregate that [aggregate_multiple_feeds] returns, all aggregators are
    registered for the requested location and data type; the value is the
    median of their readings (the mean of the two middle readings, rounded
    down, for an even number of them); [min_value] and [max_value] are the
    smallest and the largest reading; the value lies between them; and
    [sources_count] is the number of aggregators. *)
Theorem multi_feed_order_statistics registry aggregators location data_type
    ctx aggregate event ctx' :
  vector_length aggregators ≤ MAX_U64 →
  aggregate_multiple_feeds registry aggregators location data_type ctx
    = Ok (aggregate, event, ctx') →
  let readings := reading <$> aggregators in
  Forall (aggregator_registered registry location data_type) aggregators ∧
  is_median readings (soi.value aggregate) ∧
  soi.min_value aggregate ∈ readings ∧
  soi.max_value aggregate ∈ readings ∧
  (∀ r, r ∈ readings →
     soi.min_value aggregate ≤ r ≤ soi.max_value aggregate) ∧
  soi.min_value aggregate ≤ soi.value aggregate ≤ soi.max_value aggregate ∧
  soi.sources_count aggregate = vector_length aggregators.
Proof.
  intros Hfit Hrun readings.
  apply aggregate_multiple_feeds_inv in Hrun
    as (Hne & Hregistered & Hvalue & Hmin & Hmax & _ & _ & _ & _ & Hcount
        & _); [|done].
  fold readings in Hvalue, Hmin, Hmax.
  set (sorted := bubble_passes (length readings) readings) in *.
  assert (sorted ≡ₚ readings) as Hperm by apply bubble_passes_Permutation.
  assert (StronglySorted N.le sorted) as Hsorted
    by (by apply bubble_passes_Sorted).
  assert (0 < length sorted)%nat as Hpos.
  { rewrite Hperm. unfold readings. rewrite length_fmap.
    destruct aggregators; simpl; [done|lia]. }
  assert (∀ r, r ∈ readings →
            soi.min_value aggregate ≤ r ≤ soi.max_value aggregate)
    as Hends.
  { intros r Hr. rewrite Hmin, Hmax. apply sorted_ends; [done|].
    by rewrite Hperm. }
  split; [done|]. split.
  { exists sorted. split; [done|]. split; [|done].
    by apply StronglySorted_Sorted. }
  split; [rewrite Hmin, <- Hperm; apply nth_elem_of; lia|].
  split; [rewrite Hmax, <- Hperm; apply nth_elem_of; lia|].
  split; [done|]. split; [|done]. rewrite Hvalue. split.
  - apply median_of_sorted_bounded_below;
      [intros Hnil; rewrite Hnil in Hpos; simpl in Hpos; lia|].
    apply Forall_forall. intros r Hr. apply Hends. by rewrite <- Hperm.
  - apply median_of_sorted_bounded.
    apply Forall_forall. intros r Hr. apply Hends. by rewrite <- Hperm.
Qed.

Lemma multi_feed_order_statistics_witness :
  ∃ aggregate event ctx',
    aggregate_multiple_feeds temperature_registry
      [temperature_aggregator 1 31 100 200;
       temperature_aggregator 2 24 150 250]
      "south-pacific" "temperature" (mkTxContext 7 1 0)
      = Ok (aggregate, event, ctx') ∧
    is_median [31; 24] (soi.value aggregate) ∧
    soi.min_value aggregate ≤ soi.value aggregate ≤ soi.max_value aggregate.
Proof.
  destruct (aggregate_multiple_feeds temperature_registry
              [temperature_aggregator 1 31 100 200;
               temperature_aggregator 2 24 150 250]
              "south-pacific" "temperature" (mkTxContext 7 1 0))
    as [[[aggregate event] ctx']|e] eqn:Hrun; [|by vm_compute in Hrun].
  exists aggregate, event, ctx'. split; [reflexivity|].
  assert (vector_length
            [temperature_aggregator 1 31 100 200;
             temperature_aggregator 2 24 150 250] ≤ MAX_U64) as Hfit
    by by vm_compute.
  destruct (multi_feed_order_statistics _ _ _ _ _ _ _ _ Hfit Hrun)
    as (_ & Hmedian & _ & _ & _ & Hbetween & _).
  split; [exact Hmedian|exact Hbetween].
Defined.

(** X30. The spread of a multi-feed aggregate.  [mean] is the sum of the
    readings divided by their number, rounded down, and lies between the
    smallest and the largest reading.  [stdev] is not a standard deviation:
    the square root in its computation is written [^ (1/2)], an exclusive
    or with 0, so the field holds the mean squared distance of the readings
    from the mean, rounded down.  [min_timestamp] is the earliest of the
    aggregators' minimum timestamps and [max_timestamp] the latest of their
    maximum timestamps. *)
Theorem multi_feed_spread registry aggregators location data_type ctx
    aggregate event ctx' :
  vector_length aggregators ≤ MAX_U64 →
  aggregate_multiple_feeds registry aggregators location data_type ctx
    = Ok (aggregate, event, ctx') →
  let readings := reading <$> aggregators in
  let count := vector_length aggregators in
  soi.mean aggregate = sum_N readings / count ∧
  soi.min_value aggregate ≤ soi.mean aggregate ≤ soi.max_value aggregate ∧
  soi.stdev aggregate
    = sum_N ((λ v, abs_diff v (soi.mean aggregate)
                   * abs_diff v (soi.mean aggregate)) <$> readings)
      / count ∧
  (soi.min_timestamp aggregate ∈ earliest <$> aggregators ∧
   Forall (λ t, soi.min_timestamp aggregate ≤ t) (earliest <$> aggregators)) ∧
  (soi.max_timestamp aggregate ∈ latest <$> aggregators ∧
   Forall (λ t, t ≤ soi.max_timestamp aggregate) (latest <$> aggregators)).
Proof.
  intros Hfit Hrun readings count.
  pose proof (aggregate_multiple_feeds_inv _ _ _ _ _ _ _ _ Hfit Hrun)
    as (Hne & _ & _ & Hmin & Hmax & Hmean & Hstdev & Hfirst & Hlast & _).
  fold readings count in Hmin, Hmax, Hmean, Hstdev.
  set (sorted := bubble_passes (length readings) readings) in *.
  assert (sorted ≡ₚ readings) as Hperm by apply bubble_passes_Permutation.
  assert (StronglySorted N.le sorted) as Hsorted
    by (by apply bubble_passes_Sorted).
  assert (Forall (λ v, soi.min_value aggregate ≤ v
                       ≤ soi.max_value aggregate) readings) as Hends.
  { apply Forall_forall. intros r Hr. rewrite Hmin, Hmax.
    apply sorted_ends; [done|]. by rewrite Hperm. }
  apply sum_N_bounds in Hends as [Hlow Hhigh].
  assert (vector_length readings = count) as Hlen
    by (unfold vector_length, readings, count; by rewrite length_fmap).
  rewrite Hlen in Hlow, Hhigh.
  assert (count ≠ 0) as Hcount
    by (unfold count, vector_length; destruct aggregators; simpl;
        [done|lia]).
  split; [done|]. split; [|done]. rewrite Hmean. split.
  - apply N.div_le_lower_bound; [done|lia].
  - apply N.Div0.div_le_upper_bound. lia.
Qed.

Lemma multi_feed_spread_witness :
  ∃ aggregate event ctx',
    aggregate_multiple_feeds temperature_registry
      [temperature_aggregator 1 10 100 200;
       temperature_aggregator 2 20 150 250]
      "south-pacific" "temperature" (mkTxContext 7 1 0)
      = Ok (aggregate, event, ctx') ∧
    soi.mean aggregate = 15 ∧
    soi.stdev aggregate = 25 ∧
    soi.min_timestamp aggregate = 100 ∧
    soi.max_timestamp aggregate = 250.
Proof.
  destruct (aggregate_multiple_feeds temperature_registry
              [temperature_aggregator 1 10 100 200;
               temperature_aggregator 2 20 150 250]
              "south-pacific" "temperature" (mkTxContext 7 1 0))
    as [[[aggregate event] ctx']|e] eqn:Hrun; [|by vm_compute in Hrun].
  exists aggregate, event, ctx'. split; [reflexivity|].
  assert (vector_length
            [temperature_aggregator 1 10 100 200;
             temperature_aggregator 2 20 150 250] ≤ MAX_U64) as Hfit
    by by vm_compute.
  destruct (multi_feed_spread _ _ _ _ _ _ _ _ Hfit Hrun)
    as (Hmean & _ & Hstdev & _).
  assert (soi.mean aggregate = 15) as Hfifteen
    by (rewrite Hmean; by vm_compute).
  split; [exact Hfifteen|]. split.
  - rewrite Hstdev, Hfifteen. by vm_compute.
  - vm_compute in Hrun. by injection Hrun as <- _ _.
Defined.

End feed_aggregation.
